(** * MAX-SC-QBF: instance generator, instance parser and MILP model builder

    A shallow embedding of [gen_instances.py] and [max_sc_qbf.py].

    Python [int] values are [Z]; list positions and loop counters over
    [range(n)] are [nat]; a Python [set] of ints is a [gset Z]; the sparse
    coefficient dictionary [A] is a [gmap (nat * nat)]; text is [string].
    Code that threads an iterator or a random source and may raise is written
    in a state-and-exception monad [Py]. *)

From Stdlib Require Import ZArith QArith Lqa Ascii String List SpecFloat.
From stdpp Require Import base gmap sets list strings sorting pretty.

Local Open Scope string_scope.
Local Open Scope list_scope.
Local Open Scope Z_scope.

#[local] Set Warnings "-clear-no-such-hyp".

(** ** Exceptions and the two monads *)

(** [ValueError msg] is a [raise ValueError(msg)] written in the sources.
    [BuiltinValueError f arg] is the [ValueError] a builtin raises by itself
    ([int], [float], [min], [randrange]): its message is the builtin's own. *)
Inductive exn :=
  | ValueError (msg : string)
  | BuiltinValueError (builtin : string) (arg : string)
  | IndexError
  | KeyError
  | TypeError
  | ZeroDivisionError.

Inductive result (A : Type) :=
  | Ok (a : A)
  | Raise (e : exn).
Arguments Ok {A} a.
Arguments Raise {A} e.

Definition result_bind {A B} (f : A → result B) (m : result A) : result B :=
  match m with
  | Ok a => f a
  | Raise e => Raise e
  end.

#[global] Instance result_ret : MRet result := λ A a, Ok a.
#[global] Instance result_mbind : MBind result := λ A B f m, result_bind f m.

(** A computation over a mutable state of type [St] (the token iterator in
    the parser, the random source in the generator) that may raise. *)
Definition Py (St A : Type) : Type := St → result (A * St).

Definition py_ret {St A} (a : A) : Py St A := λ s, Ok (a, s).
Definition py_bind {St A B} (f : A → Py St B) (m : Py St A) : Py St B :=
  λ s, match m s with
       | Ok (a, s') => f a s'
       | Raise e => Raise e
       end.
Definition py_raise {St A} (e : exn) : Py St A := λ _, Raise e.
Definition py_lift {St A} (r : result A) : Py St A :=
  λ s, match r with Ok a => Ok (a, s) | Raise e => Raise e end.

#[global] Instance Py_ret {St} : MRet (Py St) := λ A a, py_ret a.
#[global] Instance Py_mbind {St} : MBind (Py St) := λ A B f m, py_bind f m.

(** [for x in xs: acc = body(acc, x)] *)
Fixpoint foldM {St A X} (body : A → X → Py St A) (acc : A) (xs : list X) : Py St A :=
  match xs with
  | [] => py_ret acc
  | x :: xs' => py_bind (λ acc', foldM body acc' xs') (body acc x)
  end.

(** [out = []; for x in xs: out.append(body(x))] *)
Fixpoint forM {St X B} (body : X → Py St B) (xs : list X) : Py St (list B) :=
  match xs with
  | [] => py_ret []
  | x :: xs' =>
      py_bind (λ b, py_bind (λ bs, py_ret (b :: bs)) (forM body xs')) (body x)
  end.

(** [out = []; for _ in range(k): out.append(body())] *)
Fixpoint repeatM {St B} (k : nat) (body : Py St B) : Py St (list B) :=
  match k with
  | O => py_ret []
  | S k' => py_bind (λ b, py_bind (λ bs, py_ret (b :: bs)) (repeatM k' body)) body
  end.

(** The same loops for code that raises but threads no state. *)
Fixpoint foldR {A X} (body : A → X → result A) (acc : A) (xs : list X) : result A :=
  match xs with
  | [] => Ok acc
  | x :: xs' => result_bind (λ acc', foldR body acc' xs') (body acc x)
  end.

Fixpoint forR {X B} (body : X → result B) (xs : list X) : result (list B) :=
  match xs with
  | [] => Ok []
  | x :: xs' =>
      result_bind (λ b, result_bind (λ bs, Ok (b :: bs)) (forR body xs')) (body x)
  end.

(** ** Python text builtins

    A character of a [string] stands for the code point of its number:
    the text of a file is taken over the code points below 256. *)

Definition LF : ascii := "010"%char.
Definition nl : string := String LF "".

(** [str.isspace] on one character: tab, line feed, vertical tab, form
    feed, carriage return, the four separators 0x1c-0x1f, the space, the
    next-line control 0x85 and the no-break space 0xa0. *)
Definition is_space (c : ascii) : bool :=
  let k := N_of_ascii c in
  ((9 <=? k)%N && (k <=? 13)%N) || ((28 <=? k)%N && (k <=? 32)%N)
  || (k =? 133)%N || (k =? 160)%N.

(** [s.split()]: the maximal runs of non-blank characters. *)
Fixpoint split (s : string) : list string :=
  match s with
  | EmptyString => []
  | String c s' =>
      if is_space c then split s'
      else match s' with
           | EmptyString => [String c EmptyString]
           | String c' _ =>
               if is_space c' then String c EmptyString :: split s'
               else match split s' with
                    | t :: ts => String c t :: ts
                    | [] => [String c EmptyString]
                    end
           end
  end.

Fixpoint lstrip (s : string) : string :=
  match s with
  | EmptyString => EmptyString
  | String c s' => if is_space c then lstrip s' else s
  end.

Fixpoint rstrip (s : string) : string :=
  match s with
  | EmptyString => EmptyString
  | String c s' =>
      match rstrip s' with
      | EmptyString => if is_space c then EmptyString else String c EmptyString
      | r => String c r
      end
  end.

(** [s.strip()] *)
Definition strip (s : string) : string := rstrip (lstrip s).

(** [f.readlines()]: the lines of the text, each with its line feed. (A
    carriage return is a blank to [strip] and [split], so reading it as a
    line end, as Python's universal newlines do, yields the same tokens.) *)
Fixpoint readlines (s : string) : list string :=
  match s with
  | EmptyString => []
  | String c s' =>
      if Ascii.eqb c LF then String c EmptyString :: readlines s'
      else match readlines s' with
           | l :: ls => String c l :: ls
           | [] => [String c EmptyString]
           end
  end.

(** [sep.join(parts)] *)
Fixpoint join (sep : string) (parts : list string) : string :=
  match parts with
  | [] => ""
  | [p] => p
  | p :: ps => p +:+ sep +:+ join sep ps
  end.

(** [str(k)] for an int is stdpp's [pretty]: the decimal digits, with a
    leading minus sign for a negative number. *)
Definition py_str (k : Z) : string := pretty k.

Definition digit_val (c : ascii) : option Z :=
  let k := N_of_ascii c in
  if ((48 <=? k)%N && (k <=? 57)%N) then Some (Z.of_N k - 48) else None.

(** The digits of an [int()] literal after its first digit: digits, and
    single underscores each followed by a digit. *)
Fixpoint int_digits (acc : Z) (s : string) : option Z :=
  match s with
  | EmptyString => Some acc
  | String c s' =>
      match digit_val c with
      | Some d => int_digits (10 * acc + d) s'
      | None =>
          if Ascii.eqb c "_"%char then
            match s' with
            | String c' s'' =>
                match digit_val c' with
                | Some d => int_digits (10 * acc + d) s''
                | None => None
                end
            | EmptyString => None
            end
          else None
      end
  end.

Definition nat_literal (s : string) : option Z :=
  match s with
  | String c s' =>
      match digit_val c with
      | Some d => int_digits d s'
      | None => None
      end
  | EmptyString => None
  end.

(** The value of [int(tok)] for a token, [None] where [int] raises
    [ValueError]: an optional sign, then a decimal literal, whose digits
    below 256 are the ASCII ones. (CPython also refuses a literal of more
    than 4300 digits, unless that limit is lifted; the model has no
    limit.) *)
Definition int_literal (tok : string) : option Z :=
  match tok with
  | String c s =>
      if Ascii.eqb c "-"%char then Z.opp <$> nat_literal s
      else if Ascii.eqb c "+"%char then nat_literal s
      else nat_literal tok
  | EmptyString => None
  end.

Definition py_int (tok : string) : result Z :=
  match int_literal tok with
  | Some k => Ok k
  | None => Raise (BuiltinValueError "int" tok)
  end.

(** ** Python floats

    The arithmetic of [float] is an interface: the operations the two
    programs use. [binary64] below is the instance the examples run on. *)
Class PyFloat (F : Type) := {
  (** [float(k)] for an int, also where an int meets a float operand.
      (Python raises [OverflowError] on an int beyond the largest float,
      2 ** 1024 and more; the interface has no such bound.) *)
  F_of_Z : Z → F;
  (** [float(tok)] for a token, [None] where it raises [ValueError] *)
  F_literal : string → option F;
  (** the literals [0.0], [0.5], [2.0] and [3.0] *)
  F_zero : F;
  F_half : F;
  F_two : F;
  F_three : F;
  F_add : F → F → F;
  F_mul : F → F → F;
  (** [a / b] for two ints, [b] not zero *)
  F_truediv : Z → Z → F;
  (** [x ** 0.5] *)
  F_sqrt : F → F;
  (** [x < y] and [x == y] *)
  F_ltb : F → F → bool;
  F_eqb : F → F → bool;
  (** [round(x)], an int. (Python raises on an infinity and on a NaN;
      the generator rounds products of a small int and a finite draw.) *)
  F_round : F → Z
}.

Definition py_float `{PyFloat F} (tok : string) : result F :=
  match F_literal tok with
  | Some x => Ok x
  | None => Raise (BuiltinValueError "float" tok)
  end.

(** [min(x, y)] on floats: the first argument unless the second is smaller. *)
Definition F_min `{PyFloat F} (x y : F) : F := if F_ltb y x then y else x.

(** ** max_sc_qbf.py: [parse_instance] *)

Definition msg_empty : string := "Arquivo vazio ou n ausente.".
Definition msg_sizes : string := "Linha de tamanhos s_i incompleta.".
Definition msg_cover (i : nat) : string :=
  "Lista de cobertura de S" +:+ py_str (Z.of_nat i + 1) +:+ " incompleta.".
Definition msg_elem (k n : Z) : string :=
  "Elemento " +:+ py_str k +:+ " fora do universo 1.." +:+ py_str n +:+ ".".
Definition msg_matrix : string := "Matriz A (triangular superior) incompleta.".

(** [seq[i]] at a position that is not negative. *)
Definition index {X} (l : list X) (i : nat) : result X :=
  match l !! i with
  | Some x => Ok x
  | None => Raise IndexError
  end.

(** The generator [token_stream(lines)], as the list of what it yields. *)
Definition token_stream (lines : list string) : list string :=
  flat_map (λ line, let line := strip line in
                    if decide (line = "") then [] else split line) lines.

(** [conv(next(toks))] under [try: ... except StopIteration: raise on_stop]:
    an exhausted iterator raises [on_stop], and what [conv] raises is not
    caught. *)
Definition next_as {X} (conv : string → result X) (on_stop : exn)
    : Py (list string) X :=
  λ toks, match toks with
          | [] => Raise on_stop
          | tok :: rest => py_lift (conv tok) rest
          end.

Section Parser.
Context {F : Type} `{!PyFloat F}.

(** The loop that reads the sizes [s]. *)
Definition read_sizes (n : Z) : Py (list string) (list Z) :=
  repeatM (Z.to_nat n) (next_as py_int (ValueError msg_sizes)).

(** The inner loop of the covering sets: [need] elements of [subsets[i]]. *)
Definition read_subset (n : Z) (i : nat) (need : Z) : Py (list string) (gset Z) :=
  foldM (λ (sub : gset Z) (_ : nat),
           next_as py_int (ValueError (msg_cover i)) ≫= λ k : Z,
           if decide (1 ≤ k ≤ n) then mret (sub ∪ {[k - 1]})
           else py_raise (ValueError (msg_elem k n)))
        ∅ (seq 0 (Z.to_nat need)).

Definition read_subsets (n : Z) (s : list Z) : Py (list string) (list (gset Z)) :=
  forM (λ i, need ← py_lift (index s i); read_subset n i need)
       (seq 0 (Z.to_nat n)).

(** The loop that reads [needed] coefficients. *)
Definition read_coeffs (needed : Z) : Py (list string) (list F) :=
  repeatM (Z.to_nat needed) (next_as py_float (ValueError msg_matrix)).

(** The dictionary [A]: the double loop over [i <= j] with the running
    position [idx] in [coeffs]; a coefficient equal to [0.0] is skipped. *)
Definition build_A (n : Z) (coeffs : list F) : result (gmap (nat * nat) F) :=
  st ← foldR (λ st i,
                foldR (λ '(idx, A) j,
                         aij ← index coeffs idx;
                         Ok (S idx, if F_eqb aij F_zero then A
                                    else <[(i, j) := aij]> A))
                      st (seq i (Z.to_nat n - i)))
             (0%nat, ∅) (seq 0 (Z.to_nat n));
  Ok st.2.

(** [parse_instance] from the token iterator on. *)
Definition parse_steps : Py (list string) (Z * list (gset Z) * gmap (nat * nat) F) :=
  n ← next_as py_int (ValueError msg_empty);
  s ← read_sizes n;
  subsets ← read_subsets n s;
  coeffs ← read_coeffs ((n * (n + 1)) `div` 2);
  A ← py_lift (build_A n coeffs);
  mret (n, subsets, A).

Definition parse_tokens (toks : list string)
    : result (Z * list (gset Z) * gmap (nat * nat) F) :=
  match parse_steps toks with
  | Ok (r, _) => Ok r
  | Raise e => Raise e
  end.

(** [parse_instance(path)], given the text of the file at [path]. *)
Definition parse_instance (text : string)
    : result (Z * list (gset Z) * gmap (nat * nat) F) :=
  parse_tokens (token_stream (readlines text)).
End Parser.

(** ** max_sc_qbf.py: the model [build_and_solve] hands to the solver *)

Inductive var :=
  | X (i : nat)
  | Y (i j : nat).

#[global] Instance var_eq_dec : EqDecision var.
Proof. solve_decision. Defined.

Inductive vtype := BINARY | CONTINUOUS.

Record var_decl := VarDecl {
  v_var : var;
  v_lb : Q;
  v_ub : Q;
  v_type : vtype
}.

(** Linear expressions, as the operators of the source build them. *)
Inductive linexpr :=
  | LVar (v : var)
  | LConst (c : Q)
  | LAdd (a b : linexpr)
  | LSub (a b : linexpr).

(** [quicksum(vs)] *)
Definition quicksum (vs : list var) : linexpr :=
  foldl (λ e v, LAdd e (LVar v)) (LConst 0) vs.

Inductive sense := LE | GE | EQ.

(** The [name=] of a constraint: [cover[k]], [diag[i]], [mc1[i,j]], ... *)
Inductive cname :=
  | cover (k : nat)
  | diag (i : nat)
  | mc1 (i j : nat)
  | mc2 (i j : nat)
  | mc3 (i j : nat).

Record constr := Constr {
  c_name : cname;
  c_lhs : linexpr;
  c_sense : sense;
  c_rhs : linexpr
}.

Record Model (F : Type) := MkModel {
  m_vars : list var_decl;
  m_constrs : list constr;
  (** the terms [aij * y[(i, j)]] of the objective, to be maximised *)
  m_objective : list (F * var)
}.
Arguments MkModel {F}.
Arguments m_vars {F}.
Arguments m_constrs {F}.
Arguments m_objective {F}.

(** [x[i]] in the tupledict of [m.addVars(n)]. *)
Definition x_var (n : Z) (i : nat) : result var :=
  if decide (Z.of_nat i < n) then Ok (X i) else Raise KeyError.

Section Builder.
Context {F : Type}.

(** [coverers = [i for i in range(n) if k in subsets[i]]] *)
Definition coverers (n : Z) (subsets : list (gset Z)) (k : nat) : result (list nat) :=
  foldR (λ acc i, s ← index subsets i;
                  Ok (if decide (Z.of_nat k ∈ s) then acc ++ [i] else acc))
        [] (seq 0 (Z.to_nat n)).

Definition cover_constrs (n : Z) (subsets : list (gset Z)) : result (list constr) :=
  forR (λ k, cs ← coverers n subsets k;
             xs ← forR (x_var n) cs;
             Ok (Constr (cover k) (quicksum xs) GE (LConst 1)))
       (seq 0 (Z.to_nat n)).

(** The linearisation constraints of one key [(i, j)] of [y]. *)
Definition lin_constrs (n : Z) (ij : nat * nat) : result (list constr) :=
  let '(i, j) := ij in
  if decide (i = j) then
    xi ← x_var n i;
    Ok [Constr (diag i) (LVar (Y i i)) EQ (LVar xi)]
  else
    xi ← x_var n i;
    xj ← x_var n j;
    Ok [Constr (mc1 i j) (LVar (Y i j)) LE (LVar xi);
        Constr (mc2 i j) (LVar (Y i j)) LE (LVar xj);
        Constr (mc3 i j) (LVar (Y i j)) GE (LSub (LAdd (LVar xi) (LVar xj)) (LConst 1))].

(** The model of [build_and_solve], up to [m.optimize()]: the variables,
    the constraints and the objective handed to the solver. The keys of [A]
    are visited in the order of [map_to_list]; Python visits them in the
    order of insertion. The parameters of the solver (time limit, gap,
    log) are no part of the model. *)
Definition build_model (n : Z) (subsets : list (gset Z)) (A : gmap (nat * nat) F)
    : result (Model F) :=
  let xs := (λ i, VarDecl (X i) 0 1 BINARY) <$> seq 0 (Z.to_nat n) in
  let keys := (map_to_list A).*1 in
  let ys := (λ '(i, j), VarDecl (Y i j) 0 1 CONTINUOUS) <$> keys in
  cov ← cover_constrs n subsets;
  lin ← forR (lin_constrs n) keys;
  Ok (MkModel (xs ++ ys) (cov ++ concat lin)
              ((λ '((i, j), aij), (aij, Y i j)) <$> map_to_list A)).
End Builder.

(** What a solver means by the model: values of the variables and the
    constraints they satisfy. *)
Fixpoint eval (σ : var → Q) (e : linexpr) : Q :=
  match e with
  | LVar v => σ v
  | LConst c => c
  | LAdd a b => eval σ a + eval σ b
  | LSub a b => eval σ a - eval σ b
  end.

Definition holds (σ : var → Q) (c : constr) : Prop :=
  match c_sense c with
  | LE => (eval σ (c_lhs c) <= eval σ (c_rhs c))%Q
  | GE => (eval σ (c_rhs c) <= eval σ (c_lhs c))%Q
  | EQ => (eval σ (c_lhs c) == eval σ (c_rhs c))%Q
  end.

Definition binary (q : Q) : Prop := (q == 0 ∨ q == 1)%Q.

Definition in_domain (σ : var → Q) (d : var_decl) : Prop :=
  (v_lb d <= σ (v_var d))%Q ∧ (σ (v_var d) <= v_ub d)%Q ∧
  match v_type d with
  | BINARY => binary (σ (v_var d))
  | CONTINUOUS => True
  end.

Fixpoint mentions (v : var) (e : linexpr) : bool :=
  match e with
  | LVar w => bool_decide (v = w)
  | LConst _ => false
  | LAdd a b | LSub a b => mentions v a || mentions v b
  end.

Definition constr_mentions (v : var) (c : constr) : bool :=
  mentions v (c_lhs c) || mentions v (c_rhs c).

(** ** max_sc_qbf.py: the dictionary [build_and_solve] returns *)

Module build_and_solve.

(** What the source reads from the model after [m.optimize()]: the
    attributes [Status], [Runtime], [ObjBound], [MIPGap], [SolCount] and
    [ObjVal], and [x[i].X] as [x_X i]. [ObjBound] and [MIPGap] are read under
    [try ... except Exception: pass]: [None] is an attribute that raises. *)
Record outcome (F : Type) := Outcome {
  Status : Z;
  Runtime : F;
  ObjBound : option F;
  MIPGap : option F;
  SolCount : Z;
  ObjVal : F;
  x_X : nat → F
}.
Arguments Outcome {F}.
Arguments Status {F}.
Arguments Runtime {F}.
Arguments ObjBound {F}.
Arguments MIPGap {F}.
Arguments SolCount {F}.
Arguments ObjVal {F}.
Arguments x_X {F}.

(** The dictionary [result], a field per key; [None] is Python's [None]. *)
Record dict (F : Type) := Dict {
  status : Z;
  runtime : F;
  obj_val : option F;
  best_bound : option F;
  mip_gap : option F;
  x : option (list Z);
  selected_sets : option (list nat);
  n_selected : option Z
}.
Arguments Dict {F}.
Arguments status {F}.
Arguments runtime {F}.
Arguments obj_val {F}.
Arguments best_bound {F}.
Arguments mip_gap {F}.
Arguments x {F}.
Arguments selected_sets {F}.
Arguments n_selected {F}.

(** [sum(xv)] *)
Definition sum (xv : list Z) : Z := foldl Z.add 0 xv.

(** [xv = [int(round(x[i].X)) for i in range(n)]] *)
Definition rounded `{!PyFloat F} (n : Z) (m : outcome F) : list Z :=
  (λ i, F_round (x_X m i)) <$> seq 0 (Z.to_nat n).

Definition result `{!PyFloat F} (n : Z) (m : outcome F) : dict F :=
  if decide (0 < SolCount m) then
    let xv := rounded n m in
    Dict (Status m) (Runtime m) (Some (ObjVal m)) (ObjBound m) (MIPGap m)
         (Some xv)
         (Some (filter (λ i, xv !!! i = 1) (seq 0 (Z.to_nat n))))
         (Some (sum xv))
  else
    Dict (Status m) (Runtime m) None (ObjBound m) (MIPGap m) None None None.

End build_and_solve.

(** ** gen_instances.py *)

(** The methods of [random.Random] the generator calls, each returning its
    value and the next state of the source. [Random seed] is
    [random.Random(seed)]. *)
Class RandomSource (F R : Type) := {
  Random : Z → R;
  rng_random : R → F * R;
  rng_randint : Z → Z → R → Z * R;
  rng_randrange : Z → Z → R → Z * R;
  rng_paretovariate : F → R → F * R;
  rng_sample : list Z → nat → R → list Z * R
}.

(** The order in which [for k in s] and [sorted(s)] meet the elements of a
    set: Python leaves it to the implementation. *)
Class SetIteration := set_iter : gset Z → list Z.

(** [covered[k]] on a list of length [len]: a negative [k] counts from the
    end, and a position outside the list raises [IndexError]. *)
Definition py_index (len : nat) (k : Z) : result nat :=
  if decide (0 ≤ k < Z.of_nat len) then Ok (Z.to_nat k)
  else if decide (- Z.of_nat len ≤ k < 0) then Ok (Z.to_nat (Z.of_nat len + k))
  else Raise IndexError.

(** [min(xs, key=key)]: the first element whose key is the smallest. *)
Fixpoint min_from {X} (key : X → nat) (best : X) (xs : list X) : X :=
  match xs with
  | [] => best
  | x :: xs' => min_from key (if (key x <? key best)%nat then x else best) xs'
  end.

Definition py_min {X} (key : X → nat) (xs : list X) : result X :=
  match xs with
  | [] => Raise (BuiltinValueError "min" "")
  | x :: xs' => Ok (min_from key x xs')
  end.

(** The message of [build_sets] on an unknown pattern; its fifth letter is
    the a with tilde, code point 227. *)
Definition msg_pattern (pattern : string) : string :=
  "Padr" +:+ String "227"%char "o desconhecido: " +:+ pattern.

(** [file_name(n, pattern, seed)] *)
Definition file_name (n : Z) (pattern : string) (seed : Z) : string :=
  "maxscqbf_n" +:+ py_str n +:+ "_" +:+ pattern +:+ "_seed" +:+ py_str seed
  +:+ ".txt".

Fixpoint endswith_slash (s : string) : bool :=
  match s with
  | EmptyString => false
  | String c EmptyString => Ascii.eqb c "/"%char
  | String _ s' => endswith_slash s'
  end.

(** [os.path.join(a, b)] on POSIX paths: [b] alone when it starts at the
    root, and otherwise [a] and [b] with one separator between them unless
    [a] is empty or ends with one. *)
Definition path_join (a b : string) : string :=
  match b with
  | String "/"%char _ => b
  | _ => if decide (a = "") then b
         else if endswith_slash a then a +:+ b
         else a +:+ "/" +:+ b
  end.

(** [sorted(s)] *)
Definition sorted `{!SetIteration} (s : gset Z) : list Z :=
  merge_sort Z.le (set_iter s).

Section Generator.
Context {F R : Type} `{!PyFloat F} `{!RandomSource F R} `{!SetIteration}.

Definition random : Py R F := λ r, Ok (rng_random r).

(** [rng.randint(a, b)] raises [ValueError] on an empty range. *)
Definition randint (a b : Z) : Py R Z :=
  if decide (a ≤ b) then λ r, Ok (rng_randint a b r)
  else py_raise (BuiltinValueError "randint" "").
Definition paretovariate (alpha : F) : Py R F := λ r, Ok (rng_paretovariate alpha r).

(** [rng.randrange(a, b)] raises [ValueError] on an empty range. *)
Definition randrange (a b : Z) : Py R Z :=
  if decide (a < b) then λ r, Ok (rng_randrange a b r)
  else py_raise (BuiltinValueError "randrange" "").

(** [rng.sample(population, k)] raises [ValueError] when [k] is negative
    or larger than the population. *)
Definition sample (population : list Z) (k : Z) : Py R (list Z) :=
  if decide (0 ≤ k ≤ Z.of_nat (length population))
  then λ r, Ok (rng_sample population (Z.to_nat k) r)
  else py_raise (BuiltinValueError "sample" "").

(** [n ** 0.5] is a complex number for a negative [n], and [round] raises
    [TypeError] on it. *)
Definition _avg_size (n : Z) : result Z :=
  if decide (n < 0) then Raise TypeError
  else Ok (Z.max 2 (F_round (F_sqrt (F_of_Z n)))).

Definition pattern_uniform (n : Z) : Py R (list (gset Z)) :=
  avg ← py_lift (_avg_size n);
  p ← (if decide (n = 0) then py_raise ZeroDivisionError
       else mret (F_truediv avg n));
  repeatM (Z.to_nat n)
    (foldM (λ (s : gset Z) (k : Z),
              r ← random; mret (if F_ltb r p then s ∪ {[k]} else s))
           ∅ (seqZ 1 n)).

Definition pattern_interval (n : Z) : Py R (list (gset Z)) :=
  avg ← py_lift (_avg_size n);
  forM (λ i : Z,
          r ← random;
          let L := Z.max 1 (F_round (F_mul (F_of_Z avg) (F_add F_half r))) in
          let elems := (λ t, (i - 1 + t) `mod` n + 1) <$> seqZ 0 L in
          mret (list_to_set elems : gset Z))
       (seqZ 1 n).

Definition pattern_pareto (n : Z) : Py R (list (gset Z)) :=
  avg ← py_lift (_avg_size n);
  repeatM (Z.to_nat n)
    (val ← paretovariate F_two;
     let size := Z.max 1 (Z.min (3 * avg)
                   (F_round (F_mul (F_of_Z avg) (F_min val F_three)))) in
     if decide (n ≤ size) then mret (list_to_set (seqZ 1 n) : gset Z)
     else ks ← sample (seqZ 1 n) size; mret (list_to_set ks : gset Z)).

(** [covered[k] += 1] *)
Definition count_elem (covered : list nat) (k : Z) : result (list nat) :=
  i ← py_index (length covered) k;
  Ok (alter S i covered).

(** [enforce_coverage(S, n, rng)]: the list [S] after the call (the random
    source is not used). *)
Definition enforce_coverage (sets : list (gset Z)) (n : Z) : result (list (gset Z)) :=
  covered ← foldR (λ cov s, foldR count_elem cov (set_iter s))
                  (replicate (Z.to_nat (n + 1)) 0%nat) sets;
  let missing := filter (λ k, covered !!! Z.to_nat k = 0%nat) (seqZ 1 n) in
  foldR (λ (sets : list (gset Z)) k,
           idx ← py_min (λ i, size (sets !!! i)) (seq 0 (length sets));
           Ok (alter (λ s, s ∪ {[k]}) idx sets))
        sets missing.

(** [nonempty_fix(S, n, rng)]: the list [S] after the call. *)
Definition nonempty_fix (sets : list (gset Z)) (n : Z) : Py R (list (gset Z)) :=
  forM (λ s : gset Z,
          if decide (s = ∅) then k ← randrange 1 (n + 1); mret (s ∪ {[k]})
          else mret s)
       sets.

(** [a = rng.randint(lo, hi)], and [1 if rng.random() < 0.5 else -1] in
    place of a zero. *)
Definition draw_nonzero (range : Z * Z) : Py R Z :=
  a ← randint range.1 range.2;
  if decide (a = 0) then r ← random; mret (if F_ltb r F_half then 1 else -1)
  else mret a.

Definition gen_A_triangular (n : Z) (density : F) (diag_range off_range : Z * Z)
    : Py R (list (list Z)) :=
  forM (λ i : nat,
          aii ← draw_nonzero diag_range;
          rest ← repeatM (Z.to_nat n - (i + 1))%nat
                   (r ← random;
                    if F_ltb r density then draw_nonzero off_range else mret 0);
          mret (aii :: rest))
       (seq 0 (Z.to_nat n)).

(** [write_instance(path, n, S, A_rows)]: the text written to [path]. *)
Definition write_instance (n : Z) (sets : list (gset Z)) (A_rows : list (list Z))
    : result string :=
  rows ← forR (λ i, row ← index A_rows i;
                    Ok (join " " (py_str <$> row) +:+ nl))
              (seq 0 (Z.to_nat n));
  Ok (py_str n +:+ nl
      +:+ join " " ((λ s, py_str (Z.of_nat (size s))) <$> sets) +:+ nl
      +:+ String.concat "" ((λ s, join " " (py_str <$> sorted s) +:+ nl) <$> sets)
      +:+ String.concat "" rows).

Definition build_sets (n : Z) (pattern : string) : Py R (list (gset Z)) :=
  sets ← (if decide (pattern = "uniform") then pattern_uniform n
          else if decide (pattern = "interval") then pattern_interval n
          else if decide (pattern = "pareto") then pattern_pareto n
          else py_raise (ValueError (msg_pattern pattern)));
  sets ← py_lift (enforce_coverage sets n);
  nonempty_fix sets n.

(** [main], single-instance mode with a given [--seed]: the covering
    sets, the matrix and the text of the file written. (Without [--seed]
    the source derives one from [hash(pattern)], which Python randomises
    per process.) *)
Definition main (n : Z) (pattern : string) (seed : Z) (rho : F)
    : result (list (gset Z) * list (list Z) * string) :=
  match (sets ← build_sets n pattern;
         A_rows ← gen_A_triangular n rho (-10, 10) (-5, 5);
         text ← py_lift (write_instance n sets A_rows);
         mret (sets, A_rows, text)) (Random seed) with
  | Ok (out, _) => Ok out
  | Raise e => Raise e
  end.

(** The sizes and the patterns of [--all], each pattern with its position
    [pi] of [enumerate(patterns)]. *)
Definition Ns : list Z := [25; 50; 100; 200; 400].
Definition patterns : list (Z * string) :=
  [(0, "uniform"); (1, "interval"); (2, "pareto")].

(** One turn of the loops of [--all]: the instance of [n] and [pat] is
    generated as [main] generates one, from a source of its own seeded
    with [base_seed + 1000 * pi + n], and written to its file in [outdir].
    The state is the file system, the text of each file by its path. *)
Definition generate_one (outdir : string) (base_seed : Z) (rho : F) (n : Z)
    (pi : Z) (pat : string) : Py (gmap string string) string :=
  let seed := base_seed + 1000 * pi + n in
  py_bind (λ '(sets, A_rows, text),
             let path := path_join outdir (file_name n pat seed) in
             λ fs, Ok (path, <[path := text]> fs))
          (py_lift (main n pat seed rho)).

(** [main] with [--all]: the list [generated] of the paths written.
    ([os.makedirs] and the printing are left out.) *)
Definition main_all (outdir : string) (seed : option Z) (rho : F)
    : Py (gmap string string) (list string) :=
  let base_seed := default 20250819 seed in
  per_n ← forM (λ n, forM (λ '(pi, pat), generate_one outdir base_seed rho n pi pat)
                          patterns)
               Ns;
  mret (concat per_n).
End Generator.

(** The documented contract of the random source that the proofs rely on:
    [sample] draws from its population, and [randrange(a, b)] and
    [randint(a, b)] stay in their ranges. *)
Class RandomSourceLaws (F R : Type) `{!RandomSource F R} : Prop := {
  sample_in_population : ∀ pop k r x, x ∈ (rng_sample pop k r).1 → x ∈ pop;
  randrange_in_range : ∀ a b r, a < b → a ≤ (rng_randrange a b r).1 < b;
  randint_in_range : ∀ a b r, a ≤ b → a ≤ (rng_randint a b r).1 ≤ b
}.

(** More of the contract of [sample]: [k] elements of the population, at
    different positions, so different when the population has no element
    twice. *)
Class SampleLaws (F R : Type) `{!RandomSource F R} : Prop := {
  sample_length : ∀ pop k r, (k ≤ length pop)%nat → length (rng_sample pop k r).1 = k;
  sample_NoDup : ∀ pop k r, NoDup pop → NoDup (rng_sample pop k r).1
}.

(** Iterating over a set meets each of its elements once. *)
Class SetIterationLaw `{!SetIteration} : Prop :=
  set_iter_perm : ∀ s : gset Z, set_iter s ≡ₚ elements s.

(** ** Instances to run the definitions on *)

(** *** IEEE 754 binary64, on Stdlib's [spec_float] *)
Module binary64.
Definition prec : Z := 53.
Definition emax : Z := 1024.

Definition of_Z (k : Z) : spec_float := binary_normalize prec emax k 0 false.

(** The digits of a [digitpart]: [digit (["_"] digit)*], and the rest of
    the text. [digits_tl] reads what follows a digit. *)
Fixpoint digits_tl (s : string) : list Z * string :=
  match s with
  | String c s' =>
      match digit_val c with
      | Some d => let '(ds, rest) := digits_tl s' in (d :: ds, rest)
      | None =>
          if Ascii.eqb c "_"%char then
            match s' with
            | String c' s'' =>
                match digit_val c' with
                | Some d => let '(ds, rest) := digits_tl s'' in (d :: ds, rest)
                | None => ([], s)
                end
            | EmptyString => ([], s)
            end
          else ([], s)
      end
  | EmptyString => ([], s)
  end.

Definition digitpart (s : string) : option (list Z * string) :=
  match s with
  | String c s' =>
      match digit_val c with
      | Some d => let '(ds, rest) := digits_tl s' in Some (d :: ds, rest)
      | None => None
      end
  | EmptyString => None
  end.

Definition digits_value (ds : list Z) : Z := foldl (λ acc d, 10 * acc + d) 0 ds.

(** [number]: [[digitpart] "." digitpart | digitpart ["."]], as the digits
    and the number of them after the point. *)
Definition number (s : string) : option (list Z * Z * string) :=
  match digitpart s with
  | Some (ip, String "."%char rest) =>
      match digitpart rest with
      | Some (fp, rest') => Some (ip ++ fp, Z.of_nat (length fp), rest')
      | None => Some (ip, 0, rest)
      end
  | Some (ip, rest) => Some (ip, 0, rest)
  | None =>
      match s with
      | String "."%char rest =>
          match digitpart rest with
          | Some (fp, rest') => Some (fp, Z.of_nat (length fp), rest')
          | None => None
          end
      | _ => None
      end
  end.

(** [exponent]: [("e" | "E") [sign] digitpart], up to the end of the text. *)
Definition exponent (s : string) : option Z :=
  match s with
  | EmptyString => Some 0
  | String c s' =>
      if Ascii.eqb c "e"%char || Ascii.eqb c "E"%char then
        let '(neg, s'') :=
          match s' with
          | String "-"%char t => (true, t)
          | String "+"%char t => (false, t)
          | _ => (false, s')
          end in
        match digitpart s'' with
        | Some (ds, EmptyString) =>
            Some (if neg then - digits_value ds else digits_value ds)
        | _ => None
        end
      else None
  end.

(** The binary64 of sign [neg] nearest to [m / d], ties to even, for
    positive [m] and [d]. *)
Definition ratio (neg : bool) (m d : Z) : spec_float :=
  let s := Z.max 0 (Z.log2 d + 56 - Z.log2 m) in
  let q := (m * 2 ^ s) `div` d in
  let r := (m * 2 ^ s) `mod` d in
  let loc := if decide (r = 0) then loc_Exact else loc_Inexact (2 * r ?= d) in
  binary_round_aux prec emax neg q (- s) loc.

(** The binary64 nearest to [m * 10 ^ e], ties to even. *)
Definition of_decimal (neg : bool) (m e : Z) : spec_float :=
  if decide (m = 0) then S754_zero neg
  else if decide (0 ≤ e) then
    binary_normalize prec emax (if neg then - (m * 10 ^ e) else m * 10 ^ e) 0 false
  else ratio neg m (10 ^ (- e)).

(** [a / b] on two ints: the binary64 nearest to the quotient. *)
Definition truediv (a b : Z) : spec_float :=
  let neg := xorb (a <? 0) (b <? 0) in
  if decide (a = 0) then S754_zero neg else ratio neg (Z.abs a) (Z.abs b).

Definition lower (c : ascii) : ascii :=
  let k := N_of_ascii c in
  if ((65 <=? k)%N && (k <=? 90)%N) then ascii_of_N (k + 32) else c.

Fixpoint lowercase (s : string) : string :=
  match s with
  | EmptyString => EmptyString
  | String c s' => String (lower c) (lowercase s')
  end.

(** [float(tok)] for a token: an optional sign, then [inf], [infinity] or
    [nan] in any case of the letters, or a decimal number with an optional
    exponent. *)
Definition literal (tok : string) : option spec_float :=
  let '(neg, body) :=
    match tok with
    | String "-"%char t => (true, t)
    | String "+"%char t => (false, t)
    | _ => (false, tok)
    end in
  let low := lowercase body in
  if decide (low = "inf" ∨ low = "infinity") then Some (S754_infinity neg)
  else if decide (low = "nan") then Some S754_nan
  else
    match number body with
    | Some (ds, nfrac, rest) =>
        match exponent rest with
        | Some ex => Some (of_decimal neg (digits_value ds) (ex - nfrac))
        | None => None
        end
    | None => None
    end.

(** [round(x)]: the nearest int, ties to even. Python raises on an
    infinity or a NaN, which no call of the generator passes. *)
Definition round (x : spec_float) : Z :=
  match x with
  | S754_finite s m e =>
      let a :=
        if decide (0 ≤ e) then Z.pos m * 2 ^ e
        else
          let d := 2 ^ (- e) in
          let q := Z.pos m `div` d in
          let r := Z.pos m `mod` d in
          match 2 * r ?= d with
          | Lt => q
          | Gt => q + 1
          | Eq => if Z.even q then q else q + 1
          end in
      if s then - a else a
  | _ => 0
  end.

#[global] Instance float : PyFloat spec_float := {|
  F_of_Z := of_Z;
  F_literal := literal;
  F_zero := S754_zero false;
  F_half := binary_normalize prec emax 1 (-1) false;
  F_two := of_Z 2;
  F_three := of_Z 3;
  F_add := SFadd prec emax;
  F_mul := SFmul prec emax;
  F_truediv := truediv;
  F_sqrt := SFsqrt prec emax;
  F_ltb := SFltb;
  F_eqb := SFeqb;
  F_round := round
|}.
End binary64.

(** *** A linear congruential random source *)
Module lcg.
Definition step (r : Z) : Z :=
  (r * 6364136223846793005 + 1442695040888963407) `mod` 2 ^ 64.

(** A float in [0, 1) with 53 random bits. *)
Definition unit (r : Z) : spec_float :=
  binary_normalize binary64.prec binary64.emax (r `div` 2 ^ 11) (-53) false.

(** [k] draws without replacement. *)
Fixpoint draw (pop : list Z) (k : nat) (r : Z) : list Z * Z :=
  match k with
  | O => ([], r)
  | S k' =>
      let r' := step r in
      let i := Z.to_nat (r' `mod` Z.of_nat (length pop)) in
      match pop !! i with
      | Some x => let '(xs, r'') := draw (delete i pop) k' r' in (x :: xs, r'')
      | None => ([], r')
      end
  end.

#[global] Instance source : RandomSource spec_float Z := {|
  Random := λ seed, seed `mod` 2 ^ 64;
  rng_random := λ r, (unit (step r), step r);
  rng_randint := λ a b r, (a + step r `mod` (b - a + 1), step r);
  rng_randrange := λ a b r, (a + step r `mod` (b - a), step r);
  rng_paretovariate := λ alpha r,
    (let one := binary64.of_Z 1 in
     SFdiv binary64.prec binary64.emax one
       (SFsqrt binary64.prec binary64.emax
          (SFsub binary64.prec binary64.emax one (unit (step r)))),
     step r);
  rng_sample := draw
|}.

#[global] Instance order : SetIteration := elements.
End lcg.

(** * Vocabulary of the statements *)

(** ** The parser *)

(** What the loop of a covering set does with one token: [int(tok)] and the
    range check. *)
Definition conv_elem (n : Z) (tok : string) : result Z :=
  result_bind (λ k, if decide (1 ≤ k ≤ n) then Ok k
                    else Raise (ValueError (msg_elem k n)))
              (py_int tok).

(** The set the parser stores for the elements [ks] of a file: 0-based. *)
Definition internal_set (ks : list Z) : gset Z := list_to_set ((λ k, k - 1) <$> ks).

(** The tokens [chunk] of one covering set spell the elements [ks], each in
    [1..n]. *)
Definition set_tokens (n : Z) (chunk : list string) (ks : list Z) : Prop :=
  Forall2 (λ tok k, int_literal tok = Some k ∧ 1 ≤ k ≤ n) chunk ks.

(** The keys of [A] in the order the double loop visits them: row by row
    over the upper triangle. *)
Definition upper_pairs (N : nat) : list (nat * nat) :=
  flat_map (λ i, pair i <$> seq i (N - i)) (seq 0 N).

Section CoefficientStore.
Context {F : Type} `{!PyFloat F}.

(** One turn of the inner loop. *)
Definition store (coeffs : list F) (st : nat * gmap (nat * nat) F) (p : nat * nat)
    : result (nat * gmap (nat * nat) F) :=
  let '(idx, A) := st in
  aij ← index coeffs idx;
  Ok (S idx, if F_eqb aij F_zero then A else <[p := aij]> A).

Definition keep (A : gmap (nat * nat) F) (pa : nat * nat * F) : gmap (nat * nat) F :=
  if F_eqb pa.2 F_zero then A else <[pa.1 := pa.2]> A.

End CoefficientStore.

Definition int_tokens (toks : list string) (ks : list Z) : Prop :=
  Forall2 (λ tok k, int_literal tok = Some k) toks ks.

Definition float_tokens `{PyFloat F} (toks : list string) (xs : list F) : Prop :=
  Forall2 (λ tok x, F_literal tok = Some x) toks xs.

(** A token stream laid out as the format asks: [n], then [n] sizes, then
    for each set as many elements of [1..n] as its size says, then
    [n(n+1)/2] coefficients, then whatever follows. *)
Definition instance_layout `{PyFloat F} (toks : list string) (n : Z)
    (sizes : list Z) (elems : list (list Z)) (coeffs : list F)
    (extra : list string) : Prop :=
  ∃ tok_n size_toks chunks coeff_toks,
    toks = tok_n :: size_toks ++ concat chunks ++ coeff_toks ++ extra ∧
    int_literal tok_n = Some n ∧
    int_tokens size_toks sizes ∧ length sizes = Z.to_nat n ∧
    Forall2 (set_tokens n) chunks elems ∧
    Forall2 (λ need ks, length ks = Z.to_nat need) sizes elems ∧
    float_tokens coeff_toks coeffs ∧
    length coeffs = Z.to_nat ((n * (n + 1)) `div` 2).

(** The streams on which [parse_instance] raises, with what it raises: by
    the section where the stream ends or a token is refused. The messages
    of [int] and [float] name the token. *)
Inductive parse_failure `{PyFloat F} : list string → exn → Prop :=
  | fail_empty :
      parse_failure [] (ValueError msg_empty)
  | fail_n tok rest :
      int_literal tok = None →
      parse_failure (tok :: rest) (BuiltinValueError "int" tok)
  | fail_sizes_short tok_n n size_toks sizes :
      int_literal tok_n = Some n →
      int_tokens size_toks sizes → (length size_toks < Z.to_nat n)%nat →
      parse_failure (tok_n :: size_toks) (ValueError msg_sizes)
  | fail_size tok_n n size_toks sizes bad rest :
      int_literal tok_n = Some n →
      int_tokens size_toks sizes → (length size_toks < Z.to_nat n)%nat →
      int_literal bad = None →
      parse_failure (tok_n :: size_toks ++ bad :: rest) (BuiltinValueError "int" bad)
  | fail_cover_short tok_n n size_toks sizes i need chunks elems chunk ks :
      int_literal tok_n = Some n →
      int_tokens size_toks sizes → length sizes = Z.to_nat n →
      sizes !! i = Some need →
      Forall2 (set_tokens n) chunks elems →
      Forall2 (λ need ks, length ks = Z.to_nat need) (take i sizes) elems →
      set_tokens n chunk ks → (length chunk < Z.to_nat need)%nat →
      parse_failure (tok_n :: size_toks ++ concat chunks ++ chunk)
                    (ValueError (msg_cover i))
  | fail_elem tok_n n size_toks sizes i need chunks elems chunk ks bad rest :
      int_literal tok_n = Some n →
      int_tokens size_toks sizes → length sizes = Z.to_nat n →
      sizes !! i = Some need →
      Forall2 (set_tokens n) chunks elems →
      Forall2 (λ need ks, length ks = Z.to_nat need) (take i sizes) elems →
      set_tokens n chunk ks → (length chunk < Z.to_nat need)%nat →
      int_literal bad = None →
      parse_failure (tok_n :: size_toks ++ concat chunks ++ chunk ++ bad :: rest)
                    (BuiltinValueError "int" bad)
  | fail_elem_range tok_n n size_toks sizes i need chunks elems chunk ks bad k rest :
      int_literal tok_n = Some n →
      int_tokens size_toks sizes → length sizes = Z.to_nat n →
      sizes !! i = Some need →
      Forall2 (set_tokens n) chunks elems →
      Forall2 (λ need ks, length ks = Z.to_nat need) (take i sizes) elems →
      set_tokens n chunk ks → (length chunk < Z.to_nat need)%nat →
      int_literal bad = Some k → ¬ (1 ≤ k ≤ n) →
      parse_failure (tok_n :: size_toks ++ concat chunks ++ chunk ++ bad :: rest)
                    (ValueError (msg_elem k n))
  | fail_matrix_short tok_n n size_toks sizes chunks elems coeff_toks coeffs :
      int_literal tok_n = Some n →
      int_tokens size_toks sizes → length sizes = Z.to_nat n →
      Forall2 (set_tokens n) chunks elems →
      Forall2 (λ need ks, length ks = Z.to_nat need) sizes elems →
      float_tokens coeff_toks coeffs →
      (length coeff_toks < Z.to_nat ((n * (n + 1)) `div` 2))%nat →
      parse_failure (tok_n :: size_toks ++ concat chunks ++ coeff_toks)
                    (ValueError msg_matrix)
  | fail_coeff tok_n n size_toks sizes chunks elems coeff_toks coeffs bad rest :
      int_literal tok_n = Some n →
      int_tokens size_toks sizes → length sizes = Z.to_nat n →
      Forall2 (set_tokens n) chunks elems →
      Forall2 (λ need ks, length ks = Z.to_nat need) sizes elems →
      float_tokens coeff_toks coeffs →
      (length coeff_toks < Z.to_nat ((n * (n + 1)) `div` 2))%nat →
      F_literal bad = None →
      parse_failure (tok_n :: size_toks ++ concat chunks ++ coeff_toks ++ bad :: rest)
                    (BuiltinValueError "float" bad).

(** The errors whose message names a section of the file. *)
Definition section_error (e : exn) : Prop :=
  e = ValueError msg_empty ∨ e = ValueError msg_sizes ∨
  (∃ i, e = ValueError (msg_cover i)) ∨ (∃ k n, e = ValueError (msg_elem k n)) ∨
  e = ValueError msg_matrix.

(** [float(str(v))] reads the coefficient [v] back, and as [0.0] only for
    [v = 0]. *)
Definition float_reads `{PyFloat F} (v : Z) : Prop :=
  F_literal (py_str v) = Some (F_of_Z v) ∧ (F_eqb (F_of_Z v) F_zero = true ↔ v = 0).

(** ** Text *)

(** A token: a text with a character and no blank. *)
Fixpoint no_space (s : string) : bool :=
  match s with
  | EmptyString => true
  | String c s' => negb (is_space c) && no_space s'
  end.

Definition word (w : string) : Prop := w ≠ "" ∧ no_space w = true.

Fixpoint digits_only (s : string) : bool :=
  match s with
  | EmptyString => true
  | String c s' => bool_decide (is_Some (digit_val c)) && digits_only s'
  end.

(** The number a run of digits spells after the digits of [acc]. *)
Fixpoint dec_value (acc : Z) (s : string) : Z :=
  match s with
  | EmptyString => acc
  | String c s' =>
      match digit_val c with
      | Some d => dec_value (10 * acc + d) s'
      | None => acc
      end
  end.

(** The character [c] does not occur in [s]. *)
Fixpoint char_free (c : ascii) (s : string) : bool :=
  match s with
  | EmptyString => true
  | String x s' => negb (Ascii.eqb x c) && char_free c s'
  end.

Section WrittenText.
Context `{!SetIteration}.

(** The text [write_instance] writes. *)
Definition instance_text (n : Z) (sets : list (gset Z)) (A_rows : list (list Z))
    : string :=
  py_str n +:+ nl
  +:+ join " " ((λ s, py_str (Z.of_nat (size s))) <$> sets) +:+ nl
  +:+ String.concat "" ((λ s, join " " (py_str <$> sorted s) +:+ nl) <$> sets)
  +:+ String.concat "" ((λ row, join " " (py_str <$> row) +:+ nl) <$> A_rows).

End WrittenText.

(** ** The model *)

Definition sumQ (σ : var → Q) (vs : list var) : Q :=
  foldr (λ v acc, σ v + acc)%Q 0%Q vs.

(** The constraints [build_and_solve] adds for the key [(i, j)]. *)
Definition linearization (ij : nat * nat) : list constr :=
  let '(i, j) := ij in
  if decide (i = j) then [Constr (diag i) (LVar (Y i i)) EQ (LVar (X i))]
  else [Constr (mc1 i j) (LVar (Y i j)) LE (LVar (X i));
        Constr (mc2 i j) (LVar (Y i j)) LE (LVar (X j));
        Constr (mc3 i j) (LVar (Y i j)) GE
               (LSub (LAdd (LVar (X i)) (LVar (X j))) (LConst 1))].

(** The cover constraint of the element with internal index [k]. *)
Definition cover_constr (n : Z) (subsets : list (gset Z)) (k : nat) : constr :=
  Constr (cover k)
         (quicksum (X <$> filter (λ i, Z.of_nat k ∈ subsets !!! i) (seq 0 (Z.to_nat n))))
         GE (LConst 1).

(** An assignment the solver may return: every variable in its domain and
    every constraint satisfied. *)
Definition feasible {F} (σ : var → Q) (m : Model F) : Prop :=
  (∀ d, d ∈ m_vars m → in_domain σ d) ∧ (∀ c, c ∈ m_constrs m → holds σ c).

(** The value of the objective at [σ], a coefficient being read through
    [val]. *)
Definition objective_value {F} (val : F → Q) (σ : var → Q) (m : Model F) : Q :=
  foldr (λ '(a, v) acc, val a * σ v + acc)%Q 0%Q (m_objective m).

(** The quadratic form: the sum of [a_ij * x_i * x_j] over the keys of [A]. *)
Definition quadratic {F} (val : F → Q) (A : gmap (nat * nat) F) (x : nat → Q) : Q :=
  foldr (λ '((i, j), a) acc, val a * (x i * x j) + acc)%Q 0%Q (map_to_list A).

(** The part of [A] off the diagonal. *)
Definition off_diagonal {F} (A : gmap (nat * nat) F) : gmap (nat * nat) F :=
  filter (λ kv, kv.1.1 ≠ kv.1.2) A.

(** ** The generator *)

(** What every pattern returns: [n] sets over [1..n]. *)
Definition sets_over (n : Z) (sets : list (gset Z)) : Prop :=
  length sets = Z.to_nat n ∧ Forall (λ s : gset Z, ∀ k, k ∈ s → 1 ≤ k ≤ n) sets.

(** The elements of [1..n] that belong to no covering set. *)
Definition uncovered (sets : list (gset Z)) (n : Z) : list Z :=
  filter (λ k, Forall (λ s : gset Z, k ∉ s) sets) (seqZ 1 n).

(** [idx] is the position of the smallest set, the lowest among equals. *)
Definition first_smallest (sets : list (gset Z)) (idx : nat) : Prop :=
  ∃ s, sets !! idx = Some s ∧
       (∀ i s', sets !! i = Some s' → (size s ≤ size s')%nat) ∧
       (∀ i s', (i < idx)%nat → sets !! i = Some s' → (size s < size s')%nat).

(** [repaired sets ks sets']: [sets'] is [sets] after each element of [ks],
    in turn, was added to the set that was the first smallest by then. *)
Inductive repaired : list (gset Z) → list Z → list (gset Z) → Prop :=
  | repaired_nil sets : repaired sets [] sets
  | repaired_cons sets k ks idx sets' :
      first_smallest sets idx →
      repaired (alter (λ s, s ∪ {[k]}) idx sets) ks sets' →
      repaired sets (k :: ks) sets'.

(** The instances of [--all]: each size with each pattern and its position. *)
Definition all_instances : list (Z * Z * string) :=
  flat_map (λ n, (λ '(pi, pat), (n, pi, pat)) <$> patterns) Ns.

(** The file of an instance of [--all]. *)
Definition instance_path (outdir : string) (base_seed : Z) (x : Z * Z * string)
    : string :=
  let '(n, pi, pat) := x in
  path_join outdir (file_name n pat (base_seed + 1000 * pi + n)).

(** ** Example data *)

(** The tokens of an instance with two items: [S_1 = {1}], [S_2 = {2}],
    [a_11 = 3], [a_12 = 0], [a_22 = -4]. *)
Definition example_tokens : list string :=
  ["2"; "1"; "1"; "1"; "2"; "3"; "0"; "-4"].

Definition example_text : string :=
  "2" +:+ nl +:+ "1 1" +:+ nl +:+ "1" +:+ nl +:+ "2" +:+ nl
  +:+ "3 0" +:+ nl +:+ "-4" +:+ nl.

Definition example_A : gmap (nat * nat) spec_float :=
  {[ (0%nat, 0%nat) := binary64.of_Z 3; (1%nat, 1%nat) := binary64.of_Z (-4) ]}.

(** What a solver may report for two items: a solution that selects both. *)
Definition example_outcome : build_and_solve.outcome spec_float :=
  build_and_solve.Outcome 2 (binary64.of_Z 0) (Some (binary64.of_Z 7)) None 1
    (binary64.of_Z 7) (λ _, binary64.of_Z 1).

(** A second iteration order: the elements from last to first. *)
Definition reversed_order : SetIteration := λ s, reverse (elements s).

(** * Proofs *)

(** ** The monads *)

Lemma result_bind_Ok {A B} (f : A → result B) m b :
  result_bind f m = Ok b ↔ ∃ a, m = Ok a ∧ f a = Ok b.
Proof.
  destruct m as [a|e]; simpl; split.
  - eauto.
  - by intros (a' & [= ->] & ?).
  - done.
  - by intros (? & ? & ?).
Qed.

Lemma result_bind_Raise {A B} (f : A → result B) m e :
  result_bind f m = Raise e ↔ m = Raise e ∨ ∃ a, m = Ok a ∧ f a = Raise e.
Proof.
  destruct m as [a|e']; simpl; split.
  - eauto.
  - intros [?|(a' & [= ->] & ?)]; done.
  - intros [= ->]; eauto.
  - intros [[= ->]|(? & ? & ?)]; done.
Qed.

Lemma py_bind_Ok {St A B} (f : A → Py St B) m s b s'' :
  py_bind f m s = Ok (b, s'') ↔ ∃ a s', m s = Ok (a, s') ∧ f a s' = Ok (b, s'').
Proof.
  unfold py_bind. destruct (m s) as [[a s']|e]; split.
  - eauto.
  - by intros (? & ? & [= -> ->] & ?).
  - done.
  - by intros (? & ? & ? & ?).
Qed.

Lemma py_bind_Raise {St A B} (f : A → Py St B) m s e :
  py_bind f m s = Raise e ↔
  m s = Raise e ∨ ∃ a s', m s = Ok (a, s') ∧ f a s' = Raise e.
Proof.
  unfold py_bind. destruct (m s) as [[a s']|e']; split.
  - eauto.
  - intros [?|(? & ? & [= -> ->] & ?)]; done.
  - intros [= ->]; eauto.
  - intros [[= ->]|(? & ? & ? & ?)]; done.
Qed.

Lemma py_lift_Ok {St A} (r : result A) (s : St) a s' :
  py_lift r s = Ok (a, s') ↔ r = Ok a ∧ s' = s.
Proof. destruct r; simpl; naive_solver. Qed.

Lemma py_lift_Raise {St A} (r : result A) (s : St) e :
  py_lift r s = Raise e ↔ r = Raise e.
Proof. destruct r; simpl; naive_solver. Qed.

Lemma forR_Ok {X B} (f : X → result B) xs ys :
  forR f xs = Ok ys ↔ Forall2 (λ x y, f x = Ok y) xs ys.
Proof.
  revert ys. induction xs as [|x xs IH]; intros ys; simpl.
  - split; [intros [= <-]; constructor | by inversion 1].
  - rewrite result_bind_Ok. split.
    + intros (b & Hb & Hrest). apply result_bind_Ok in Hrest as (bs & Hbs & [= <-]).
      constructor; [done | by apply IH].
    + inversion 1 as [|? y ? ys' Hy Hys]; subst. exists y. split; [done|].
      apply result_bind_Ok. exists ys'. by rewrite IH.
Qed.

Lemma foldR_app {A X} (body : A → X → result A) acc xs ys :
  foldR body acc (xs ++ ys) = result_bind (λ acc', foldR body acc' ys) (foldR body acc xs).
Proof.
  revert acc. induction xs as [|x xs IH]; intros acc; simpl; [done|].
  destruct (body acc x); simpl; [apply IH | done].
Qed.

(** A loop whose body cannot raise is a [foldl]. *)
Lemma foldR_pure {A X} (body : A → X → result A) (g : A → X → A) acc xs :
  (∀ a x, x ∈ xs → body a x = Ok (g a x)) →
  foldR body acc xs = Ok (foldl g acc xs).
Proof.
  revert acc. induction xs as [|x xs IH]; intros acc Hb; simpl; [done|].
  rewrite Hb by constructor. simpl. apply IH. intros; apply Hb. by constructor.
Qed.

(** ** The token reader *)

Lemma next_as_Ok {X} (conv : string → result X) on_stop toks x rest :
  next_as conv on_stop toks = Ok (x, rest) ↔
  ∃ tok, toks = tok :: rest ∧ conv tok = Ok x.
Proof.
  destruct toks as [|tok toks]; simpl.
  - naive_solver.
  - rewrite py_lift_Ok. naive_solver.
Qed.

Lemma next_as_Raise {X} (conv : string → result X) on_stop toks e :
  next_as conv on_stop toks = Raise e ↔
  (toks = [] ∧ e = on_stop) ∨ ∃ tok rest, toks = tok :: rest ∧ conv tok = Raise e.
Proof.
  destruct toks as [|tok toks]; simpl.
  - naive_solver.
  - rewrite py_lift_Raise. naive_solver.
Qed.

(** A loop of [k] reads succeeds exactly on a stream that starts with [k]
    tokens the conversion accepts. *)
Lemma repeatM_next_Ok {X} (conv : string → result X) on_stop k toks xs rest :
  repeatM k (next_as conv on_stop) toks = Ok (xs, rest) ↔
  ∃ pre, toks = pre ++ rest ∧ length pre = k ∧
         Forall2 (λ tok x, conv tok = Ok x) pre xs.
Proof.
  revert toks xs. induction k as [|k IH]; intros toks xs; simpl.
  - unfold py_ret. split.
    + intros [= <- <-]. exists []. by repeat constructor.
    + intros (pre & -> & Hlen & Hall). destruct pre; [|done]. by inversion Hall.
  - rewrite py_bind_Ok. split.
    + intros (x & toks' & Hx & Hrest).
      apply next_as_Ok in Hx as (tok & -> & Hconv).
      apply py_bind_Ok in Hrest as (xs' & rest' & Hxs & [= <- <-]).
      apply IH in Hxs as (pre & -> & <- & Hall).
      exists (tok :: pre). by repeat constructor.
    + intros (pre & -> & Hlen & Hall).
      destruct Hall as [|tok x pre xs' Hconv Hall]; [done|].
      exists x, (pre ++ rest). split; [by apply next_as_Ok; eauto|].
      apply py_bind_Ok. exists xs', rest. split; [|done].
      apply IH. exists pre. naive_solver.
Qed.

(** It raises when the stream ends early, after tokens the conversion
    accepts, or at the first token the conversion refuses. *)
Lemma repeatM_next_Raise {X} (conv : string → result X) on_stop k toks e :
  repeatM k (next_as conv on_stop) toks = Raise e ↔
  (∃ xs, Forall2 (λ tok x, conv tok = Ok x) toks xs ∧
         (length toks < k)%nat ∧ e = on_stop) ∨
  (∃ pre xs bad post, toks = pre ++ bad :: post ∧
         Forall2 (λ tok x, conv tok = Ok x) pre xs ∧
         (length pre < k)%nat ∧ conv bad = Raise e).
Proof.
  revert toks. induction k as [|k IH]; intros toks; simpl.
  - unfold py_ret. split; [done|]. intros [(? & ? & ? & ?)|(? & ? & ? & ? & ? & ? & ? & ?)]; lia.
  - rewrite py_bind_Raise. split.
    + intros [Hx|(x & toks' & Hx & Hrest)].
      * apply next_as_Raise in Hx as [[-> ->]|(tok & rest & -> & Hconv)].
        -- left. exists []. repeat split; [constructor | simpl; lia].
        -- right. exists [], [], tok, rest. repeat split; [constructor | simpl; lia | done].
      * apply next_as_Ok in Hx as (tok & -> & Hconv).
        apply py_bind_Raise in Hrest as [Hrest|(? & ? & ? & ?)]; [|done].
        apply IH in Hrest as [(xs & Hall & Hlen & ->)|(pre & xs & bad & post & -> & Hall & Hlen & Hbad)].
        -- left. exists (x :: xs). repeat split; [by constructor | simpl; lia].
        -- right. exists (tok :: pre), (x :: xs), bad, post.
           repeat split; [by constructor | simpl; lia | done].
    + intros [(xs & Hall & Hlen & ->)|(pre & xs & bad & post & -> & Hall & Hlen & Hbad)].
      * destruct Hall as [|tok x toks xs Hconv Hall].
        -- left. by apply next_as_Raise; left.
        -- right. exists x, toks. split; [by apply next_as_Ok; eauto|].
           apply py_bind_Raise. left. apply IH. left. exists xs.
           repeat split; [done | simpl in *; lia].
      * destruct Hall as [|tok x pre xs Hconv Hall].
        -- left. apply next_as_Raise. right. by exists bad, post.
        -- right. exists x, (pre ++ bad :: post). split; [by apply next_as_Ok; eauto|].
           apply py_bind_Raise. left. apply IH. right. exists pre, xs, bad, post.
           repeat split; [done | simpl in *; lia | done].
Qed.

(** ** The sections of an instance file *)

Lemma py_int_Ok tok k : py_int tok = Ok k ↔ int_literal tok = Some k.
Proof. unfold py_int. destruct (int_literal tok); naive_solver. Qed.

Lemma py_int_Raise tok e :
  py_int tok = Raise e ↔ int_literal tok = None ∧ e = BuiltinValueError "int" tok.
Proof. unfold py_int. destruct (int_literal tok); naive_solver. Qed.

Lemma conv_elem_Ok n tok k :
  conv_elem n tok = Ok k ↔ int_literal tok = Some k ∧ 1 ≤ k ≤ n.
Proof.
  unfold conv_elem. rewrite result_bind_Ok. setoid_rewrite py_int_Ok. split.
  - intros (k' & Hk' & Hin). destruct (decide _); naive_solver.
  - intros [Hk Hin]. exists k. split; [done|]. by rewrite decide_True.
Qed.

Lemma conv_elem_Raise n tok e :
  conv_elem n tok = Raise e ↔
  (int_literal tok = None ∧ e = BuiltinValueError "int" tok) ∨
  (∃ k, int_literal tok = Some k ∧ ¬ (1 ≤ k ≤ n) ∧ e = ValueError (msg_elem k n)).
Proof.
  unfold conv_elem. rewrite result_bind_Raise, py_int_Raise.
  setoid_rewrite py_int_Ok. split.
  - intros [?|(k & Hk & Hin)]; [by left|]. right. exists k.
    destruct (decide _); naive_solver.
  - intros [?|(k & Hk & Hin & ->)]; [by left|]. right. exists k.
    by rewrite decide_False.
Qed.

Section ParserLoops.
Context {F : Type} `{!PyFloat F}.

Lemma read_subset_from n i (acc : gset Z) a k toks :
  foldM (λ (sub : gset Z) (_ : nat),
           next_as py_int (ValueError (msg_cover i)) ≫= λ k : Z,
           if decide (1 ≤ k ≤ n) then mret (sub ∪ {[k - 1]})
           else py_raise (ValueError (msg_elem k n)))
        acc (seq a k) toks
  = match repeatM k (next_as (conv_elem n) (ValueError (msg_cover i))) toks with
    | Ok (ks, rest) => Ok (acc ∪ internal_set ks, rest)
    | Raise e => Raise e
    end.
Proof.
  revert acc a toks. induction k as [|k IH]; intros acc a toks; simpl.
  - unfold py_ret, internal_set. simpl. f_equal. f_equal. set_solver.
  - unfold mbind, Py_mbind, mret, Py_ret in *. unfold py_bind.
    destruct toks as [|tok toks]; simpl; [done|].
    unfold conv_elem, py_int. destruct (int_literal tok) as [v|]; simpl; [|done].
    destruct (decide (1 ≤ v ≤ n)); simpl; [|done].
    unfold py_bind in IH. rewrite IH.
    destruct (repeatM k _ toks) as [[ks rest]|e]; simpl; [|done].
    unfold internal_set. simpl. f_equal. f_equal. set_solver.
Qed.

Lemma read_subset_repeat n i need toks :
  read_subset n i need toks
  = match repeatM (Z.to_nat need) (next_as (conv_elem n) (ValueError (msg_cover i))) toks with
    | Ok (ks, rest) => Ok (internal_set ks, rest)
    | Raise e => Raise e
    end.
Proof.
  unfold read_subset. rewrite read_subset_from.
  destruct (repeatM _ _ toks) as [[ks rest]|e]; [|done].
  f_equal. f_equal. set_solver.
Qed.
End ParserLoops.

Lemma set_tokens_conv n chunk ks :
  Forall2 (λ tok k, conv_elem n tok = Ok k) chunk ks ↔ set_tokens n chunk ks.
Proof.
  unfold set_tokens.
  split; intros H; eapply Forall2_impl; try exact H; intros tok k; by rewrite conv_elem_Ok.
Qed.

Section ParserSections.
Context {F : Type} `{!PyFloat F}.

Lemma forM_read_subsets_Ok n s sizes a toks subsets rest :
  (∀ j, (j < length sizes)%nat → s !! (a + j)%nat = sizes !! j) →
  forM (λ i, need ← py_lift (index s i); read_subset n i need)
       (seq a (length sizes)) toks = Ok (subsets, rest) ↔
  ∃ chunks elems,
    toks = concat chunks ++ rest ∧
    Forall2 (set_tokens n) chunks elems ∧
    Forall2 (λ need ks, length ks = Z.to_nat need) sizes elems ∧
    subsets = internal_set <$> elems.
Proof.
  revert a toks subsets. induction sizes as [|need sizes IH]; intros a toks subsets Hs; simpl.
  - unfold py_ret. split.
    + intros [= <- <-]. exists [], []. by repeat constructor.
    + intros (chunks & elems & -> & Hch & Hsz & ->).
      inversion Hsz; subst. inversion Hch; subst. done.
  - assert (s !! a = Some need) as Ha.
    { specialize (Hs 0%nat). rewrite Nat.add_0_r in Hs. apply Hs. simpl; lia. }
    assert (∀ j, (j < length sizes)%nat → s !! (S a + j)%nat = sizes !! j) as Hs'.
    { intros j Hj. specialize (Hs (S j)). simpl in Hs.
      rewrite <- Hs by lia. f_equal. lia. }
    rewrite py_bind_Ok. unfold mbind, Py_mbind. unfold py_bind at 1.
    unfold index. rewrite Ha. simpl. setoid_rewrite read_subset_repeat. split.
    + intros (sub & toks' & Hsub & Hrest).
      destruct (repeatM _ _ toks) as [[ks rest0]|e] eqn:Hrep; [|done].
      injection Hsub as <- <-.
      apply repeatM_next_Ok in Hrep as (chunk & -> & Hlen & Hall).
      apply py_bind_Ok in Hrest as (subs & rest1 & Hsubs & [= <- <-]).
      apply (IH _ _ _ Hs') in Hsubs as (chunks & elems & -> & Hch & Hsz & ->).
      exists (chunk :: chunks), (ks :: elems). simpl.
      split_and!; [by rewrite <- app_assoc | | | done].
      * constructor; [by apply set_tokens_conv | done].
      * constructor; [|done]. apply Forall2_length in Hall. lia.
    + intros (chunks & elems & -> & Hch & Hsz & ->).
      inversion Hsz as [|? ks ? elems' Hlen Hsz']; subst.
      inversion Hch as [|chunk ? chunks' ? Hchunk Hch']; subst. simpl.
      exists (internal_set ks), (concat chunks' ++ rest). split.
      * assert (repeatM (Z.to_nat need) (next_as (conv_elem n) (ValueError (msg_cover a)))
                  ((chunk ++ concat chunks') ++ rest) = Ok (ks, concat chunks' ++ rest)) as ->; [|done].
        apply repeatM_next_Ok. exists chunk. rewrite <- app_assoc.
        repeat split; [|by apply set_tokens_conv].
        apply set_tokens_conv, Forall2_length in Hchunk. lia.
      * apply py_bind_Ok. exists (internal_set <$> elems'), rest. split; [|done].
        apply (IH _ _ _ Hs'). by exists chunks', elems'.
Qed.

Lemma read_subsets_Ok n s toks subsets rest :
  length s = Z.to_nat n →
  read_subsets n s toks = Ok (subsets, rest) ↔
  ∃ chunks elems,
    toks = concat chunks ++ rest ∧
    Forall2 (set_tokens n) chunks elems ∧
    Forall2 (λ need ks, length ks = Z.to_nat need) s elems ∧
    subsets = internal_set <$> elems.
Proof.
  intros Hlen. unfold read_subsets. rewrite <- Hlen.
  by apply forM_read_subsets_Ok.
Qed.
End ParserSections.

(** ** The coefficient dictionary *)

Lemma elem_of_upper_pairs N i j :
  (i, j) ∈ upper_pairs N ↔ (i ≤ j < N)%nat.
Proof.
  unfold upper_pairs. rewrite list_elem_of_In, in_flat_map. split.
  - intros (i' & Hi' & Hin). apply list_elem_of_In in Hi', Hin.
    apply list_elem_of_fmap in Hin as (j' & [= -> ->] & Hj').
    apply elem_of_seq in Hi', Hj'. lia.
  - intros Hij. exists i. split; apply list_elem_of_In.
    + apply elem_of_seq. lia.
    + apply list_elem_of_fmap. exists j. split; [done|]. apply elem_of_seq. lia.
Qed.

Lemma NoDup_upper_pairs_from a k N :
  NoDup (flat_map (λ i, pair i <$> seq i (N - i)) (seq a k)).
Proof.
  revert a. induction k as [|k IH]; intros a; simpl; [constructor|].
  apply NoDup_app. split_and!.
  - apply NoDup_fmap_2; [|apply NoDup_seq]. by intros ?? [= ->].
  - intros [i j] Hin Hin'.
    apply list_elem_of_fmap in Hin as (j' & [= -> ->] & _).
    apply list_elem_of_In, in_flat_map in Hin' as (i' & Hi' & Hin').
    apply list_elem_of_In in Hi', Hin'.
    apply list_elem_of_fmap in Hin' as (? & [= -> ->] & _).
    apply elem_of_seq in Hi'. lia.
  - apply IH.
Qed.

Lemma NoDup_upper_pairs N : NoDup (upper_pairs N).
Proof. apply NoDup_upper_pairs_from. Qed.

Lemma length_upper_pairs_from a k :
  (2 * length (flat_map (λ i, pair i <$> seq i (a + k - i)) (seq a k)) = k * (k + 1))%nat.
Proof.
  revert a. induction k as [|k IH]; intros a; simpl; [done|].
  rewrite length_app, length_fmap, length_seq.
  replace (flat_map (λ i, pair i <$> seq i (a + S k - i)) (seq (S a) k))
    with (flat_map (λ i, pair i <$> seq i (S a + k - i)) (seq (S a) k)).
  - specialize (IH (S a)). nia.
  - apply flat_map_ext. intros i. do 2 f_equal. lia.
Qed.

Lemma length_upper_pairs N : (2 * length (upper_pairs N) = N * (N + 1))%nat.
Proof. apply (length_upper_pairs_from 0 N). Qed.

Lemma needed_upper_pairs n :
  0 ≤ n → Z.to_nat ((n * (n + 1)) `div` 2) = length (upper_pairs (Z.to_nat n)).
Proof.
  intros Hn. pose proof (length_upper_pairs (Z.to_nat n)) as Hlen.
  apply Nat2Z.inj. rewrite Z2Nat.id by (apply Z.div_pos; nia).
  symmetry. apply Z.div_unique_exact; [done|]. nia.
Qed.

Lemma foldR_fmap {A X Y} (body : A → Y → result A) (f : X → Y) acc xs :
  foldR body acc (f <$> xs) = foldR (λ a x, body a (f x)) acc xs.
Proof.
  revert acc. induction xs as [|x xs IH]; intros acc; simpl; [done|].
  destruct (body acc (f x)); simpl; [apply IH | done].
Qed.

Lemma foldR_ext {A X} (f g : A → X → result A) acc xs :
  (∀ a x, f a x = g a x) → foldR f acc xs = foldR g acc xs.
Proof.
  intros Hfg. revert acc. induction xs as [|x xs IH]; intros acc; simpl; [done|].
  rewrite Hfg. destruct (g acc x); simpl; [apply IH | done].
Qed.

(** The double loop is one loop over the pairs. *)
Lemma foldR_nested {A} (body : A → nat * nat → result A) (js : nat → list nat) acc rows :
  foldR (λ a i, foldR (λ a' j, body a' (i, j)) a (js i)) acc rows
  = foldR body acc (flat_map (λ i, pair i <$> js i) rows).
Proof.
  revert acc. induction rows as [|i rows IH]; intros acc; simpl; [done|].
  rewrite foldR_app, foldR_fmap.
  destruct (foldR _ acc (js i)); simpl; [apply IH | done].
Qed.

Section Coefficients.
Context {F : Type} `{!PyFloat F}.

Lemma build_A_store n coeffs :
  build_A n coeffs
  = result_bind (λ st, Ok st.2)
      (foldR (store coeffs) (0%nat, ∅) (upper_pairs (Z.to_nat n))).
Proof.
  unfold build_A, upper_pairs.
  rewrite <- (foldR_nested (store coeffs) (λ i, seq i (Z.to_nat n - i))).
  unfold mbind, result_mbind. f_equal.
  apply foldR_ext. intros st i. apply foldR_ext. by intros [idx A] j.
Qed.

Lemma foldR_store coeffs ps idx A :
  (idx + length ps ≤ length coeffs)%nat →
  foldR (store coeffs) (idx, A) ps
  = Ok ((idx + length ps)%nat, foldl keep A (zip ps (drop idx coeffs))).
Proof.
  revert idx A. induction ps as [|p ps IH]; intros idx A Hlen; simpl.
  - by rewrite Nat.add_0_r.
  - simpl in Hlen. destruct (coeffs !! idx) as [a|] eqn:Ha.
    2:{ apply lookup_ge_None in Ha. lia. }
    unfold index. rewrite Ha. simpl.
    rewrite (drop_S _ _ _ Ha). simpl. rewrite IH by lia.
    f_equal. f_equal. lia.
Qed.

Lemma foldR_store_short coeffs ps idx A :
  (idx ≤ length coeffs < idx + length ps)%nat →
  foldR (store coeffs) (idx, A) ps = Raise IndexError.
Proof.
  revert idx A. induction ps as [|p ps IH]; intros idx A Hlen; simpl in *; [lia|].
  unfold index. destruct (coeffs !! idx) as [a|] eqn:Ha; simpl; [|done].
  apply lookup_lt_Some in Ha. apply IH. lia.
Qed.

Lemma lookup_foldl_keep (l : list (nat * nat * F)) A p a :
  NoDup l.*1 →
  foldl keep A l !! p = Some a ↔
  ((p, a) ∈ l ∧ F_eqb a F_zero = false) ∨
  ((∀ b, (p, b) ∈ l → F_eqb b F_zero = true) ∧ A !! p = Some a).
Proof.
  revert A. induction l as [|[q b] l IH]; intros A Hnd; simpl.
  - split.
    + intros HA. right. split; [|done]. intros b Hb. by apply elem_of_nil in Hb.
    + intros [[Hin _]|[_ HA]]; [by apply elem_of_nil in Hin | done].
  - apply NoDup_cons in Hnd as [Hq Hnd]. rewrite (IH _ Hnd). clear IH.
    assert (∀ b', (q, b') ∉ l) as Hq'.
    { intros b' Hin. apply Hq. apply list_elem_of_fmap. by exists (q, b'). }
    unfold keep at 1. simpl. setoid_rewrite elem_of_cons.
    destruct (F_eqb b F_zero) eqn:Hb.
    + split.
      * intros [[Hin Hnz]|[Hall HA]]; [left; auto|]. right. split; [|done].
        intros b' [[= -> ->]|Hin]; auto.
      * intros [[[[= -> ->]|Hin] Hnz]|[Hall HA]];
          [congruence | left; auto | right; split; auto].
    + destruct (decide (p = q)) as [->|Hne].
      * rewrite lookup_insert_eq. split.
        -- intros [[Hin Hnz]|[Hall [= ->]]]; [by destruct (Hq' a) | left; auto].
        -- intros [[[[= ->]|Hin] Hnz]|[Hall HA]].
           ++ right. split; [|done]. intros b' Hin. by destruct (Hq' b').
           ++ by destruct (Hq' a).
           ++ specialize (Hall b (or_introl eq_refl)). congruence.
      * rewrite lookup_insert_ne by done. split.
        -- intros [[Hin Hnz]|[Hall HA]]; [left; auto|]. right. split; [|done].
           intros b' [[= -> ->]|Hin]; [done | auto].
        -- intros [[[[= -> ->]|Hin] Hnz]|[Hall HA]];
             [done | left; auto | right; split; auto].
Qed.

(** [build_A] returns the dictionary of the nonzero coefficients, each
    under the pair at its position in the row-major order. *)
Lemma build_A_Ok n coeffs :
  (length (upper_pairs (Z.to_nat n)) ≤ length coeffs)%nat →
  ∃ A, build_A n coeffs = Ok A ∧
       ∀ p a, A !! p = Some a ↔
              (p, a) ∈ zip (upper_pairs (Z.to_nat n)) coeffs ∧ F_eqb a F_zero = false.
Proof.
  intros Hlen. rewrite build_A_store, foldR_store by (simpl; lia). simpl.
  eexists. split; [done|]. intros p a. rewrite drop_0.
  rewrite lookup_foldl_keep.
  - rewrite lookup_empty. naive_solver.
  - rewrite fst_zip by done. apply NoDup_upper_pairs.
Qed.

Lemma build_A_Raise n coeffs :
  (length coeffs < length (upper_pairs (Z.to_nat n)))%nat →
  build_A n coeffs = Raise IndexError.
Proof.
  intros Hlen. rewrite build_A_store, foldR_store_short by (simpl; lia). done.
Qed.
End Coefficients.

(** ** The layout of an instance file *)

Section ParserSpec.
Context {F : Type} `{!PyFloat F}.

Lemma py_float_Ok tok (x : F) : py_float tok = Ok x ↔ F_literal tok = Some x.
Proof. unfold py_float. destruct (F_literal tok); naive_solver. Qed.

Lemma py_float_Raise tok e :
  py_float (F:=F) tok = Raise e ↔
  F_literal tok = None ∧ e = BuiltinValueError "float" tok.
Proof. unfold py_float. destruct (F_literal tok); naive_solver. Qed.

Lemma int_tokens_conv toks ks :
  Forall2 (λ tok k, py_int tok = Ok k) toks ks ↔ int_tokens toks ks.
Proof.
  unfold int_tokens.
  split; intros H; eapply Forall2_impl; try exact H; intros tok k; by rewrite py_int_Ok.
Qed.

Lemma float_tokens_conv toks (xs : list F) :
  Forall2 (λ tok x, py_float tok = Ok x) toks xs ↔ float_tokens toks xs.
Proof.
  unfold float_tokens.
  split; intros H; eapply Forall2_impl; try exact H; intros tok k; by rewrite py_float_Ok.
Qed.

Lemma needed_covers_pairs n :
  (length (upper_pairs (Z.to_nat n)) ≤ Z.to_nat ((n * (n + 1)) `div` 2))%nat.
Proof.
  destruct (decide (0 ≤ n)).
  - by rewrite needed_upper_pairs.
  - rewrite Z2Nat.nonpos by lia. simpl. lia.
Qed.

(** The parser succeeds exactly on the streams laid out as the format
    asks, and returns what they spell. *)
Lemma parse_tokens_Ok toks n subsets A :
  parse_tokens toks = Ok (n, subsets, A) ↔
  ∃ sizes elems coeffs extra,
    instance_layout toks n sizes elems coeffs extra ∧
    subsets = internal_set <$> elems ∧
    build_A n coeffs = Ok A.
Proof.
  unfold parse_tokens, parse_steps, mbind, Py_mbind, mret, Py_ret. split.
  - destruct (py_bind _ _ toks) as [[r rest]|e] eqn:Hrun; [|done].
    intros [= ->].
    apply py_bind_Ok in Hrun as (n' & toks1 & Hn & Hrun).
    apply next_as_Ok in Hn as (tok_n & -> & Hn). apply py_int_Ok in Hn.
    apply py_bind_Ok in Hrun as (sizes & toks2 & Hsizes & Hrun).
    apply repeatM_next_Ok in Hsizes as (size_toks & -> & Hlen & Hsizes).
    apply int_tokens_conv in Hsizes.
    assert (length sizes = Z.to_nat n') as Hlen'.
    { apply Forall2_length in Hsizes. lia. }
    apply py_bind_Ok in Hrun as (subsets' & toks3 & Hsubs & Hrun).
    apply (read_subsets_Ok _ _ _ _ _ Hlen') in Hsubs
      as (chunks & elems & -> & Hchunks & Hneed & ->).
    apply py_bind_Ok in Hrun as (coeffs & toks4 & Hcoeffs & Hrun).
    apply repeatM_next_Ok in Hcoeffs as (coeff_toks & -> & Hclen & Hcoeffs).
    apply float_tokens_conv in Hcoeffs.
    apply py_bind_Ok in Hrun as (A' & toks5 & HA & Hret).
    apply py_lift_Ok in HA as [HA ->]. unfold py_ret in Hret. simplify_eq.
    eexists sizes, elems, coeffs, _. split_and!; [|done..].
    exists tok_n, size_toks, chunks, coeff_toks. split_and!; try done.
    apply Forall2_length in Hcoeffs. lia.
  - intros (sizes & elems & coeffs & extra & Hlay & -> & HA).
    destruct Hlay as (tok_n & size_toks & chunks & coeff_toks & -> & Hn & Hsizes
                      & Hlen & Hchunks & Hneed & Hcoeffs & Hclen).
    assert (py_bind
      (λ n0, py_bind (λ s, py_bind (λ subsets, py_bind (λ coeffs0,
         py_bind (λ A0, py_ret (n0, subsets, A0)) (py_lift (build_A n0 coeffs0)))
         (read_coeffs ((n0 * (n0 + 1)) `div` 2))) (read_subsets n0 s)) (read_sizes n0))
      (next_as py_int (ValueError msg_empty))
      (tok_n :: size_toks ++ concat chunks ++ coeff_toks ++ extra)
      = Ok ((n, internal_set <$> elems, A), extra)) as ->; [|done].
    apply py_bind_Ok. exists n, (size_toks ++ concat chunks ++ coeff_toks ++ extra).
    split; [apply next_as_Ok; eexists; split; [done | by apply py_int_Ok]|].
    apply py_bind_Ok. exists sizes, (concat chunks ++ coeff_toks ++ extra). split.
    { apply repeatM_next_Ok. exists size_toks. split_and!; [done| |by apply int_tokens_conv].
      apply Forall2_length in Hsizes. lia. }
    apply py_bind_Ok. exists (internal_set <$> elems), (coeff_toks ++ extra). split.
    { apply read_subsets_Ok; [done|]. by exists chunks, elems. }
    apply py_bind_Ok. exists coeffs, extra. split.
    { apply repeatM_next_Ok. exists coeff_toks. split_and!; [done| |by apply float_tokens_conv].
      apply Forall2_length in Hcoeffs. lia. }
    apply py_bind_Ok. exists A, extra. split; [by apply py_lift_Ok|done].
Qed.

(** On such a stream building the dictionary cannot fail. *)
Lemma build_A_needed n (coeffs : list F) :
  length coeffs = Z.to_nat ((n * (n + 1)) `div` 2) →
  ∃ A, build_A n coeffs = Ok A ∧
       ∀ p a, A !! p = Some a ↔
              (p, a) ∈ zip (upper_pairs (Z.to_nat n)) coeffs ∧ F_eqb a F_zero = false.
Proof.
  intros Hlen. apply build_A_Ok. rewrite Hlen. apply needed_covers_pairs.
Qed.
End ParserSpec.

(** ** How parsing fails *)

Section ParserFailures.
Context {F : Type} `{!PyFloat F}.

Lemma forM_read_subsets_Raise n s sizes a toks e :
  (∀ j, (j < length sizes)%nat → s !! (a + j)%nat = sizes !! j) →
  forM (λ i, need ← py_lift (index s i); read_subset n i need)
       (seq a (length sizes)) toks = Raise e ↔
  ∃ i need chunks elems rest,
    sizes !! i = Some need ∧
    toks = concat chunks ++ rest ∧
    Forall2 (set_tokens n) chunks elems ∧
    Forall2 (λ need ks, length ks = Z.to_nat need) (take i sizes) elems ∧
    repeatM (Z.to_nat need)
      (next_as (conv_elem n) (ValueError (msg_cover (a + i)))) rest = Raise e.
Proof.
  revert a toks. induction sizes as [|need sizes IH]; intros a toks Hs; simpl.
  - unfold py_ret. split; [done|]. by intros (i & need & ? & ? & ? & ? & _).
  - assert (s !! a = Some need) as Ha.
    { specialize (Hs 0%nat). rewrite Nat.add_0_r in Hs. apply Hs. simpl; lia. }
    assert (∀ j, (j < length sizes)%nat → s !! (S a + j)%nat = sizes !! j) as Hs'.
    { intros j Hj. specialize (Hs (S j)). simpl in Hs.
      rewrite <- Hs by lia. f_equal. lia. }
    rewrite py_bind_Raise. unfold mbind, Py_mbind. unfold py_bind at 1 2.
    unfold index. rewrite Ha. simpl. setoid_rewrite read_subset_repeat. split.
    + intros [Hfst|(sub & toks' & Hsub & Hrest)].
      * destruct (repeatM _ _ toks) as [[ks rest0]|e'] eqn:Hrep; [done|].
        injection Hfst as ->. exists 0%nat, need, [], [], toks.
        rewrite Nat.add_0_r. split_and!; try done; constructor.
      * destruct (repeatM _ _ toks) as [[ks rest0]|e'] eqn:Hrep; [|done].
        injection Hsub as <- <-.
        apply repeatM_next_Ok in Hrep as (chunk & -> & Hlen & Hall).
        apply py_bind_Raise in Hrest as [Hrest|(? & ? & ? & ?)]; [|done].
        apply (IH _ _ Hs') in Hrest
          as (i & need' & chunks & elems & rest & Hi & -> & Hch & Hsz & Hrep).
        exists (S i), need', (chunk :: chunks), (ks :: elems), rest. simpl.
        split_and!; [done | by rewrite <- app_assoc | | |].
        -- constructor; [by apply set_tokens_conv | done].
        -- constructor; [|done]. apply Forall2_length in Hall. lia.
        -- by replace (a + S i)%nat with (S a + i)%nat by lia.
    + intros (i & need' & chunks & elems & rest & Hi & -> & Hch & Hsz & Hrep).
      destruct i as [|i]; simpl in Hi, Hsz.
      * injection Hi as <-. inversion Hsz; subst. inversion Hch; subst. simpl.
        left. rewrite Nat.add_0_r in Hrep. by rewrite Hrep.
      * inversion Hsz as [|? ks ? elems' Hlen Hsz']; subst.
        inversion Hch as [|chunk ? chunks' ? Hchunk Hch']; subst. simpl.
        right. exists (internal_set ks), (concat chunks' ++ rest). split.
        -- assert (repeatM (Z.to_nat need) (next_as (conv_elem n) (ValueError (msg_cover a)))
                    ((chunk ++ concat chunks') ++ rest) = Ok (ks, concat chunks' ++ rest)) as ->; [|done].
           apply repeatM_next_Ok. exists chunk. rewrite <- app_assoc.
           split_and!; [done | | by apply set_tokens_conv].
           apply set_tokens_conv, Forall2_length in Hchunk. lia.
        -- apply py_bind_Raise. left. apply (IH _ _ Hs').
           exists i, need', chunks', elems', rest. split_and!; try done.
           by replace (S a + i)%nat with (a + S i)%nat by lia.
Qed.

Lemma read_subsets_Raise n s toks e :
  length s = Z.to_nat n →
  read_subsets n s toks = Raise e ↔
  ∃ i need chunks elems rest,
    s !! i = Some need ∧
    toks = concat chunks ++ rest ∧
    Forall2 (set_tokens n) chunks elems ∧
    Forall2 (λ need ks, length ks = Z.to_nat need) (take i s) elems ∧
    repeatM (Z.to_nat need)
      (next_as (conv_elem n) (ValueError (msg_cover i))) rest = Raise e.
Proof.
  intros Hlen. unfold read_subsets. rewrite <- Hlen.
  by rewrite (forM_read_subsets_Raise n s s 0).
Qed.
End ParserFailures.

Section ParserFailureSpec.
Context {F : Type} `{!PyFloat F}.

Lemma parse_steps_Raise toks e :
  parse_steps (F:=F) toks = Raise e ↔
  next_as py_int (ValueError msg_empty) toks = Raise e ∨
  ∃ n toks1, next_as py_int (ValueError msg_empty) toks = Ok (n, toks1) ∧
    (read_sizes n toks1 = Raise e ∨
     ∃ s toks2, read_sizes n toks1 = Ok (s, toks2) ∧
       (read_subsets n s toks2 = Raise e ∨
        ∃ subsets toks3, read_subsets n s toks2 = Ok (subsets, toks3) ∧
          (read_coeffs (F:=F) ((n * (n + 1)) `div` 2) toks3 = Raise e ∨
           ∃ coeffs toks4,
             read_coeffs ((n * (n + 1)) `div` 2) toks3 = Ok (coeffs, toks4) ∧
             build_A n coeffs = Raise e))).
Proof.
  unfold parse_steps, mbind, Py_mbind, mret, Py_ret.
  rewrite py_bind_Raise. do 2 f_equiv. intros n. f_equiv. intros toks1. f_equiv.
  rewrite py_bind_Raise. do 2 f_equiv. intros s. f_equiv. intros toks2. f_equiv.
  rewrite py_bind_Raise. do 2 f_equiv. intros subsets. f_equiv. intros toks3. f_equiv.
  rewrite py_bind_Raise. do 2 f_equiv. intros coeffs. f_equiv. intros toks4. f_equiv.
  rewrite py_bind_Raise, py_lift_Raise. unfold py_ret. naive_solver.
Qed.
End ParserFailureSpec.

Section ParserFailureIff.
Context {F : Type} `{!PyFloat F}.

Lemma parse_tokens_Raise toks e :
  parse_tokens (F:=F) toks = Raise e ↔ parse_steps (F:=F) toks = Raise e.
Proof.
  unfold parse_tokens. destruct (parse_steps toks) as [[r rest]|e']; naive_solver.
Qed.

Lemma parse_failure_sound toks e :
  parse_tokens (F:=F) toks = Raise e → parse_failure toks e.
Proof.
  rewrite parse_tokens_Raise, parse_steps_Raise.
  intros [Hn|(n & toks1 & Hn & Hrest)].
  { apply next_as_Raise in Hn as [[-> ->]|(tok & rest & -> & Hn)]; [constructor|].
    apply py_int_Raise in Hn as [Hn ->]. by constructor. }
  apply next_as_Ok in Hn as (tok_n & -> & Hn). apply py_int_Ok in Hn.
  destruct Hrest as [Hsz|(s & toks2 & Hsz & Hrest)].
  { apply repeatM_next_Raise in Hsz
      as [(xs & Hall & Hlen & ->)|(pre & xs & bad & post & -> & Hall & Hlen & Hbad)].
    - apply int_tokens_conv in Hall. by econstructor.
    - apply int_tokens_conv in Hall. apply py_int_Raise in Hbad as [Hbad ->].
      by econstructor. }
  apply repeatM_next_Ok in Hsz as (size_toks & -> & Hlen & Hsizes).
  apply int_tokens_conv in Hsizes.
  assert (length s = Z.to_nat n) as Hlen'.
  { apply Forall2_length in Hsizes. lia. }
  destruct Hrest as [Hsub|(subsets & toks3 & Hsub & Hrest)].
  { apply (read_subsets_Raise _ _ _ _ Hlen') in Hsub
      as (i & need & chunks & elems & rest & Hi & -> & Hch & Hneed & Hrep).
    apply repeatM_next_Raise in Hrep
      as [(ks & Hall & Hshort & ->)|(chunk & ks & bad & post & -> & Hall & Hshort & Hbad)];
      apply set_tokens_conv in Hall.
    - by eapply fail_cover_short.
    - apply conv_elem_Raise in Hbad as [[Hbad ->]|(k & Hk & Hrange & ->)].
      + by eapply fail_elem.
      + by eapply fail_elem_range. }
  apply (read_subsets_Ok _ _ _ _ _ Hlen') in Hsub
    as (chunks & elems & -> & Hch & Hneed & ->).
  destruct Hrest as [Hco|(coeffs & toks4 & Hco & HA)].
  { apply repeatM_next_Raise in Hco
      as [(xs & Hall & Hshort & ->)|(pre & xs & bad & post & -> & Hall & Hshort & Hbad)];
      apply float_tokens_conv in Hall.
    - by eapply fail_matrix_short.
    - apply py_float_Raise in Hbad as [Hbad ->]. by eapply fail_coeff. }
  apply repeatM_next_Ok in Hco as (coeff_toks & -> & Hclen & Hcoeffs).
  destruct (build_A_needed n coeffs) as (A & HA' & _); [|congruence].
  apply Forall2_length in Hcoeffs. lia.
Qed.

Lemma parse_failure_complete toks e :
  parse_failure toks e → parse_tokens (F:=F) toks = Raise e.
Proof.
  rewrite parse_tokens_Raise, parse_steps_Raise.
  assert (∀ tok_n n rest, int_literal tok_n = Some n →
            next_as py_int (ValueError msg_empty) (tok_n :: rest) = Ok (n, rest)) as Hhead.
  { intros. apply next_as_Ok. eexists. split; [done|]. by apply py_int_Ok. }
  assert (∀ n size_toks sizes rest, int_tokens size_toks sizes →
            length sizes = Z.to_nat n →
            read_sizes n (size_toks ++ rest) = Ok (sizes, rest)) as Hsizes.
  { intros n size_toks sizes rest Hall Hlen. apply repeatM_next_Ok.
    exists size_toks. split_and!; [done | | by apply int_tokens_conv].
    apply Forall2_length in Hall. lia. }
  assert (∀ n sizes chunks elems rest, length sizes = Z.to_nat n →
            Forall2 (set_tokens n) chunks elems →
            Forall2 (λ need ks, length ks = Z.to_nat need) sizes elems →
            read_subsets n sizes (concat chunks ++ rest)
            = Ok (internal_set <$> elems, rest)) as Hsets.
  { intros. apply read_subsets_Ok; [done|]. by eexists _, _. }
  destruct 1.
  - left. by apply next_as_Raise; left.
  - left. apply next_as_Raise. right. eexists _, _. split; [done|].
    by apply py_int_Raise.
  - right. eexists n, _. split; [by apply Hhead|]. left.
    apply repeatM_next_Raise. left. exists sizes.
    split_and!; [by apply int_tokens_conv | done..].
  - right. eexists n, _. split; [by apply Hhead|]. left.
    apply repeatM_next_Raise. right. exists size_toks, sizes, bad, rest.
    split_and!; [done | by apply int_tokens_conv | done | by apply py_int_Raise].
  - right. eexists n, _. split; [by apply Hhead|]. right.
    eexists sizes, _. split; [by apply Hsizes|]. left.
    apply read_subsets_Raise; [done|].
    exists i, need, chunks, elems, chunk. split_and!; try done.
    apply repeatM_next_Raise. left. exists ks.
    split_and!; [by apply set_tokens_conv | done..].
  - right. eexists n, _. split; [by apply Hhead|]. right.
    eexists sizes, _. split; [by apply Hsizes|]. left.
    apply read_subsets_Raise; [done|].
    exists i, need, chunks, elems, (chunk ++ bad :: rest). split_and!; try done.
    apply repeatM_next_Raise. right. exists chunk, ks, bad, rest.
    split_and!; [done | by apply set_tokens_conv | done |].
    apply conv_elem_Raise. by left.
  - right. eexists n, _. split; [by apply Hhead|]. right.
    eexists sizes, _. split; [by apply Hsizes|]. left.
    apply read_subsets_Raise; [done|].
    exists i, need, chunks, elems, (chunk ++ bad :: rest). split_and!; try done.
    apply repeatM_next_Raise. right. exists chunk, ks, bad, rest.
    split_and!; [done | by apply set_tokens_conv | done |].
    apply conv_elem_Raise. right. by exists k.
  - right. eexists n, _. split; [by apply Hhead|]. right.
    eexists sizes, _. split; [by apply Hsizes|]. right.
    eexists _, _. split; [by apply Hsets|]. left.
    apply repeatM_next_Raise. left. exists coeffs.
    split_and!; [by apply float_tokens_conv | done..].
  - right. eexists n, _. split; [by apply Hhead|]. right.
    eexists sizes, _. split; [by apply Hsizes|]. right.
    eexists _, _. split; [by apply Hsets|]. left.
    apply repeatM_next_Raise. right. exists coeff_toks, coeffs, bad, rest.
    split_and!; [done | by apply float_tokens_conv | done | by apply py_float_Raise].
Qed.
End ParserFailureIff.

(** ** The model *)

Lemma elem_of_concat {X} (x : X) (ls : list (list X)) :
  x ∈ concat ls ↔ ∃ l, x ∈ l ∧ l ∈ ls.
Proof.
  rewrite list_elem_of_In, in_concat. setoid_rewrite list_elem_of_In. naive_solver.
Qed.

Lemma forR_pure {X B} (f : X → result B) (g : X → B) xs :
  (∀ x, x ∈ xs → f x = Ok (g x)) → forR f xs = Ok (g <$> xs).
Proof.
  intros Hf. apply forR_Ok. apply Forall2_fmap_r, Forall_Forall2_diag.
  by apply Forall_forall.
Qed.

Lemma x_var_Ok n i : Z.of_nat i < n → x_var n i = Ok (X i).
Proof. intros. unfold x_var. by rewrite decide_True. Qed.

Lemma foldl_snoc_filter {X} (P : X → Prop) `{!∀ x, Decision (P x)} acc xs :
  foldl (λ acc x, if decide (P x) then acc ++ [x] else acc) acc xs = acc ++ filter P xs.
Proof.
  revert acc. induction xs as [|x xs IH]; intros acc; simpl.
  - by rewrite app_nil_r.
  - rewrite IH, filter_cons. destruct (decide (P x)); [|done].
    by rewrite <- app_assoc.
Qed.

Lemma eval_quicksum_from σ e vs :
  (eval σ (foldl (λ e v, LAdd e (LVar v)) e vs) == eval σ e + sumQ σ vs)%Q.
Proof.
  revert e. induction vs as [|v vs IH]; intros e; simpl.
  - lra.
  - rewrite IH. simpl. lra.
Qed.

Lemma eval_quicksum σ vs : (eval σ (quicksum vs) == sumQ σ vs)%Q.
Proof. unfold quicksum. rewrite eval_quicksum_from. simpl. lra. Qed.

(** A sum of binary values reaches 1 exactly when one of them is 1. *)
Lemma sumQ_binary σ vs :
  (∀ v, v ∈ vs → binary (σ v)) →
  (0 <= sumQ σ vs)%Q ∧ ((1 <= sumQ σ vs)%Q ↔ ∃ v, v ∈ vs ∧ (σ v == 1)%Q).
Proof.
  induction vs as [|v vs IH]; intros Hbin; simpl.
  - split; [lra|]. split; [lra|]. intros (v & Hv & _). by apply elem_of_nil in Hv.
  - destruct IH as [Hpos Hone]. { intros. apply Hbin. by constructor. }
    assert (binary (σ v)) as [H0|H1] by (apply Hbin; constructor).
    + split; [lra|]. split.
      * intros Hle. destruct Hone as [Hone _].
        destruct Hone as (w & Hw & Hw1); [lra|]. exists w. split; [by constructor|done].
      * intros (w & Hw & Hw1). apply elem_of_cons in Hw as [->|Hw]; [lra|].
        destruct Hone as [_ Hone]. assert (1 <= sumQ σ vs)%Q by eauto. lra.
    + split; [lra|]. split; [|lra]. intros _. exists v. split; [constructor|done].
Qed.

Lemma mentions_quicksum_from v e ws :
  mentions v (foldl (λ e w, LAdd e (LVar w)) e ws)
  = mentions v e || bool_decide (v ∈ ws).
Proof.
  revert e. induction ws as [|w ws IH]; intros e.
  - rewrite bool_decide_eq_false_2 by apply not_elem_of_nil. by rewrite orb_false_r.
  - simpl foldl. rewrite IH. simpl mentions. rewrite <- orb_assoc. f_equal.
    apply eq_true_iff_eq. rewrite orb_true_iff, !bool_decide_eq_true, elem_of_cons.
    naive_solver.
Qed.

Section BuilderFacts.
Context {F : Type}.

Lemma coverers_Ok (n : Z) (subsets : list (gset Z)) k :
  (Z.to_nat n ≤ length subsets)%nat →
  coverers n subsets k
  = Ok (filter (λ i, Z.of_nat k ∈ subsets !!! i) (seq 0 (Z.to_nat n))).
Proof.
  intros Hlen. unfold coverers.
  rewrite (foldR_pure _ (λ acc i, if decide (Z.of_nat k ∈ subsets !!! i)
                                  then acc ++ [i] else acc)).
  - by rewrite (foldl_snoc_filter (λ i, Z.of_nat k ∈ subsets !!! i)).
  - intros acc i Hi. apply elem_of_seq in Hi.
    destruct (subsets !! i) as [s|] eqn:Hs.
    2:{ apply lookup_ge_None in Hs. lia. }
    unfold index. rewrite Hs. simpl.
    by rewrite (list_lookup_total_correct _ _ _ Hs).
Qed.

Lemma cover_constrs_Ok (n : Z) (subsets : list (gset Z)) :
  (Z.to_nat n ≤ length subsets)%nat →
  cover_constrs n subsets = Ok (cover_constr n subsets <$> seq 0 (Z.to_nat n)).
Proof.
  intros Hlen. unfold cover_constrs. apply forR_pure. intros k _.
  rewrite coverers_Ok by done. simpl.
  rewrite (forR_pure _ X); [done|].
  intros i Hi. apply list_elem_of_filter in Hi as [_ Hi].
  apply elem_of_seq in Hi. apply x_var_Ok. lia.
Qed.

Lemma lin_constrs_Ok n i j :
  (i < Z.to_nat n)%nat → (j < Z.to_nat n)%nat →
  lin_constrs n (i, j) = Ok (linearization (i, j)).
Proof.
  intros Hi Hj. unfold lin_constrs, linearization.
  destruct (decide (i = j)); rewrite !x_var_Ok by lia; done.
Qed.

Lemma build_model_Ok (n : Z) (subsets : list (gset Z)) (A : gmap (nat * nat) F) :
  (Z.to_nat n ≤ length subsets)%nat →
  (∀ i j, is_Some (A !! (i, j)) → (i < Z.to_nat n)%nat ∧ (j < Z.to_nat n)%nat) →
  build_model n subsets A
  = Ok (MkModel
          (((λ i, VarDecl (X i) 0 1 BINARY) <$> seq 0 (Z.to_nat n))
           ++ ((λ '(i, j), VarDecl (Y i j) 0 1 CONTINUOUS) <$> (map_to_list A).*1))
          ((cover_constr n subsets <$> seq 0 (Z.to_nat n))
           ++ concat (linearization <$> (map_to_list A).*1))
          ((λ '((i, j), aij), (aij, Y i j)) <$> map_to_list A)).
Proof.
  intros Hlen Hkeys. unfold build_model.
  rewrite cover_constrs_Ok by done. simpl.
  rewrite (forR_pure _ linearization); [done|].
  intros [i j] Hin. apply list_elem_of_fmap in Hin as ([p a] & Hp & Hin).
  simpl in Hp. subst p. apply elem_of_map_to_list in Hin.
  destruct (Hkeys i j) as [Hi Hj]; [by eexists|]. by apply lin_constrs_Ok.
Qed.

Lemma foldR_Raise_at {A X} (body : A → X → result A) acc xs x e :
  x ∈ xs → (∀ a, body a x = Raise e) → (∀ a y, body a y = Raise e ∨ ∃ a', body a y = Ok a') →
  foldR body acc xs = Raise e.
Proof.
  intros Hx Hbody Hall. revert acc.
  induction xs as [|y xs IH]; intros acc; [by apply elem_of_nil in Hx|].
  simpl. apply elem_of_cons in Hx as [<-|Hx]; [by rewrite Hbody|].
  destruct (Hall acc y) as [->|[a' ->]]; [done|]. simpl. by apply IH.
Qed.

Lemma cover_constrs_inv (n : Z) (subsets : list (gset Z)) cov :
  cover_constrs n subsets = Ok cov → (Z.to_nat n ≤ length subsets)%nat.
Proof.
  intros Hcov. destruct (decide (Z.to_nat n ≤ length subsets)%nat) as [|Hlt]; [done|].
  exfalso. unfold cover_constrs in Hcov.
  destruct (Z.to_nat n) as [|N] eqn:HN; [lia|]. simpl in Hcov.
  assert (coverers n subsets 0 = Raise IndexError) as Hc; [|by rewrite Hc in Hcov].
  unfold coverers. apply (foldR_Raise_at _ _ _ (length subsets)).
  - apply elem_of_seq. lia.
  - intros a. unfold index. by rewrite (lookup_ge_None_2 subsets (length subsets)).
  - intros a y. unfold index. destruct (subsets !! y); simpl; eauto.
Qed.

Lemma lin_constrs_inv n i j l :
  lin_constrs n (i, j) = Ok l → (i < Z.to_nat n)%nat ∧ (j < Z.to_nat n)%nat.
Proof.
  unfold lin_constrs, x_var. destruct (decide (i = j)) as [->|].
  - destruct (decide (Z.of_nat j < n)); [lia | done].
  - destruct (decide (Z.of_nat i < n)); [|done].
    destruct (decide (Z.of_nat j < n)); [lia | done].
Qed.

(** [build_and_solve] builds its model exactly when [subsets] has a set
    for each of the [n] items and every key of [A] is a pair of items,
    and then the model is this one. *)
Lemma build_model_inv (n : Z) (subsets : list (gset Z)) (A : gmap (nat * nat) F) m :
  build_model n subsets A = Ok m →
  (Z.to_nat n ≤ length subsets)%nat ∧
  (∀ i j, is_Some (A !! (i, j)) → (i < Z.to_nat n)%nat ∧ (j < Z.to_nat n)%nat) ∧
  m = MkModel
        (((λ i, VarDecl (X i) 0 1 BINARY) <$> seq 0 (Z.to_nat n))
         ++ ((λ '(i, j), VarDecl (Y i j) 0 1 CONTINUOUS) <$> (map_to_list A).*1))
        ((cover_constr n subsets <$> seq 0 (Z.to_nat n))
         ++ concat (linearization <$> (map_to_list A).*1))
        ((λ '((i, j), aij), (aij, Y i j)) <$> map_to_list A).
Proof.
  intros Hm.
  assert ((Z.to_nat n ≤ length subsets)%nat ∧
          ∀ i j, is_Some (A !! (i, j)) → (i < Z.to_nat n)%nat ∧ (j < Z.to_nat n)%nat)
    as [Hlen Hkeys].
  { unfold build_model in Hm. apply result_bind_Ok in Hm as (cov & Hcov & Hm).
    apply result_bind_Ok in Hm as (lin & Hlin & _).
    split; [by eapply cover_constrs_inv|].
    intros i j [a Ha]. apply forR_Ok in Hlin.
    assert ((i, j) ∈ (map_to_list A).*1) as Hin.
    { apply list_elem_of_fmap. exists (i, j, a). split; [done|].
      by apply elem_of_map_to_list. }
    apply list_elem_of_lookup in Hin as [t Ht].
    destruct (Forall2_lookup_l _ _ _ _ _ Hlin Ht) as (l & _ & Hl).
    by eapply lin_constrs_inv. }
  split_and!; [done..|]. rewrite build_model_Ok in Hm by done. congruence.
Qed.

Lemma mentions_cover_constr n subsets k i j :
  constr_mentions (Y i j) (cover_constr n subsets k) = false.
Proof.
  unfold constr_mentions, cover_constr, quicksum. simpl.
  rewrite mentions_quicksum_from. simpl. rewrite orb_false_r.
  apply bool_decide_eq_false_2. intros Hin.
  by apply list_elem_of_fmap in Hin as (? & ? & ?).
Qed.

Lemma mentions_linearization i j i' j' c :
  c ∈ linearization (i', j') →
  constr_mentions (Y i j) c = true ↔ i = i' ∧ j = j'.
Proof.
  unfold linearization. destruct (decide (i' = j')) as [->|Hne].
  - rewrite list_elem_of_singleton. intros ->. unfold constr_mentions. simpl.
    rewrite orb_false_r, bool_decide_eq_true. naive_solver.
  - rewrite !elem_of_cons. intros [->|[->|[->|Hnil]]];
      [| | |by apply elem_of_nil in Hnil];
      unfold constr_mentions; simpl;
      rewrite ?orb_false_r, bool_decide_eq_true; naive_solver.
Qed.

(** The constraints that mention [y[i][j]] are the linearisation
    constraints of the key [(i, j)]. *)
Lemma constrs_mentioning_Y (n : Z) (subsets : list (gset Z)) (A : gmap (nat * nat) F) m i j c :
  build_model n subsets A = Ok m →
  c ∈ m_constrs m ∧ constr_mentions (Y i j) c = true ↔
  is_Some (A !! (i, j)) ∧ c ∈ linearization (i, j).
Proof.
  intros Hm. apply build_model_inv in Hm as (_ & _ & ->). simpl.
  rewrite elem_of_app. split.
  - intros [[Hcov|Hlin] Hment].
    + apply list_elem_of_fmap in Hcov as (k & -> & _).
      by rewrite mentions_cover_constr in Hment.
    + apply elem_of_concat in Hlin as (l & Hc & Hl).
      apply list_elem_of_fmap in Hl as ([i' j'] & -> & Hkey).
      apply (mentions_linearization i j) in Hc as Hij. apply Hij in Hment as [-> ->].
      split; [|done].
      apply list_elem_of_fmap in Hkey as ([p a] & Hp & Hin). simpl in Hp. subst p.
      apply elem_of_map_to_list in Hin. by eexists.
  - intros [[a Ha] Hc]. split.
    + right. apply elem_of_concat. exists (linearization (i, j)). split; [done|].
      apply list_elem_of_fmap. exists (i, j). split; [done|].
      apply list_elem_of_fmap. exists (i, j, a). split; [done|].
      by apply elem_of_map_to_list.
    + by apply (mentions_linearization i j) in Hc as ->.
Qed.
End BuilderFacts.

Section Linearization.
Context {F : Type}.

(** The declarations of [y[i][j]] in the model: one, continuous in
    [0, 1], when [(i, j)] is a key of [A], and none otherwise. *)
Lemma decls_of_Y (n : Z) (subsets : list (gset Z)) (A : gmap (nat * nat) F) m i j d :
  build_model n subsets A = Ok m →
  d ∈ m_vars m ∧ v_var d = Y i j ↔
  is_Some (A !! (i, j)) ∧ d = VarDecl (Y i j) 0 1 CONTINUOUS.
Proof.
  intros Hm. apply build_model_inv in Hm as (_ & _ & ->). simpl.
  rewrite elem_of_app. split.
  - intros [[Hx|Hy] Hv].
    + apply list_elem_of_fmap in Hx as (k & -> & _). done.
    + apply list_elem_of_fmap in Hy as ([i' j'] & -> & Hkey).
      simpl in Hv. injection Hv as -> ->. split; [|done].
      apply list_elem_of_fmap in Hkey as ([p a] & Hp & Hin). simpl in Hp. subst p.
      apply elem_of_map_to_list in Hin. by eexists.
  - intros [[a Ha] ->]. split; [|done]. right.
    apply list_elem_of_fmap. exists (i, j). split; [done|].
    apply list_elem_of_fmap. exists (i, j, a). split; [done|].
    by apply elem_of_map_to_list.
Qed.

Lemma linearization_holds σ i j :
  binary (σ (X i)) → binary (σ (X j)) →
  ((0 <= σ (Y i j))%Q ∧ (σ (Y i j) <= 1)%Q ∧
   ∀ c, c ∈ linearization (i, j) → holds σ c)
  ↔ (σ (Y i j) == σ (X i) * σ (X j))%Q.
Proof.
  intros Hi Hj. unfold linearization. destruct (decide (i = j)) as [->|Hne].
  - setoid_rewrite list_elem_of_singleton. split.
    + intros (_ & _ & Hc). specialize (Hc _ eq_refl). unfold holds in Hc. simpl in Hc.
      destruct Hj as [H|H]; rewrite Hc, H; lra.
    + intros Hy. destruct Hj as [H|H]; rewrite H in Hy;
        (split_and!; [lra | lra | intros c ->; unfold holds; simpl; lra]).
  - setoid_rewrite <- Forall_forall. rewrite !Forall_cons. unfold holds. simpl. split.
    + intros (H0 & H1 & Hc1 & Hc2 & Hc3 & _).
      destruct Hi as [Hi|Hi], Hj as [Hj|Hj]; rewrite Hi, Hj; lra.
    + intros Hy.
      destruct Hi as [Hi|Hi], Hj as [Hj|Hj]; rewrite Hi, Hj in Hy;
        (split_and!; [lra..|constructor]).
Qed.
End Linearization.

(** C1. For every key [(i, j)] of [A] and every binary value of [x[i]] and
    [x[j]], a value of [y[i][j]] lies in its declared domain and satisfies
    the constraints of the model that mention [y[i][j]] exactly when it is
    the product [x[i] * x[j]]: the McCormick constraints ([y = x] on the
    diagonal, the three inequalities off it) leave that one value. *)
Theorem mccormick_exact {F : Type} (n : Z) (subsets : list (gset Z))
    (A : gmap (nat * nat) F) (m : Model F) (i j : nat) (σ : var → Q) :
  build_model n subsets A = Ok m →
  is_Some (A !! (i, j)) →
  binary (σ (X i)) → binary (σ (X j)) →
  ((∀ d, d ∈ m_vars m → v_var d = Y i j → in_domain σ d) ∧
   (∀ c, c ∈ m_constrs m → constr_mentions (Y i j) c = true → holds σ c))
  ↔ (σ (Y i j) == σ (X i) * σ (X j))%Q.
Proof.
  intros Hm Hkey Hi Hj. rewrite <- (linearization_holds σ i j Hi Hj). split.
  - intros [Hdom Hcon].
    destruct (Hdom (VarDecl (Y i j) 0 1 CONTINUOUS)) as (H0 & H1 & _); [|done|].
    { by apply (decls_of_Y n subsets A m i j). }
    simpl in H0, H1. split_and!; [done..|]. intros c Hc.
    destruct (proj2 (constrs_mentioning_Y n subsets A m i j c Hm)) as [Hin Hment]; auto.
  - intros (H0 & H1 & Hlin). split.
    + intros d Hd Hv.
      destruct (proj1 (decls_of_Y n subsets A m i j d Hm)) as [_ ->]; [done|].
      by split_and!.
    + intros c Hc Hment. apply Hlin.
      by destruct (proj1 (constrs_mentioning_Y n subsets A m i j c Hm)).
Qed.

(** ** The model of a parsed instance *)

Lemma filter_ext_in {X} (P1 P2 : X → Prop)
    `{!∀ x, Decision (P1 x), !∀ x, Decision (P2 x)} (l : list X) :
  (∀ x, x ∈ l → P1 x ↔ P2 x) → filter P1 l = filter P2 l.
Proof.
  induction l as [|x l IH]; intros Heq; [done|].
  rewrite !filter_cons. rewrite IH by (intros; apply Heq; by constructor).
  destruct (decide (P1 x)) as [H1|H1], (decide (P2 x)) as [H2|H2]; try done;
    exfalso; apply (Heq x) in H1 || apply (Heq x) in H2; try done; constructor.
Qed.

Lemma elem_of_internal_set ks e : e - 1 ∈ internal_set ks ↔ e ∈ ks.
Proof.
  unfold internal_set. rewrite elem_of_list_to_set, list_elem_of_fmap. split.
  - intros (k & Hk & Hin). by replace e with k by lia.
  - intros Hin. by exists e.
Qed.

Section ParsedModel.
Context {F : Type} `{!PyFloat F}.

Lemma elem_of_zip_l {X Y} (xs : list X) (ys : list Y) x y :
  (x, y) ∈ zip xs ys → x ∈ xs.
Proof.
  revert ys. induction xs as [|x' xs IH]; intros [|y' ys]; simpl;
    try (intros H; by apply elem_of_nil in H).
  rewrite !elem_of_cons. intros [[= -> ->]|Hin]; [by left|]. right. eauto.
Qed.

(** A parsed instance has one covering set per item, and the keys of its
    dictionary are pairs [i <= j] of items. *)
Lemma parsed_shape (toks : list string) (n : Z) (subsets : list (gset Z))
    (A : gmap (nat * nat) F) sizes elems coeffs extra :
  instance_layout toks n sizes elems coeffs extra →
  subsets = internal_set <$> elems →
  build_A n coeffs = Ok A →
  length subsets = Z.to_nat n ∧ length elems = Z.to_nat n ∧
  (∀ i j a, A !! (i, j) = Some a ↔
            ((i, j), a) ∈ zip (upper_pairs (Z.to_nat n)) coeffs ∧ F_eqb a F_zero = false) ∧
  (∀ i j, is_Some (A !! (i, j)) → (i ≤ j < Z.to_nat n)%nat).
Proof.
  intros (tok_n & size_toks & chunks & coeff_toks & -> & Hn & Hsizes & Hlen
          & Hchunks & Hneed & Hcoeffs & Hclen) -> HA.
  destruct (build_A_needed n coeffs Hclen) as (A' & HA' & Hspec).
  assert (A' = A) as -> by congruence.
  apply Forall2_length in Hneed.
  split_and!; [rewrite length_fmap; lia | lia | intros; apply Hspec |].
  intros i j [a Ha]. apply Hspec in Ha as [Hin _].
  apply elem_of_zip_l in Hin. by apply elem_of_upper_pairs.
Qed.

Lemma build_model_parsed (toks : list string) (n : Z) (subsets : list (gset Z))
    (A : gmap (nat * nat) F) :
  parse_tokens toks = Ok (n, subsets, A) →
  ∃ m, build_model n subsets A = Ok m.
Proof.
  intros Hparse. apply parse_tokens_Ok in Hparse
    as (sizes & elems & coeffs & extra & Hlay & Hsub & HA).
  destruct (parsed_shape _ _ _ _ _ _ _ _ Hlay Hsub HA) as (Hlen & _ & _ & Hkeys).
  eexists. apply build_model_Ok; [lia|].
  intros i j Hij. apply Hkeys in Hij. lia.
Qed.
End ParsedModel.

(** C5. In the model of a parsed instance every element [e] of [1..n] has
    one constraint [cover]: the sum of the [x[i]] over the items [i] whose
    covering set in the file lists [e], at least 1. Binary values of [x]
    satisfy these constraints exactly when every element of [1..n] is listed
    in the covering set of an item whose [x] is 1. *)
Theorem cover_constraints {F : Type} `{!PyFloat F} (toks : list string) (n : Z)
    (subsets : list (gset Z)) (A : gmap (nat * nat) F) :
  parse_tokens toks = Ok (n, subsets, A) →
  ∃ sizes elems coeffs extra m,
    instance_layout toks n sizes elems coeffs extra ∧
    build_model n subsets A = Ok m ∧
    (∀ e c, 1 ≤ e ≤ n →
       c ∈ m_constrs m ∧ c_name c = cover (Z.to_nat (e - 1)) ↔
       c = Constr (cover (Z.to_nat (e - 1)))
                  (quicksum (X <$> filter (λ i, e ∈ elems !!! i) (seq 0 (Z.to_nat n))))
                  GE (LConst 1)) ∧
    (∀ σ, (∀ i, (i < Z.to_nat n)%nat → binary (σ (X i))) →
       (∀ c k, c ∈ m_constrs m → c_name c = cover k → holds σ c) ↔
       (∀ e, 1 ≤ e ≤ n →
          ∃ i, (i < Z.to_nat n)%nat ∧ (σ (X i) == 1)%Q ∧ e ∈ elems !!! i)).
Proof.
  intros Hparse. destruct (build_model_parsed _ _ _ _ Hparse) as [m Hm].
  apply parse_tokens_Ok in Hparse
    as (sizes & elems & coeffs & extra & Hlay & Hsub & HA).
  exists sizes, elems, coeffs, extra, m. split_and!; [done..| |].
  all: destruct (parsed_shape _ _ _ _ _ _ _ _ Hlay Hsub HA) as (Hlen & Helems & _ & _).
  all: apply build_model_inv in Hm as (_ & _ & ->); simpl.
  all: assert (∀ k i, (i < Z.to_nat n)%nat →
         Z.of_nat k ∈ subsets !!! i ↔ Z.of_nat k + 1 ∈ elems !!! i) as Hmem.
  1,3: intros k i Hi; subst subsets;
       rewrite (list_lookup_total_fmap internal_set elems i) by lia;
       rewrite <- elem_of_internal_set; by replace (Z.of_nat k + 1 - 1) with (Z.of_nat k) by lia.
  all: assert (∀ k, cover_constr n subsets k
         = Constr (cover k)
             (quicksum (X <$> filter (λ i, Z.of_nat k + 1 ∈ elems !!! i) (seq 0 (Z.to_nat n))))
             GE (LConst 1)) as Hcov.
  1,3: intros k; unfold cover_constr; do 3 f_equal;
       apply filter_ext_in; intros i Hi; apply elem_of_seq in Hi;
       apply Hmem; lia.
  - intros e c He. rewrite elem_of_app. split.
    + intros [[Hin|Hin] Hname].
      * apply list_elem_of_fmap in Hin as (k & -> & Hk). rewrite Hcov in Hname |- *.
        simpl in Hname. injection Hname as ->.
        by replace (Z.of_nat (Z.to_nat (e - 1)) + 1) with e by lia.
      * apply elem_of_concat in Hin as (l & Hc & Hl).
        apply list_elem_of_fmap in Hl as ([i j] & -> & _).
        unfold linearization in Hc. destruct (decide (i = j)).
        -- apply list_elem_of_singleton in Hc. by subst c.
        -- rewrite !elem_of_cons in Hc. destruct Hc as [->|[->|[->|Hnil]]];
             [done..|by apply elem_of_nil in Hnil].
    + intros ->. split; [|done]. left. apply list_elem_of_fmap.
      exists (Z.to_nat (e - 1)). split.
      * rewrite Hcov. by replace (Z.of_nat (Z.to_nat (e - 1)) + 1) with e by lia.
      * apply elem_of_seq. lia.
  - intros σ Hbin. split.
    + intros Hall e He.
      specialize (Hall (cover_constr n subsets (Z.to_nat (e - 1))) (Z.to_nat (e - 1))).
      rewrite Hcov in Hall.
      replace (Z.of_nat (Z.to_nat (e - 1)) + 1) with e in Hall by lia.
      unfold holds in Hall. simpl in Hall. rewrite eval_quicksum in Hall.
      destruct (sumQ_binary σ (X <$> filter (λ i, e ∈ elems !!! i) (seq 0 (Z.to_nat n))))
        as [_ [Hone _]].
      { intros v Hv. apply list_elem_of_fmap in Hv as (i & -> & Hi).
        apply list_elem_of_filter in Hi as [_ Hi]. apply elem_of_seq in Hi.
        apply Hbin. lia. }
      destruct Hone as (v & Hv & Hv1).
      { apply Hall; [|done]. apply elem_of_app. left. apply list_elem_of_fmap.
        exists (Z.to_nat (e - 1)). split.
        - rewrite Hcov. by replace (Z.of_nat (Z.to_nat (e - 1)) + 1) with e by lia.
        - apply elem_of_seq. lia. }
      apply list_elem_of_fmap in Hv as (i & -> & Hi).
      apply list_elem_of_filter in Hi as [He' Hi]. apply elem_of_seq in Hi.
      exists i. split_and!; [lia | done | done].
    + intros Hall c k Hin Hname. apply elem_of_app in Hin as [Hin|Hin].
      * apply list_elem_of_fmap in Hin as (k' & -> & Hk'). apply elem_of_seq in Hk'.
        rewrite Hcov. unfold holds. simpl. rewrite eval_quicksum.
        destruct (Hall (Z.of_nat k' + 1)) as (i & Hi & Hi1 & Hie); [lia|].
        apply sumQ_binary.
        { intros v Hv. apply list_elem_of_fmap in Hv as (i' & -> & Hi').
          apply list_elem_of_filter in Hi' as [_ Hi']. apply elem_of_seq in Hi'.
          apply Hbin. lia. }
        exists (X i). split; [|done]. apply list_elem_of_fmap. exists i. split; [done|].
        apply list_elem_of_filter. split; [done|]. apply elem_of_seq. lia.
      * apply elem_of_concat in Hin as (l & Hc & Hl).
        apply list_elem_of_fmap in Hl as ([i j] & -> & _).
        unfold linearization in Hc. destruct (decide (i = j)).
        -- apply list_elem_of_singleton in Hc. by subst c.
        -- rewrite !elem_of_cons in Hc. destruct Hc as [->|[->|[->|Hnil]]];
             [done..|by apply elem_of_nil in Hnil].
Qed.

(** C6. In the model of a parsed instance the product variables are the
    keys of [A], one continuous [y[i][j]] in [0, 1] per key and none
    besides; and the keys of [A] are the pairs [i <= j] whose coefficient,
    read at the position of [(i, j)] in the row-major order of the upper
    triangle, is not [0.0]. *)
Theorem product_variables {F : Type} `{!PyFloat F} (toks : list string) (n : Z)
    (subsets : list (gset Z)) (A : gmap (nat * nat) F) :
  parse_tokens toks = Ok (n, subsets, A) →
  ∃ sizes elems coeffs extra m,
    instance_layout toks n sizes elems coeffs extra ∧
    build_model n subsets A = Ok m ∧
    (∀ i j a, A !! (i, j) = Some a ↔
       ((i, j), a) ∈ zip (upper_pairs (Z.to_nat n)) coeffs ∧ F_eqb a F_zero = false) ∧
    (∀ i j, is_Some (A !! (i, j)) → (i ≤ j < Z.to_nat n)%nat) ∧
    (∀ d i j, d ∈ m_vars m ∧ v_var d = Y i j ↔
       is_Some (A !! (i, j)) ∧ d = VarDecl (Y i j) 0 1 CONTINUOUS) ∧
    NoDup (m_vars m).
Proof.
  intros Hparse. destruct (build_model_parsed _ _ _ _ Hparse) as [m Hm].
  apply parse_tokens_Ok in Hparse
    as (sizes & elems & coeffs & extra & Hlay & Hsub & HA).
  destruct (parsed_shape _ _ _ _ _ _ _ _ Hlay Hsub HA) as (_ & _ & Hspec & Hkeys).
  exists sizes, elems, coeffs, extra, m. split_and!; [done..| |].
  - intros d i j. by apply (decls_of_Y n subsets A m).
  - apply build_model_inv in Hm as (_ & _ & ->). simpl.
    apply NoDup_app. split_and!.
    + apply NoDup_fmap_2; [|apply NoDup_seq]. by intros ?? [= ->].
    + intros d Hx Hy. apply list_elem_of_fmap in Hx as (k & -> & _).
      by apply list_elem_of_fmap in Hy as ([i j] & ? & _).
    + apply NoDup_fmap_2; [|apply NoDup_fst_map_to_list].
      by intros [??] [??] [= -> ->].
Qed.

(** ** Text: lines and tokens *)

Lemma app_String c s t : String c s +:+ t = String c (s +:+ t).
Proof. done. Qed.

Lemma app_empty_l t : "" +:+ t = t.
Proof. done. Qed.

Lemma app_empty_r s : s +:+ "" = s.
Proof. induction s as [|c s IH]; [done|]. by rewrite app_String, IH. Qed.

Lemma string_app_assoc s t u : (s +:+ t) +:+ u = s +:+ t +:+ u.
Proof. induction s as [|c s IH]; [done|]. by rewrite !app_String, IH. Qed.

Lemma split_cons c s :
  split (String c s)
  = if is_space c then split s
    else match s with
         | EmptyString => [String c EmptyString]
         | String c' _ =>
             if is_space c' then String c EmptyString :: split s
             else match split s with
                  | t :: ts => String c t :: ts
                  | [] => [String c EmptyString]
                  end
         end.
Proof. by destruct s. Qed.

#[local] Arguments split : simpl never.

Lemma split_space c s : is_space c = true → split (String c s) = split s.
Proof. intros Hc. by rewrite split_cons, Hc. Qed.

Lemma split_nonempty c s : is_space c = false → split (String c s) ≠ [].
Proof.
  intros Hc. rewrite split_cons, Hc. destruct s as [|c' s']; [done|].
  destruct (is_space c'); [done|]. by destruct (split (String c' s')).
Qed.

Lemma split_lstrip s : split (lstrip s) = split s.
Proof.
  induction s as [|c s IH]; [done|]. simpl lstrip.
  destruct (is_space c) eqn:Hc; [|done]. by rewrite split_space.
Qed.

Lemma rstrip_head c s c' r : rstrip (String c s) = String c' r → c' = c.
Proof.
  simpl. destruct (rstrip s); [destruct (is_space c)|]; congruence.
Qed.

Lemma split_rstrip s : split (rstrip s) = split s.
Proof.
  induction s as [|c s IH]; [done|].
  change (rstrip (String c s)) with
    (match rstrip s with
     | EmptyString => if is_space c then EmptyString else String c EmptyString
     | String c' r => String c (String c' r)
     end).
  destruct (rstrip s) as [|c' r] eqn:Hr.
  - change (split "") with (@nil string) in IH. destruct (is_space c) eqn:Hc.
    + by rewrite split_space.
    + rewrite !split_cons, Hc. destruct s as [|c1 s1]; [done|].
      rewrite <- IH. by destruct (is_space c1).
  - destruct s as [|c1 s1]; [done|]. apply rstrip_head in Hr as Hc'. subst c'.
    by rewrite (split_cons c (String c1 r)), (split_cons c (String c1 s1)), IH.
Qed.

Lemma split_strip s : split (strip s) = split s.
Proof. unfold strip. by rewrite split_rstrip, split_lstrip. Qed.

Lemma token_stream_cons line lines :
  token_stream (line :: lines) = split line ++ token_stream lines.
Proof.
  unfold token_stream. simpl. f_equal.
  destruct (decide (strip line = "")) as [Hs|]; [|apply split_strip].
  by rewrite <- split_strip, Hs.
Qed.

Lemma readlines_head c s l ls :
  readlines (String c s) = l :: ls → ∃ l', l = String c l'.
Proof.
  simpl. destruct (Ascii.eqb c LF); [naive_solver|].
  destruct (readlines s); naive_solver.
Qed.

Lemma is_space_LF : is_space LF = true.
Proof. done. Qed.

(** The token stream does not depend on how the text is cut into lines. *)
Lemma token_stream_readlines text : token_stream (readlines text) = split text.
Proof.
  induction text as [|c s IH]; [done|].
  change (readlines (String c s)) with
    (if Ascii.eqb c LF then String c EmptyString :: readlines s
     else match readlines s with
          | l :: ls => String c l :: ls
          | [] => [String c EmptyString]
          end).
  destruct (Ascii.eqb_spec c LF) as [->|Hc].
  - rewrite token_stream_cons, IH. by rewrite (split_space LF s).
  - destruct s as [|c1 s1].
    + change (readlines "") with (@nil string). cbv iota.
      rewrite token_stream_cons. apply app_nil_r.
    + destruct (readlines (String c1 s1)) as [|l ls] eqn:Hl.
      { simpl in Hl. destruct (Ascii.eqb c1 LF); [done|]. by destruct (readlines s1). }
      apply readlines_head in Hl as Hl'. destruct Hl' as [l' ->].
      rewrite token_stream_cons in IH |- *.
      rewrite (split_cons c (String c1 l')), (split_cons c (String c1 s1)).
      destruct (is_space c) eqn:Hsp; [done|].
      destruct (is_space c1) eqn:Hsp1.
      * simpl. by rewrite <- IH.
      * rewrite <- IH. pose proof (split_nonempty c1 l' Hsp1).
        by destruct (split (String c1 l')).
Qed.

Lemma split_word_space w c rest :
  word w → is_space c = true → split (w +:+ String c rest) = w :: split rest.
Proof.
  intros [Hne Hns] Hc. induction w as [|a w IH]; [done|].
  simpl in Hns. apply andb_true_iff in Hns as [Ha Hns]. apply negb_true_iff in Ha.
  rewrite app_String. destruct w as [|a' w'].
  - rewrite app_empty_l. by rewrite split_cons, Ha, Hc, (split_space c).
  - specialize (IH ltac:(done) Hns).
    simpl in Hns. apply andb_true_iff in Hns as [Ha' _]. apply negb_true_iff in Ha'.
    rewrite app_String in IH |- *. by rewrite split_cons, Ha, Ha', IH.
Qed.

Lemma split_word w : word w → split w = [w].
Proof.
  intros [Hne Hns]. induction w as [|a w IH]; [done|].
  simpl in Hns. apply andb_true_iff in Hns as [Ha Hns]. apply negb_true_iff in Ha.
  destruct w as [|a' w'].
  - by rewrite split_cons, Ha.
  - specialize (IH ltac:(done) Hns).
    simpl in Hns. apply andb_true_iff in Hns as [Ha' _]. apply negb_true_iff in Ha'.
    by rewrite split_cons, Ha, Ha', IH.
Qed.

(** A written line gives back its words. *)
Lemma split_join_line ws rest :
  Forall word ws → split (join " " ws +:+ nl +:+ rest) = ws ++ split rest.
Proof.
  induction 1 as [|w ws Hw Hws IH].
  - simpl. rewrite app_empty_l. by apply split_space.
  - destruct ws as [|w' ws'].
    + simpl. by apply split_word_space.
    + change (join " " (w :: w' :: ws')) with (w +:+ " " +:+ join " " (w' :: ws')).
      rewrite !string_app_assoc. rewrite app_String, app_empty_l.
      rewrite split_word_space by done. by rewrite IH.
Qed.

Lemma concat_empty_cons l ls : String.concat "" (l :: ls) = l +:+ String.concat "" ls.
Proof. destruct ls as [|l' ls']; simpl; [by rewrite app_empty_r | done]. Qed.

Lemma split_lines wss rest :
  Forall (Forall word) wss →
  split (String.concat "" ((λ ws, join " " ws +:+ nl) <$> wss) +:+ rest)
  = concat wss ++ split rest.
Proof.
  induction 1 as [|ws wss Hws Hwss IH]; [done|].
  rewrite fmap_cons, concat_empty_cons. simpl concat.
  rewrite !string_app_assoc, split_join_line by done.
  by rewrite IH, app_assoc.
Qed.

(** ** Decimal text *)

Lemma digits_only_cons c s :
  digits_only (String c s) = true ↔ is_Some (digit_val c) ∧ digits_only s = true.
Proof. simpl. by rewrite andb_true_iff, bool_decide_eq_true. Qed.

Lemma digits_only_app s t :
  digits_only s = true → digits_only t = true → digits_only (s +:+ t) = true.
Proof.
  intros Hs Ht. induction s as [|c s IH]; [done|].
  apply digits_only_cons in Hs as [Hc Hs]. rewrite app_String.
  apply digits_only_cons. auto.
Qed.

Lemma dec_value_app acc s t :
  digits_only s = true → dec_value acc (s +:+ t) = dec_value (dec_value acc s) t.
Proof.
  revert acc. induction s as [|c s IH]; intros acc Hs; [done|].
  apply digits_only_cons in Hs as [[d Hd] Hs]. rewrite app_String. simpl.
  rewrite Hd. by apply IH.
Qed.

Lemma int_digits_digits acc s :
  digits_only s = true → int_digits acc s = Some (dec_value acc s).
Proof.
  revert acc. induction s as [|c s IH]; intros acc Hs; [done|].
  apply digits_only_cons in Hs as [[d Hd] Hs]. simpl. rewrite Hd. by apply IH.
Qed.

Lemma digit_val_char (c : ascii) (v : Z) :
  digit_val c = Some v →
  c ∈ ["0"; "1"; "2"; "3"; "4"; "5"; "6"; "7"; "8"; "9"]%char.
Proof.
  unfold digit_val. intros H.
  destruct (48 <=? N_of_ascii c)%N eqn:H1; [|done]. apply N.leb_le in H1.
  destruct (N_of_ascii c <=? 57)%N eqn:H2; [|done]. apply N.leb_le in H2.
  rewrite <- (ascii_N_embedding c).
  assert (N_of_ascii c = 48 ∨ N_of_ascii c = 49 ∨ N_of_ascii c = 50 ∨ N_of_ascii c = 51
          ∨ N_of_ascii c = 52 ∨ N_of_ascii c = 53 ∨ N_of_ascii c = 54
          ∨ N_of_ascii c = 55 ∨ N_of_ascii c = 56 ∨ N_of_ascii c = 57)%N as Hc by lia.
  repeat destruct Hc as [->|Hc]; [set_solver..|rewrite Hc; set_solver].
Qed.

Lemma digits_only_no_space s : digits_only s = true → no_space s = true.
Proof.
  induction s as [|c s IH]; [done|]. intros [[d Hd] Hs]%digits_only_cons.
  simpl. rewrite IH by done. rewrite andb_true_r. apply negb_true_iff.
  apply digit_val_char in Hd. set_unfold. by repeat destruct Hd as [->|Hd].
Qed.

Lemma digit_val_pretty x : (x < 10)%N → digit_val (pretty_N_char x) = Some (Z.of_N x).
Proof.
  intros Hx.
  assert (x = 0 ∨ x = 1 ∨ x = 2 ∨ x = 3 ∨ x = 4 ∨ x = 5 ∨ x = 6 ∨ x = 7
          ∨ x = 8 ∨ x = 9)%N as Hcases by lia.
  repeat destruct Hcases as [->|Hcases]; try done. by subst.
Qed.

(** stdpp prints a positive number as its decimal digits. *)
Lemma pretty_N_go_decimal x :
  ∃ d, (∀ s, pretty_N_go x s = d +:+ s) ∧ digits_only d = true ∧
       (∀ acc, dec_value acc d = acc * 10 ^ Z.of_nat (String.length d) + Z.of_N x) ∧
       ((0 < x)%N → d ≠ "").
Proof.
  induction (N.lt_wf_0 x) as [x _ IH].
  destruct (decide (x = 0)%N) as [->|Hx].
  - exists "". split_and!; [done | done | intros; simpl; lia | lia].
  - destruct (IH (x `div` 10)%N) as (d & Hd & Hdig & Hval & _).
    { apply N.div_lt; lia. }
    exists (d +:+ String (pretty_N_char (x `mod` 10)) "").
    assert ((x `mod` 10 < 10)%N) as Hmod by (apply N.mod_lt; lia).
    split_and!.
    + intros s. rewrite pretty_N_go_step by lia. rewrite Hd.
      by rewrite string_app_assoc.
    + apply digits_only_app; [done|]. apply digits_only_cons.
      rewrite digit_val_pretty by done. split; [by eexists | done].
    + intros acc. rewrite dec_value_app by done. simpl.
      rewrite digit_val_pretty, Hval by done.
      assert (String.length (d +:+ String (pretty_N_char (x `mod` 10)) "")
              = S (String.length d)) as ->.
      { clear. induction d as [|c d IH]; [done|]. rewrite app_String. simpl. by rewrite IH. }
      rewrite Nat2Z.inj_succ, Z.pow_succ_r by lia.
      pose proof (N.div_mod x 10 ltac:(done)) as Hdm.
      assert (Z.of_N x = 10 * Z.of_N (x `div` 10) + Z.of_N (x `mod` 10)) as -> by lia.
      lia.
    + intros _. by destruct d.
Qed.

Lemma nat_literal_digits d :
  d ≠ "" → digits_only d = true → nat_literal d = Some (dec_value 0 d).
Proof.
  destruct d as [|c d]; [done|]. intros _ [[v Hv] Hd]%digits_only_cons.
  simpl. rewrite Hv. by apply int_digits_digits.
Qed.

Lemma int_literal_digits d :
  d ≠ "" → digits_only d = true → int_literal d = Some (dec_value 0 d).
Proof.
  intros Hne Hd. rewrite <- nat_literal_digits by done.
  destruct d as [|c d]; [done|]. apply digits_only_cons in Hd as [[v Hv] _].
  unfold int_literal.
  destruct (Ascii.eqb_spec c "-"%char) as [->|_]; [done|].
  by destruct (Ascii.eqb_spec c "+"%char) as [->|_].
Qed.

Lemma pretty_pos_decimal p :
  ∃ d, pretty (Z.pos p) = d ∧ d ≠ "" ∧ digits_only d = true ∧
       dec_value 0 d = Z.pos p.
Proof.
  destruct (pretty_N_go_decimal (N.pos p)) as (d & Hd & Hdig & Hval & Hne).
  exists d. split_and!; [|by apply Hne|done|by rewrite Hval].
  unfold pretty, pretty_Z, pretty, pretty_positive, pretty, pretty_N.
  rewrite decide_False by done. by rewrite Hd, app_empty_r.
Qed.

(** [int(str(k)) == k] *)
Lemma int_literal_py_str k : int_literal (py_str k) = Some k.
Proof.
  unfold py_str. destruct k as [|p|p].
  - done.
  - destruct (pretty_pos_decimal p) as (d & -> & Hne & Hdig & Hval).
    by rewrite int_literal_digits, Hval.
  - destruct (pretty_pos_decimal p) as (d & Hd & Hne & Hdig & Hval).
    change (pretty (Z.neg p)) with ("-" +:+ pretty (Z.pos p)).
    rewrite Hd, app_String, app_empty_l. unfold int_literal.
    rewrite (proj2 (Ascii.eqb_eq _ _) eq_refl).
    by rewrite nat_literal_digits, Hval.
Qed.

(** [str(k)] is one token. *)
Lemma word_py_str k : word (py_str k).
Proof.
  unfold py_str. destruct k as [|p|p].
  - done.
  - destruct (pretty_pos_decimal p) as (d & -> & Hne & Hdig & Hval).
    split; [done | by apply digits_only_no_space].
  - destruct (pretty_pos_decimal p) as (d & Hd & Hne & Hdig & Hval).
    change (pretty (Z.neg p)) with ("-" +:+ pretty (Z.pos p)).
    rewrite Hd, app_String, app_empty_l. split; [done|].
    simpl. by apply digits_only_no_space.
Qed.

(** ** binary64 reads back the ints it converts *)

Lemma digits2_pos_bound (m : positive) :
  2 ^ (Z.pos (digits2_pos m) - 1) ≤ Z.pos m < 2 ^ Z.pos (digits2_pos m).
Proof.
  induction m as [m IH|m IH|]; simpl digits2_pos; [| |done].
  - rewrite Pos2Z.inj_succ, Z.pow_succ_r by lia.
    replace (Z.succ (Z.pos (digits2_pos m)) - 1)
      with (Z.succ (Z.pos (digits2_pos m) - 1)) by lia.
    rewrite Z.pow_succ_r by lia. lia.
  - rewrite Pos2Z.inj_succ, Z.pow_succ_r by lia.
    replace (Z.succ (Z.pos (digits2_pos m)) - 1)
      with (Z.succ (Z.pos (digits2_pos m) - 1)) by lia.
    rewrite Z.pow_succ_r by lia. lia.
Qed.

Lemma shr_1_m (mrs : shr_record) :
  0 ≤ shr_m mrs → shr_m (shr_1 mrs) = shr_m mrs `div` 2.
Proof.
  destruct mrs as [[|[p|p|]|p] r s]; simpl; intros Hm; try done.
  - apply Z.div_unique with 1; lia.
  - apply Z.div_unique with 0; lia.
Qed.

Lemma iter_shr_1_m (p : positive) (mrs : shr_record) :
  0 ≤ shr_m mrs → shr_m (SpecFloat.iter_pos shr_1 p mrs) = shr_m mrs `div` 2 ^ Z.pos p.
Proof.
  revert mrs. induction p as [p IH|p IH|]; intros mrs Hm.
  - change (SpecFloat.iter_pos shr_1 p~1 mrs)
      with (SpecFloat.iter_pos shr_1 p (SpecFloat.iter_pos shr_1 p (shr_1 mrs))).
    assert (0 ≤ shr_m (shr_1 mrs)) as H1.
    { rewrite shr_1_m by done. apply Z.div_pos; lia. }
    assert (0 ≤ shr_m (SpecFloat.iter_pos shr_1 p (shr_1 mrs))) as H2.
    { rewrite IH by done. apply Z.div_pos; lia. }
    rewrite IH, IH, shr_1_m by done.
    rewrite !Z.div_div by lia. f_equal.
    rewrite Pos2Z.inj_xI, <- Z.pow_add_r, <- (Z.pow_succ_r 2) by lia. f_equal. lia.
  - change (SpecFloat.iter_pos shr_1 p~0 mrs)
      with (SpecFloat.iter_pos shr_1 p (SpecFloat.iter_pos shr_1 p mrs)).
    assert (0 ≤ shr_m (SpecFloat.iter_pos shr_1 p mrs)) as H2.
    { rewrite IH by done. apply Z.div_pos; lia. }
    rewrite IH, IH by done.
    rewrite !Z.div_div by lia. f_equal.
    rewrite Pos2Z.inj_xO, <- Z.pow_add_r by lia. f_equal. lia.
  - change (SpecFloat.iter_pos shr_1 1 mrs) with (shr_1 mrs).
    by rewrite shr_1_m.
Qed.

(** Rounding a positive mantissa at an exponent far from the subnormal
    range leaves a positive mantissa. *)
Lemma shr_fexp_pos (m e : Z) (l : location) :
  0 < m → -1000 ≤ e →
  0 < shr_m (shr_fexp binary64.prec binary64.emax m e l).1 ∧
  -1000 ≤ (shr_fexp binary64.prec binary64.emax m e l).2.
Proof.
  intros Hm He. unfold shr_fexp, fexp, emin, binary64.prec, binary64.emax.
  destruct m as [|p|p]; [lia| |lia]. unfold Zdigits2.
  pose proof (digits2_pos_bound p) as [Hlo Hhi].
  set (d := Z.pos (digits2_pos p)) in *.
  assert (0 < d) as Hd by (unfold d; lia).
  replace (Z.max (d + e - 53) (3 - 1024 - 53) - e) with (d - 53) by lia.
  assert (shr_m (shr_record_of_loc (Z.pos p) l) = Z.pos p) as Hrec
    by (by destruct l as [|[]]).
  unfold shr. destruct (d - 53) as [|k|k] eqn:Hk; simpl; rewrite ?Hrec; try lia.
  rewrite iter_shr_1_m by (rewrite Hrec; lia). rewrite Hrec. split; [|lia].
  apply Z.div_str_pos. split; [lia|].
  transitivity (2 ^ (d - 1)); [|done]. apply Z.pow_le_mono_r; lia.
Qed.

Lemma binary_round_aux_nonzero (sx : bool) (m e : Z) (l : location) :
  0 < m → -1000 ≤ e →
  SFeqb (binary_round_aux binary64.prec binary64.emax sx m e l) (S754_zero false) = false.
Proof.
  intros Hm He. unfold binary_round_aux.
  pose proof (shr_fexp_pos m e l Hm He) as [H1 H1'].
  destruct (shr_fexp binary64.prec binary64.emax m e l) as [mrs' e']. simpl in H1, H1'.
  set (m' := round_nearest_even (shr_m mrs') (loc_of_shr_record mrs')).
  assert (0 < m') as Hm'.
  { unfold m', round_nearest_even.
    destruct (loc_of_shr_record mrs') as [|[]]; try lia.
    destruct (Z.even (shr_m mrs')); lia. }
  pose proof (shr_fexp_pos m' e' loc_Exact Hm' H1') as [H2 _].
  destruct (shr_fexp binary64.prec binary64.emax m' e' loc_Exact) as [mrs'' e''].
  simpl in H2. destruct (shr_m mrs'') as [|q|q]; [lia| |lia].
  by destruct (e'' <=? _), sx.
Qed.

Lemma of_Z_zero (v : Z) :
  SFeqb (binary64.of_Z v) (S754_zero false) = true ↔ v = 0.
Proof.
  split; [|by intros ->].
  destruct v as [|p|p]; [done| |]; intros H; exfalso.
  all: unfold binary64.of_Z, binary_normalize, binary_round in H.
  all: destruct (shl_align _ _ _) as [mz ez] eqn:Hal.
  all: rewrite binary_round_aux_nonzero in H; [done|lia|].
  all: unfold shl_align in Hal.
  all: destruct (fexp _ _ _ - 0) eqn:Hf; simplify_eq; try lia.
  all: unfold fexp, emin, binary64.prec, binary64.emax in *; lia.
Qed.

Lemma digits_tl_digits (d : string) :
  digits_only d = true →
  ∃ ds, binary64.digits_tl d = (ds, "") ∧
        ∀ acc, foldl (λ a x, 10 * a + x) acc ds = dec_value acc d.
Proof.
  induction d as [|c d IH]; [by exists []|].
  intros [[v Hv] Hd]%digits_only_cons. destruct (IH Hd) as (ds & Hds & Hval).
  exists (v :: ds). simpl. rewrite Hv, Hds. split; [done|]. intros acc. apply Hval.
Qed.

Lemma number_digits (d : string) :
  d ≠ "" → digits_only d = true →
  ∃ ds, binary64.number d = Some (ds, 0, "") ∧ binary64.digits_value ds = dec_value 0 d.
Proof.
  destruct d as [|c d]; [done|]. intros _ [[v Hv] Hd]%digits_only_cons.
  destruct (digits_tl_digits d Hd) as (ds & Hds & Hval).
  exists (v :: ds). unfold binary64.number, binary64.digitpart. rewrite Hv, Hds.
  split; [done|]. unfold binary64.digits_value. simpl. rewrite Hv. apply Hval.
Qed.

Lemma literal_digits (neg : bool) (d : string) :
  d ≠ "" → digits_only d = true →
  binary64.literal ((if neg then "-" else "") +:+ d)
  = Some (binary64.of_decimal neg (dec_value 0 d) 0).
Proof.
  intros Hne Hd. destruct (number_digits d Hne Hd) as (ds & Hnum & Hval).
  assert (∃ c d', d = String c d' ∧
            c ∈ ["0"; "1"; "2"; "3"; "4"; "5"; "6"; "7"; "8"; "9"]%char)
    as (c & d' & -> & Hc).
  { destruct d as [|c d']; [done|]. apply digits_only_cons in Hd as [[v Hv] _].
    exists c, d'. split; [done|]. by eapply digit_val_char. }
  assert (binary64.literal ((if neg then "-" else "") +:+ String c d')
          = (let low := binary64.lowercase (String c d') in
             if decide (low = "inf" ∨ low = "infinity") then Some (S754_infinity neg)
             else if decide (low = "nan") then Some S754_nan
             else match binary64.number (String c d') with
                  | Some (ds, nfrac, rest) =>
                      match binary64.exponent rest with
                      | Some ex => Some (binary64.of_decimal neg (binary64.digits_value ds)
                                                             (ex - nfrac))
                      | None => None
                      end
                  | None => None
                  end)) as ->.
  { destruct neg; [done|]. set_unfold. 
    repeat destruct Hc as [->|Hc]; try done. }
  cbv zeta. rewrite Hnum.
  assert (∀ s, binary64.lowercase (String c d') ≠ String "i" s
               ∧ binary64.lowercase (String c d') ≠ String "n" s) as Hlow.
  { intros s. set_unfold. repeat destruct Hc as [->|Hc]; try done. }
  rewrite decide_False by (intros [H|H]; by apply Hlow in H).
  rewrite decide_False by (intros H; by apply Hlow in H).
  simpl binary64.exponent. cbv iota beta. by rewrite Hval.
Qed.

Lemma binary64_float_reads (v : Z) : float_reads (F:=spec_float) v.
Proof.
  split; [|apply of_Z_zero]. unfold py_str. simpl F_literal. simpl F_of_Z.
  destruct v as [|p|p].
  - vm_compute. reflexivity.
  - destruct (pretty_pos_decimal p) as (d & -> & Hne & Hdig & Hval).
    rewrite (literal_digits false d Hne Hdig : binary64.literal d = _), Hval.
    unfold binary64.of_decimal, binary64.of_Z.
    rewrite decide_False, decide_True by done. by rewrite Z.mul_1_r.
  - destruct (pretty_pos_decimal p) as (d & Hd & Hne & Hdig & Hval).
    change (pretty (Z.neg p)) with ("-" +:+ pretty (Z.pos p)). rewrite Hd.
    rewrite (literal_digits true d Hne Hdig : binary64.literal ("-" +:+ d) = _), Hval.
    unfold binary64.of_decimal, binary64.of_Z.
    rewrite decide_False, decide_True by done. by rewrite Z.mul_1_r.
Qed.

(** ** The rows of the matrix and the keys of the dictionary *)

Lemma elem_of_zip_row a len (row : list Z) i j v :
  length row = len →
  ((i, j), v) ∈ zip (pair a <$> seq a len) row ↔
  i = a ∧ (a ≤ j)%nat ∧ row !! (j - a)%nat = Some v.
Proof.
  intros Hlen. rewrite elem_of_lookup_zip_with. split.
  - intros (t & x & y & [= <- <-] & Hx & Hy).
    apply list_lookup_fmap_Some in Hx as (j' & Hij & Hj').
    apply lookup_seq in Hj' as [-> Ht]. simplify_eq.
    split_and!; [done | lia |]. by replace (a + t - a)%nat with t by lia.
  - intros (-> & Hj & Hv). exists (j - a)%nat, (a, j), v. split_and!; [done| |done].
    apply list_lookup_fmap_Some. exists j. split; [done|].
    apply lookup_seq. apply lookup_lt_Some in Hv. split; lia.
Qed.

Lemma elem_of_zip_rows N a (rows : list (list Z)) i j v :
  (∀ r row, rows !! r = Some row → length row = (N - (a + r))%nat) →
  ((i, j), v) ∈ zip (flat_map (λ i, pair i <$> seq i (N - i)) (seq a (length rows)))
                    (concat rows) ↔
  (a ≤ i)%nat ∧ (i ≤ j)%nat ∧
  ∃ row, rows !! (i - a)%nat = Some row ∧ row !! (j - i)%nat = Some v.
Proof.
  revert a. induction rows as [|row rows IH]; intros a Hshape.
  - simpl. split; [intros H; by apply elem_of_nil in H | naive_solver].
  - assert (length row = (N - a)%nat) as Hrow.
    { rewrite (Hshape 0%nat row) by done. f_equal. lia. }
    assert (∀ r row', rows !! r = Some row' → length row' = (N - (S a + r))%nat) as Hshape'.
    { intros r row' Hr. rewrite (Hshape (S r) row') by done. f_equal. lia. }
    simpl. rewrite zip_with_app by (by rewrite length_fmap, length_seq).
    rewrite elem_of_app.
    rewrite (elem_of_zip_row a (N - a) row) by done.
    rewrite (IH (S a) Hshape'). split.
    + intros [(-> & Hj & Hv)|(Hi & Hj & row' & Hr & Hv)].
      * split_and!; [lia..|]. exists row. by rewrite Nat.sub_diag.
      * split_and!; [lia..|]. exists row'. split; [|done].
        by replace (i - a)%nat with (S (i - S a)) by lia.
    + intros (Hi & Hj & row' & Hr & Hv).
      destruct (decide (i = a)) as [->|Hne].
      * left. rewrite Nat.sub_diag in Hr. simpl in Hr. by simplify_eq.
      * right. split_and!; [lia..|]. exists row'. split; [|done].
        by replace (i - a)%nat with (S (i - S a)) in Hr by lia.
Qed.

Lemma length_concat_rows N a (rows : list (list Z)) :
  (∀ r row, rows !! r = Some row → length row = (N - (a + r))%nat) →
  length (concat rows)
  = length (flat_map (λ i, pair i <$> seq i (N - i)) (seq a (length rows))).
Proof.
  revert a. induction rows as [|row rows IH]; intros a Hshape; [done|].
  simpl. rewrite !length_app, length_fmap, length_seq.
  rewrite (Hshape 0%nat row) by done. rewrite (IH (S a)).
  - f_equal. f_equal. lia.
  - intros r row' Hr. rewrite (Hshape (S r) row') by done. f_equal. lia.
Qed.

Lemma elem_of_zip_fmap_r {X Y V} (f : Y → V) (xs : list X) (ys : list Y) x a :
  (x, a) ∈ zip xs (f <$> ys) ↔ ∃ y, a = f y ∧ (x, y) ∈ zip xs ys.
Proof.
  rewrite elem_of_lookup_zip_with.
  setoid_rewrite elem_of_lookup_zip_with. split.
  - intros (t & x' & a' & [= <- <-] & Hx & Ha).
    apply list_lookup_fmap_Some in Ha as (y & -> & Hy). naive_solver.
  - intros (y & -> & t & x' & y' & [= <- <-] & Hx & Hy).
    exists t, x, (f y). split_and!; [done..|]. by rewrite list_lookup_fmap, Hy.
Qed.

(** ** Writing an instance and reading it back *)

Lemma index_Some {X} (l : list X) i x : l !! i = Some x → index l i = Ok x.
Proof. intros Hx. unfold index. by rewrite Hx. Qed.

Lemma forR_index {X B} (f : X → B) (l : list X) a k :
  (a + k ≤ length l)%nat →
  forR (λ i, x ← index l i; Ok (f x)) (seq a k) = Ok (f <$> take k (drop a l)).
Proof.
  revert a. induction k as [|k IH]; intros a Hlen; [done|].
  destruct (l !! a) as [x|] eqn:Hx.
  2:{ apply lookup_ge_None in Hx. lia. }
  cbn [seq forR]. rewrite (index_Some _ _ _ Hx). cbn [mbind result_mbind result_bind].
  rewrite IH by lia. cbn [result_bind].
  by rewrite (drop_S _ _ _ Hx).
Qed.

Section RoundTrip.
Context {F : Type} `{!PyFloat F} `{!SetIteration} `{!SetIterationLaw}.

Lemma sorted_perm (s : gset Z) : sorted s ≡ₚ elements s.
Proof. unfold sorted. by rewrite merge_sort_Permutation, set_iter_perm. Qed.

Lemma length_sorted (s : gset Z) : length (sorted s) = size s.
Proof. by rewrite sorted_perm. Qed.

Lemma elem_of_sorted (s : gset Z) k : k ∈ sorted s ↔ k ∈ s.
Proof. by rewrite sorted_perm, elem_of_elements. Qed.

Lemma internal_set_sorted (s : gset Z) :
  internal_set (sorted s) = set_map (λ k, k - 1) s.
Proof.
  unfold internal_set, set_map. apply list_to_set_perm_L.
  by rewrite sorted_perm.
Qed.

Lemma write_instance_Ok (n : Z) (sets : list (gset Z)) (A_rows : list (list Z)) :
  length A_rows = Z.to_nat n →
  write_instance n sets A_rows = Ok (instance_text n sets A_rows).
Proof.
  intros Hlen. unfold write_instance.
  rewrite (forR_index (λ row, join " " (py_str <$> row) +:+ nl)) by (simpl; lia).
  simpl. by rewrite drop_0, take_ge by lia.
Qed.

(** Its tokens: [n], the sizes, the elements of each set in ascending
    order, the rows of the matrix. *)
Lemma split_instance_text (n : Z) (sets : list (gset Z)) (A_rows : list (list Z)) :
  split (instance_text n sets A_rows)
  = py_str n
    :: ((λ s : gset Z, py_str (Z.of_nat (size s))) <$> sets)
    ++ concat ((λ s : gset Z, py_str <$> sorted s) <$> sets)
    ++ concat ((λ row : list Z, py_str <$> row) <$> A_rows) ++ [].
Proof.
  unfold instance_text.
  change (py_str n) with (join " " [py_str n]) at 1.
  rewrite split_join_line by (repeat constructor; apply word_py_str). simpl. f_equal.
  rewrite split_join_line.
  2:{ apply Forall_fmap, Forall_forall. intros s _. apply word_py_str. }
  f_equal.
  replace ((λ s : gset Z, join " " (py_str <$> sorted s) +:+ nl) <$> sets)
    with ((λ ws, join " " ws +:+ nl) <$> ((λ s : gset Z, py_str <$> sorted s) <$> sets))
    by (by rewrite <- list_fmap_compose).
  rewrite split_lines.
  2:{ apply Forall_fmap, Forall_forall. intros s _.
      apply Forall_fmap, Forall_forall. intros k _. apply word_py_str. }
  f_equal.
  replace ((λ row : list Z, join " " (py_str <$> row) +:+ nl) <$> A_rows)
    with ((λ ws, join " " ws +:+ nl) <$> ((λ row : list Z, py_str <$> row) <$> A_rows))
    by (by rewrite <- list_fmap_compose).
  rewrite <- (app_empty_r (String.concat "" _)).
  rewrite split_lines; [done|].
  apply Forall_fmap, Forall_forall. intros row _.
  apply Forall_fmap, Forall_forall. intros k _. apply word_py_str.
Qed.
End RoundTrip.

(** C3, amended. Reading back what [write_instance] wrote for [n] sets
    over [1..n] and an upper-triangular integer matrix given by rows
    returns [n], each covering set with every element lowered by one (the
    parser's 0-based indexing), and the dictionary that sends [(i, j)],
    [i <= j], to [float(A_rows[i][j-i])] for exactly the entries that are
    not zero. *)
Theorem write_parse_roundtrip {F : Type} `{!PyFloat F} `{!SetIteration}
    `{!SetIterationLaw} (n : Z) (sets : list (gset Z)) (A_rows : list (list Z)) :
  n = Z.of_nat (length sets) →
  Forall (λ s : gset Z, ∀ k, k ∈ s → 1 ≤ k ≤ n) sets →
  length A_rows = length sets →
  (∀ i row, A_rows !! i = Some row → length row = (length sets - i)%nat) →
  Forall (Forall float_reads) A_rows →
  ∃ text (A : gmap (nat * nat) F),
    write_instance n sets A_rows = Ok text ∧
    parse_instance text = Ok (n, set_map (λ k, k - 1) <$> sets, A) ∧
    ∀ i j a, A !! (i, j) = Some a ↔
      ∃ row v, A_rows !! i = Some row ∧ (i ≤ j)%nat ∧
               row !! (j - i)%nat = Some v ∧ v ≠ 0 ∧ a = F_of_Z v.
Proof.
  intros Hn Hrange Hrows Hshape Hreads.
  assert (Z.to_nat n = length sets) as HN by lia.
  assert (∀ r row, A_rows !! r = Some row → length row = (length sets - (0 + r))%nat)
    as Hshape0 by (intros; by apply Hshape).
  assert (length (F_of_Z <$> concat A_rows) = Z.to_nat ((n * (n + 1)) `div` 2)) as Hclen.
  { rewrite length_fmap, (length_concat_rows (length sets) 0) by done.
    rewrite needed_upper_pairs by lia. by rewrite HN, Hrows. }
  destruct (build_A_needed n (F_of_Z <$> concat A_rows) Hclen) as (A & HA & Hspec).
  exists (instance_text n sets A_rows), A. split_and!.
  - apply write_instance_Ok. lia.
  - unfold parse_instance. rewrite token_stream_readlines, split_instance_text.
    apply parse_tokens_Ok.
    exists ((λ s : gset Z, Z.of_nat (size s)) <$> sets), (sorted <$> sets),
           (F_of_Z <$> concat A_rows), []. split_and!; [| |done].
    + exists (py_str n), ((λ s : gset Z, py_str (Z.of_nat (size s))) <$> sets),
             ((λ s : gset Z, py_str <$> sorted s) <$> sets),
             (concat ((λ row : list Z, py_str <$> row) <$> A_rows)).
      split_and!; [done | apply int_literal_py_str | | | | | | done].
      * apply Forall2_fmap, Forall_Forall2_diag, Forall_forall. intros s _.
        apply int_literal_py_str.
      * rewrite length_fmap. lia.
      * apply Forall2_fmap, Forall_Forall2_diag.
        eapply Forall_impl; [exact Hrange|]. intros s Hs.
        apply Forall2_fmap_l, Forall_Forall2_diag, Forall_forall. intros k Hk.
        split; [apply int_literal_py_str|]. apply Hs. by apply elem_of_sorted.
      * apply Forall2_fmap, Forall_Forall2_diag, Forall_forall. intros s _.
        rewrite length_sorted. lia.
      * unfold float_tokens.
        replace (concat ((λ row : list Z, py_str <$> row) <$> A_rows))
          with (py_str <$> concat A_rows).
        2:{ clear. induction A_rows as [|row rows IH]; [done|].
            simpl. by rewrite fmap_app, IH. }
        apply Forall2_fmap, Forall_Forall2_diag.
        clear -Hreads. induction Hreads as [|row rows Hrow _ IH]; [constructor|].
        simpl. apply Forall_app. split; [|done].
        eapply Forall_impl; [exact Hrow|]. by intros v [Hv _].
    + rewrite <- list_fmap_compose. apply list_fmap_ext. intros _ s _. simpl.
      symmetry. apply internal_set_sorted.
  - intros i j a. rewrite Hspec, elem_of_zip_fmap_r. unfold upper_pairs.
    rewrite HN. replace (seq 0 (length sets)) with (seq 0 (length A_rows))
      by (by rewrite Hrows).
    split.
    + intros [(v & -> & Hin) Hnz].
      apply (elem_of_zip_rows (length sets) 0 A_rows) in Hin
        as (_ & Hij & row & Hrow & Hv); [|done].
      rewrite Nat.sub_0_r in Hrow. exists row, v. split_and!; [done..| |done].
      intros ->. rewrite Forall_forall in Hreads.
      assert (float_reads (F:=F) 0) as [_ Hz].
      { assert (Forall float_reads row) as Hr.
        { apply Hreads. by eapply list_elem_of_lookup_2. }
        rewrite Forall_forall in Hr. apply Hr. by eapply list_elem_of_lookup_2. }
      rewrite (proj2 Hz eq_refl) in Hnz. done.
    + intros (row & v & Hrow & Hij & Hv & Hnz & ->). split.
      * exists v. split; [done|].
        apply (elem_of_zip_rows (length sets) 0 A_rows); [done|].
        split_and!; [lia | done |]. exists row. by rewrite Nat.sub_0_r.
      * rewrite Forall_forall in Hreads.
        assert (float_reads (F:=F) v) as [_ Hz].
        { assert (Forall float_reads row) as Hr.
          { apply Hreads. by eapply list_elem_of_lookup_2. }
          rewrite Forall_forall in Hr. apply Hr. by eapply list_elem_of_lookup_2. }
        destruct (F_eqb (F_of_Z v) F_zero); [|done]. by destruct Hnz; apply Hz.
Qed.

(** ** Tokens that follow a complete instance *)

Lemma split_app_space a c b :
  is_space c = true → split (a +:+ String c b) = split a ++ split b.
Proof.
  intros Hc. induction a as [|x a IH].
  - rewrite app_empty_l. by rewrite split_space.
  - rewrite app_String, split_cons, (split_cons x a).
    destruct (is_space x) eqn:Hx; [done|].
    destruct a as [|y a'].
    + rewrite app_empty_l, Hc, split_space by done. done.
    + rewrite app_String in IH |- *. destruct (is_space y) eqn:Hy.
      * by rewrite IH.
      * rewrite IH. pose proof (split_nonempty y a' Hy).
        by destruct (split (String y a')).
Qed.

Section Surplus.
Context {F : Type} `{!PyFloat F}.

Lemma parse_tokens_app (toks more : list string) (n : Z) (subsets : list (gset Z))
    (A : gmap (nat * nat) F) :
  parse_tokens toks = Ok (n, subsets, A) →
  parse_tokens (toks ++ more) = Ok (n, subsets, A).
Proof.
  rewrite !parse_tokens_Ok.
  intros (sizes & elems & coeffs & extra & Hlay & Hsub & HA).
  exists sizes, elems, coeffs, (extra ++ more). split_and!; [|done..].
  destruct Hlay as (tok_n & size_toks & chunks & coeff_toks & -> & Hrest).
  exists tok_n, size_toks, chunks, coeff_toks. split; [|done].
  simpl. by rewrite <- !app_assoc.
Qed.
End Surplus.

(** C10. A file that parses still parses, to the same [n], covering sets
    and dictionary, when any tokens are appended to its token stream, and
    when any text is appended to it after a line feed: what follows the
    [n(n+1)/2] coefficients is never read. *)
Theorem surplus_tokens_ignored {F : Type} `{!PyFloat F} (text : string) (n : Z)
    (subsets : list (gset Z)) (A : gmap (nat * nat) F) :
  parse_instance text = Ok (n, subsets, A) →
  (∀ more, parse_tokens (token_stream (readlines text) ++ more) = Ok (n, subsets, A)) ∧
  (∀ extra, parse_instance (text +:+ nl +:+ extra) = Ok (n, subsets, A)).
Proof.
  unfold parse_instance. intros Hparse. split.
  - intros more. by apply parse_tokens_app.
  - intros extra. rewrite token_stream_readlines in Hparse |- *.
    unfold nl. rewrite app_String, app_empty_l, split_app_space by done.
    by apply parse_tokens_app.
Qed.

(** C4, amended. [parse_instance] returns a result exactly on the token
    streams laid out as the format asks, whatever follows them. On every
    other stream it raises and returns nothing: the [ValueError] of the
    section where the stream ends (no [n], sizes, elements of [S_i],
    matrix) or of an element outside [1..n], each with its own message; or,
    at the first token that is not a numeric literal, the [ValueError] of
    [int] or [float], whose message names the token and not the section. *)
Theorem parse_failures {F : Type} `{!PyFloat F} (text : string) :
  (∀ e, parse_instance (F:=F) text = Raise e ↔
        parse_failure (token_stream (readlines text)) e) ∧
  (∀ n subsets A, parse_instance text = Ok (n, subsets, A) ↔
     ∃ sizes elems coeffs extra,
       instance_layout (token_stream (readlines text)) n sizes elems coeffs extra ∧
       subsets = internal_set <$> elems ∧ build_A n coeffs = Ok A).
Proof.
  unfold parse_instance. split.
  - intros e. split; [apply parse_failure_sound | apply parse_failure_complete].
  - intros n subsets A. apply parse_tokens_Ok.
Qed.

(** ** Loops that cannot raise *)

Lemma repeatM_total {St B} (P : B → Prop) (k : nat) (body : Py St B) :
  (∀ s, ∃ b s', body s = Ok (b, s') ∧ P b) →
  ∀ s, ∃ bs s', repeatM k body s = Ok (bs, s') ∧ length bs = k ∧ Forall P bs.
Proof.
  intros Hbody. induction k as [|k IH]; intros s; simpl.
  - exists [], s. by repeat constructor.
  - destruct (Hbody s) as (b & s1 & Hb & HP).
    destruct (IH s1) as (bs & s2 & Hbs & Hlen & Hall).
    exists (b :: bs), s2. unfold py_bind. rewrite Hb, Hbs. simpl.
    split_and!; [done | by rewrite Hlen | by constructor].
Qed.

Lemma forM_total {St X B} (P : X → B → Prop) (body : X → Py St B) (xs : list X) :
  (∀ x s, x ∈ xs → ∃ b s', body x s = Ok (b, s') ∧ P x b) →
  ∀ s, ∃ bs s', forM body xs s = Ok (bs, s') ∧ Forall2 P xs bs.
Proof.
  induction xs as [|x xs IH]; intros Hbody s; simpl.
  - exists [], s. by repeat constructor.
  - destruct (Hbody x s) as (b & s1 & Hb & HP); [by constructor|].
    destruct (IH (λ x' s' Hx', Hbody x' s' (list_elem_of_further _ _ _ Hx')) s1)
      as (bs & s2 & Hbs & Hall).
    exists (b :: bs), s2. unfold py_bind. rewrite Hb, Hbs. simpl.
    split; [done | by constructor].
Qed.

Lemma foldM_total {St A X} (I : A → Prop) (body : A → X → Py St A) (xs : list X) :
  (∀ a x s, I a → x ∈ xs → ∃ a' s', body a x s = Ok (a', s') ∧ I a') →
  ∀ acc s, I acc → ∃ a s', foldM body acc xs s = Ok (a, s') ∧ I a.
Proof.
  induction xs as [|x xs IH]; intros Hbody acc s Hacc; simpl.
  - by exists acc, s.
  - destruct (Hbody acc x s Hacc) as (a1 & s1 & Ha1 & HI1); [by constructor|].
    destruct (IH (λ a x' s' Ha Hx', Hbody a x' s' Ha (list_elem_of_further _ _ _ Hx'))
                 a1 s1 HI1) as (a2 & s2 & Ha2 & HI2).
    exists a2, s2. unfold py_bind. by rewrite Ha1.
Qed.

(** ** The matrix generator *)

Section MatrixGenerator.
Context {F R : Type} `{!PyFloat F} `{!RandomSource F R}.

Lemma draw_nonzero_total (range : Z * Z) (r : R) :
  range.1 ≤ range.2 →
  ∃ a r', draw_nonzero range r = Ok (a, r') ∧ a ≠ 0.
Proof.
  intros Hrange.
  unfold draw_nonzero, mbind, Py_mbind, mret, Py_ret, py_bind, randint, random, py_ret.
  rewrite (decide_True (P := range.1 ≤ range.2)) by done.
  destruct (rng_randint range.1 range.2 r) as [a r1].
  destruct (decide (a = 0)) as [->|Ha].
  - destruct (rng_random r1) as [u r2]. exists (if F_ltb u F_half then 1 else -1), r2.
    split; [done|]. by destruct (F_ltb u F_half).
  - by exists a, r1.
Qed.

(** The value drawn is kept unless it is zero, and then it is 1 or -1. *)
Lemma draw_nonzero_value (range : Z * Z) (r : R) a r' :
  draw_nonzero range r = Ok (a, r') →
  let d := (rng_randint range.1 range.2 r).1 in
  (d ≠ 0 → a = d) ∧ (d = 0 → a = 1 ∨ a = -1).
Proof.
  unfold draw_nonzero, mbind, Py_mbind, mret, Py_ret, py_bind, randint, random, py_ret.
  destruct (decide (range.1 ≤ range.2)); [|done].
  destruct (rng_randint range.1 range.2 r) as [d r1]. simpl.
  destruct (decide (d = 0)) as [->|Hd].
  - destruct (rng_random r1) as [u r2]. intros [= <- <-].
    split; [done|]. intros _. destruct (F_ltb u F_half); auto.
  - intros [= <- <-]. split; [done|]. by intros ->.
Qed.

Lemma off_diagonal_total (density : F) (range : Z * Z) (r : R) :
  range.1 ≤ range.2 →
  ∃ a r', (u ← random; if F_ltb u density then draw_nonzero range else mret 0) r
          = Ok (a, r') ∧ True.
Proof.
  intros Hrange.
  unfold mbind, Py_mbind, py_bind, random. destruct (rng_random r) as [u r1].
  destruct (F_ltb u density).
  - destruct (draw_nonzero_total range r1 Hrange) as (a & r2 & Ha & _). by exists a, r2.
  - by exists 0, r1.
Qed.

(** Every call returns [n] rows, row [i] with [n - i] entries, the first
    of them drawn by [draw_nonzero] on the diagonal range. *)
Lemma gen_A_triangular_total (n : Z) (density : F) (diag_range off_range : Z * Z) (r : R) :
  diag_range.1 ≤ diag_range.2 → off_range.1 ≤ off_range.2 →
  ∃ rows r',
    gen_A_triangular n density diag_range off_range r = Ok (rows, r') ∧
    Forall2 (λ i row, length row = (Z.to_nat n - i)%nat ∧
                      ∃ aii rest s s', row = aii :: rest ∧
                                       draw_nonzero diag_range s = Ok (aii, s'))
            (seq 0 (Z.to_nat n)) rows.
Proof.
  intros Hdiag Hoff.
  unfold gen_A_triangular. apply forM_total. intros i s Hi. apply elem_of_seq in Hi.
  unfold mbind, Py_mbind, mret, Py_ret. unfold py_bind at 1.
  destruct (draw_nonzero_total diag_range s Hdiag) as (aii & s1 & Hdraw & Haii).
  rewrite Hdraw. unfold py_bind at 1.
  destruct (repeatM_total (λ _, True) (Z.to_nat n - (i + 1))
              (py_bind (λ u, if F_ltb u density then draw_nonzero off_range else py_ret 0)
                       random)
              (λ s', off_diagonal_total density off_range s' Hoff) s1)
    as (rest & s2 & -> & Hlen & _).
  exists (aii :: rest), s2. split; [done|]. split; [simpl; lia|].
  by exists aii, rest, s, s1.
Qed.
End MatrixGenerator.

(** C7. For every [n], density, pair of ranges that [randint] accepts (the
    default ranges among them) and state of the random source,
    [gen_A_triangular] returns [n] rows, row [i] holding the [n - i]
    coefficients [a_ii .. a_in], and the first entry [a_ii] of every row is
    not zero: it is the value [randint] drew on the diagonal range at some
    state of the source, or 1 or -1 where that value was zero. *)
Theorem diagonal_nonzero {F R : Type} `{!PyFloat F} `{!RandomSource F R}
    (n : Z) (density : F) (diag_range off_range : Z * Z) (rng : R) :
  diag_range.1 ≤ diag_range.2 → off_range.1 ≤ off_range.2 →
  ∃ rows rng',
    gen_A_triangular n density diag_range off_range rng = Ok (rows, rng') ∧
    length rows = Z.to_nat n ∧
    ∀ i row, rows !! i = Some row →
      length row = (Z.to_nat n - i)%nat ∧
      ∃ aii rest, row = aii :: rest ∧ aii ≠ 0 ∧
        ∃ s, let d := (rng_randint diag_range.1 diag_range.2 s).1 in
             (d ≠ 0 → aii = d) ∧ (d = 0 → aii = 1 ∨ aii = -1).
Proof.
  intros Hdiag Hoff.
  destruct (gen_A_triangular_total n density diag_range off_range rng Hdiag Hoff)
    as (rows & rng' & Hgen & Hrows).
  exists rows, rng'. split_and!; [done| |].
  - apply Forall2_length in Hrows. by rewrite length_seq in Hrows.
  - intros i row Hrow.
    destruct (Forall2_lookup_r _ _ _ _ _ Hrows Hrow)
      as (i' & Hi' & Hlen & aii & rest & s & s' & -> & Hdraw).
    apply lookup_seq in Hi' as [-> _]. split; [done|].
    exists aii, rest. split_and!; [done| |].
    + destruct (draw_nonzero_total diag_range s Hdiag) as (a & s1 & Ha & Hnz). congruence.
    + exists s. by eapply draw_nonzero_value.
Qed.

(** ** Coverage repair *)

Lemma min_from_seq (key : nat → nat) (best a k : nat) :
  (best < a)%nat →
  let r := min_from key best (seq a k) in
  (r = best ∨ (a ≤ r < a + k)%nat) ∧
  (key r ≤ key best)%nat ∧
  (∀ x, (a ≤ x < a + k)%nat → (key r ≤ key x)%nat) ∧
  (∀ x, (a ≤ x < r)%nat → (key r < key x)%nat) ∧
  (r ≠ best → (key r < key best)%nat).
Proof.
  revert best a. induction k as [|k IH]; intros best a Hlt; simpl.
  - split_and!; [by left | done | lia | lia | done].
  - set (best' := if (key a <? key best)%nat then a else best).
    assert (best' = a ∧ (key a < key best)%nat ∨ best' = best ∧ (key best ≤ key a)%nat)
      as Hbest'.
    { unfold best'. destruct (Nat.ltb_spec (key a) (key best)); [left|right]; done. }
    destruct (IH best' (S a)) as (Hr & Hle & Hall & Hfirst & Hne).
    { destruct Hbest' as [[-> _]|[-> _]]; lia. }
    set (r := min_from key best' (seq (S a) k)) in *.
    split_and!.
    + destruct Hr as [->|?]; [|right; lia].
      destruct Hbest' as [[-> _]|[-> _]]; [right; lia | by left].
    + destruct Hbest' as [[Hb ?]|[Hb ?]]; rewrite Hb in *; lia.
    + intros x Hx. destruct (decide (x = a)) as [->|]; [|apply Hall; lia].
      destruct Hbest' as [[Hb ?]|[Hb ?]]; rewrite Hb in *; lia.
    + intros x Hx. destruct (decide (x = a)) as [->|]; [|apply Hfirst; lia].
      destruct Hbest' as [[Hb ?]|[Hb ?]]; rewrite Hb in *.
      * apply Hne. lia.
      * assert (r ≠ best) by lia. specialize (Hne ltac:(done)). lia.
    + intros Hrb. destruct Hbest' as [[Hb ?]|[Hb ?]]; rewrite Hb in *; [lia|].
      by apply Hne.
Qed.

Lemma py_min_first_smallest (sets : list (gset Z)) :
  sets ≠ [] →
  ∃ idx, py_min (λ i, size (sets !!! i)) (seq 0 (length sets)) = Ok idx ∧
         first_smallest sets idx.
Proof.
  intros Hne. destruct sets as [|s0 sets]; [done|]. clear Hne.
  set (all := s0 :: sets). simpl length. simpl seq. unfold py_min.
  eexists. split; [done|].
  pose proof (min_from_seq (λ i, size (all !!! i)) 0 1 (length sets) ltac:(lia))
    as (Hr & Hle & Hall & Hfirst & Hne).
  set (r := min_from _ 0%nat (seq 1 (length sets))) in *. simpl in *.
  assert (r < length all)%nat as Hlen by (simpl; lia).
  destruct (lookup_lt_is_Some_2 all r Hlen) as [s Hs].
  assert (all !!! r = s) as Hrs by (by apply list_lookup_total_correct).
  exists s. split_and!; [done| |].
  - intros i s' Hi. rewrite <- Hrs.
    assert (all !!! i = s') as <- by (by apply list_lookup_total_correct).
    apply lookup_lt_Some in Hi. simpl in Hi.
    destruct i as [|i]; [exact Hle | apply (Hall (S i)); lia].
  - intros i s' Hlt Hi. rewrite <- Hrs.
    assert (all !!! i = s') as <- by (by apply list_lookup_total_correct).
    destruct i as [|i]; [apply Hne; lia | apply (Hfirst (S i)); lia].
Qed.

Lemma repair_loop (ks : list Z) (sets : list (gset Z)) :
  sets ≠ [] →
  ∃ sets',
    foldR (λ (sets : list (gset Z)) k,
             idx ← py_min (λ i, size (sets !!! i)) (seq 0 (length sets));
             Ok (alter (λ s, s ∪ {[k]}) idx sets))
          sets ks = Ok sets' ∧
    repaired sets ks sets'.
Proof.
  revert sets. induction ks as [|k ks IH]; intros sets Hne; simpl.
  - exists sets. split; [done | constructor].
  - destruct (py_min_first_smallest sets Hne) as (idx & -> & Hidx). simpl.
    destruct (IH (alter (λ s, s ∪ {[k]}) idx sets)) as (sets' & Hloop & Hrep).
    { intros Hnil. apply (f_equal length) in Hnil. rewrite length_alter in Hnil.
      by destruct sets. }
    exists sets'. split; [done|]. by econstructor.
Qed.

(** Repair only adds: the list keeps its length, every set keeps its
    elements, and each repaired element ends up in a set. *)
Lemma repaired_grows sets ks sets' :
  repaired sets ks sets' →
  length sets' = length sets ∧
  (∀ i s, sets !! i = Some s → ∃ s', sets' !! i = Some s' ∧ s ⊆ s') ∧
  (∀ k, k ∈ ks → ∃ s', s' ∈ sets' ∧ k ∈ s') ∧
  (∀ i s' k, sets' !! i = Some s' → k ∈ s' →
     k ∈ ks ∨ ∃ s, sets !! i = Some s ∧ k ∈ s).
Proof.
  induction 1 as [sets|sets k ks idx sets' (s0 & Hs0 & _) Hrep (Hlen & Hmono & Hin & Hold)].
  - split_and!; [done | by eauto | by intros k ?%elem_of_nil | by eauto].
  - rewrite length_alter in Hlen. split_and!; [done| | |].
    + intros i s Hs. destruct (decide (idx = i)) as [->|Hne].
      * destruct (Hmono i (s ∪ {[k]})) as (s' & Hs' & Hsub).
        { by rewrite list_lookup_alter_eq, Hs. }
        exists s'. split; [done | set_solver].
      * apply Hmono. by rewrite list_lookup_alter_ne.
    + intros k' [->|Hk']%elem_of_cons; [|by apply Hin].
      destruct (Hmono idx (s0 ∪ {[k]})) as (s' & Hs' & Hsub).
      { by rewrite list_lookup_alter_eq, Hs0. }
      exists s'. split; [by eapply list_elem_of_lookup_2 | set_solver].
    + intros i s' k' Hs' Hk'. destruct (Hold i s' k' Hs' Hk') as [?|(s & Hs & Hks)].
      * left. by right.
      * destruct (decide (idx = i)) as [->|Hne].
        -- rewrite list_lookup_alter_eq, Hs0 in Hs. simpl in Hs. injection Hs as <-.
           apply elem_of_union in Hks as [?|Hk2].
           ++ right. eauto.
           ++ apply elem_of_singleton in Hk2 as ->. left. by left.
        -- rewrite list_lookup_alter_ne in Hs by done. right. eauto.
Qed.

Section CoverageRepair.
Context `{!SetIteration} `{!SetIterationLaw}.

Lemma elem_of_set_iter (s : gset Z) k : k ∈ set_iter s ↔ k ∈ s.
Proof. by rewrite set_iter_perm, elem_of_elements. Qed.

Lemma count_elem_Ok (cov : list nat) k :
  0 ≤ k < Z.of_nat (length cov) →
  count_elem cov k = Ok (alter S (Z.to_nat k) cov).
Proof. intros Hk. unfold count_elem, py_index. by rewrite decide_True. Qed.

(** After counting the elements [ks], an entry is still zero exactly when
    it was zero and its position is none of them. *)
Lemma count_elems (ks : list Z) (cov : list nat) :
  Forall (λ k, 0 ≤ k < Z.of_nat (length cov)) ks →
  ∃ cov', foldR count_elem cov ks = Ok cov' ∧ length cov' = length cov ∧
          ∀ j, cov' !!! j = 0%nat ↔ cov !!! j = 0%nat ∧ Z.of_nat j ∉ ks.
Proof.
  revert cov. induction ks as [|k ks IH]; intros cov Hks; simpl.
  - exists cov. split_and!; [done..|]. intros j. split; [|naive_solver].
    intros ?. split; [done | apply not_elem_of_nil].
  - apply Forall_cons in Hks as [Hk Hks]. rewrite count_elem_Ok by done. simpl.
    destruct (IH (alter S (Z.to_nat k) cov)) as (cov' & Hfold & Hlen & Hzero).
    { by rewrite length_alter. }
    exists cov'. rewrite length_alter in Hlen. split_and!; [done..|].
    intros j. rewrite Hzero, not_elem_of_cons, list_lookup_total_alter.
    destruct (decide (Z.to_nat k = j ∧ (Z.to_nat k < length cov)%nat)) as [[<- _]|Hne].
    + split; [by intros [? _] | intros (_ & Hj & _); lia].
    + split; [intros [? ?]; split_and!; [done | lia | done] | naive_solver].
Qed.

Lemma count_sets (sets : list (gset Z)) (cov : list nat) :
  Forall (λ s : gset Z, ∀ k, k ∈ s → 0 ≤ k < Z.of_nat (length cov)) sets →
  ∃ cov', foldR (λ cov s, foldR count_elem cov (set_iter s)) cov sets = Ok cov' ∧
          length cov' = length cov ∧
          ∀ j, cov' !!! j = 0%nat ↔
               cov !!! j = 0%nat ∧ Forall (λ s : gset Z, Z.of_nat j ∉ s) sets.
Proof.
  revert cov. induction sets as [|s sets IH]; intros cov Hsets; simpl.
  - exists cov. split_and!; [done..|]. intros j. split; [|naive_solver].
    intros ?. split; [done | constructor].
  - apply Forall_cons in Hsets as [Hs Hsets].
    destruct (count_elems (set_iter s) cov) as (cov1 & -> & Hlen1 & Hzero1).
    { apply Forall_forall. intros k Hk. apply Hs. by apply elem_of_set_iter. }
    simpl. destruct (IH cov1) as (cov' & Hfold & Hlen & Hzero).
    { by rewrite Hlen1. }
    exists cov'. split_and!; [done | lia |].
    intros j. rewrite Hzero, Hzero1, Forall_cons, elem_of_set_iter. naive_solver.
Qed.

(** The elements the source calls [missing] are the uncovered ones. *)
Lemma missing_uncovered (sets : list (gset Z)) (n : Z) (covered : list nat) :
  length covered = Z.to_nat (n + 1) →
  (∀ j, covered !!! j = 0%nat ↔ Forall (λ s : gset Z, Z.of_nat j ∉ s) sets) →
  filter (λ k, covered !!! Z.to_nat k = 0%nat) (seqZ 1 n) = uncovered sets n.
Proof.
  intros Hlen Hzero. unfold uncovered. apply filter_ext_in.
  intros k Hk. apply elem_of_seqZ in Hk. rewrite Hzero.
  by replace (Z.of_nat (Z.to_nat k)) with k by lia.
Qed.

(** [enforce_coverage] returns, and returns the repaired list. *)
Lemma enforce_coverage_repaired (sets : list (gset Z)) (n : Z) :
  sets ≠ [] →
  Forall (λ s : gset Z, ∀ k, k ∈ s → 1 ≤ k ≤ n) sets →
  ∃ sets', enforce_coverage sets n = Ok sets' ∧
           repaired sets (uncovered sets n) sets'.
Proof.
  intros Hne Hrange. unfold enforce_coverage.
  destruct (count_sets sets (replicate (Z.to_nat (n + 1)) 0%nat))
    as (covered & -> & Hlen & Hzero).
  { rewrite length_replicate. eapply Forall_impl; [exact Hrange|].
    intros s Hs k Hk. apply Hs in Hk. lia. }
  simpl. rewrite length_replicate in Hlen.
  rewrite (missing_uncovered sets n covered Hlen).
  - by apply repair_loop.
  - intros j. rewrite Hzero. split; [naive_solver|]. intros Hall. split; [|done].
    destruct (decide (j < Z.to_nat (n + 1))%nat).
    + by rewrite lookup_total_replicate_2.
    + rewrite list_lookup_total_alt, (lookup_ge_None_2 _ j); [done|].
      rewrite length_replicate. lia.
Qed.

(** After the pass every element of [1..n] is in a set. *)
Lemma repaired_covers (sets sets' : list (gset Z)) (n : Z) :
  repaired sets (uncovered sets n) sets' →
  ∀ k, 1 ≤ k ≤ n → ∃ s', s' ∈ sets' ∧ k ∈ s'.
Proof.
  intros Hrep k Hk.
  destruct (repaired_grows _ _ _ Hrep) as (_ & Hmono & Hin & _).
  destruct (decide (Forall (λ s : gset Z, k ∉ s) sets)) as [Hunc|Hcov].
  - apply Hin. unfold uncovered. apply list_elem_of_filter. split; [done|].
    apply elem_of_seqZ. lia.
  - apply not_Forall_Exists in Hcov; [|apply _].
    apply Exists_exists in Hcov as (s & Hs & Hks).
    apply list_elem_of_lookup in Hs as [i Hi].
    destruct (Hmono i s Hi) as (s' & Hs' & Hsub).
    exists s'. split; [by eapply list_elem_of_lookup_2|].
    apply Hsub. by apply dec_stable.
Qed.
End CoverageRepair.

(** C8. On a non-empty list of sets over [1..n], [enforce_coverage] returns
    the list in which each uncovered element of [1..n], in ascending order,
    was added to the set that was smallest when its turn came, the one of
    lowest index among equals. The list keeps its length, every set keeps
    the elements it had, what a set gains is an uncovered element, and
    afterwards every element of [1..n] is in a set. *)
Theorem enforce_coverage_repairs `{!SetIteration} `{!SetIterationLaw}
    (sets : list (gset Z)) (n : Z) :
  sets ≠ [] →
  Forall (λ s : gset Z, ∀ k, k ∈ s → 1 ≤ k ≤ n) sets →
  ∃ sets',
    enforce_coverage sets n = Ok sets' ∧
    repaired sets (uncovered sets n) sets' ∧
    length sets' = length sets ∧
    (∀ i s, sets !! i = Some s → ∃ s', sets' !! i = Some s' ∧ s ⊆ s') ∧
    (∀ i s' k, sets' !! i = Some s' → k ∈ s' →
       k ∈ uncovered sets n ∨ ∃ s, sets !! i = Some s ∧ k ∈ s) ∧
    (∀ k, 1 ≤ k ≤ n → ∃ s', s' ∈ sets' ∧ k ∈ s').
Proof.
  intros Hne Hrange.
  destruct (enforce_coverage_repaired sets n Hne Hrange) as (sets' & Hrun & Hrep).
  destruct (repaired_grows _ _ _ Hrep) as (Hlen & Hmono & _ & Hold).
  exists sets'. split_and!; [done..|]. by eapply repaired_covers.
Qed.

(** ** The three patterns *)

Section Patterns.
Context {F R : Type} `{!PyFloat F} `{!RandomSource F R} `{!RandomSourceLaws F R}.

Lemma pattern_uniform_total (n : Z) (r : R) :
  1 ≤ n → ∃ sets r', pattern_uniform n r = Ok (sets, r') ∧ sets_over n sets.
Proof.
  intros Hn. unfold pattern_uniform, _avg_size, mbind, Py_mbind, mret, Py_ret.
  rewrite (decide_False (P := n < 0)) by lia. unfold py_bind at 1. simpl py_lift. cbv beta iota.
  rewrite decide_False by lia. unfold py_bind at 1, py_ret at 1.
  set (p := F_truediv _ _).
  destruct (repeatM_total (λ s : gset Z, ∀ k, k ∈ s → 1 ≤ k ≤ n) (Z.to_nat n)
              (foldM (λ (s : gset Z) (k : Z),
                        py_bind (λ u, py_ret (if F_ltb u p then s ∪ {[k]} else s)) random)
                     ∅ (seqZ 1 n))) with (s := r)
    as (sets & r' & Hrun & Hlen & Hall).
  - intros s. apply (foldM_total (λ s : gset Z, ∀ k, k ∈ s → 1 ≤ k ≤ n)).
    + intros acc k s0 Hacc Hk. apply elem_of_seqZ in Hk.
      unfold py_bind, random, py_ret. destruct (rng_random s0) as [u s1].
      eexists _, _. split; [done|]. destruct (F_ltb u p); [|done].
      intros k' [?|Hk']%elem_of_union; [auto|].
      apply elem_of_singleton in Hk' as ->. lia.
    + intros k Hk. by apply not_elem_of_empty in Hk.
  - by exists sets, r'.
Qed.

Lemma pattern_interval_total (n : Z) (r : R) :
  1 ≤ n → ∃ sets r', pattern_interval n r = Ok (sets, r') ∧ sets_over n sets.
Proof.
  intros Hn. unfold pattern_interval, _avg_size, mbind, Py_mbind.
  rewrite (decide_False (P := n < 0)) by lia. unfold py_bind at 1. simpl py_lift. cbv beta iota.
  match goal with |- context [forM ?body _] =>
    destruct (forM_total (λ (_ : Z) (s : gset Z), ∀ k, k ∈ s → 1 ≤ k ≤ n)
                body (seqZ 1 n)) with (s := r) as (sets & r' & Hrun & Hall)
  end.
  - intros i s _. unfold mbind, Py_mbind, mret, Py_ret, py_bind, random, py_ret.
    destruct (rng_random s) as [u s1]. eexists _, _. split; [done|].
    intros k Hk. apply elem_of_list_to_set, list_elem_of_fmap in Hk as (t & -> & _).
    pose proof (Z.mod_pos_bound (i - 1 + t) n ltac:(lia)). lia.
  - exists sets, r'. split; [done|]. split.
    + apply Forall2_length in Hall. by rewrite length_seqZ in Hall.
    + eapply Forall2_Forall_r; [exact Hall|]. by apply Forall_true.
Qed.

Lemma pattern_pareto_total (n : Z) (r : R) :
  1 ≤ n → ∃ sets r', pattern_pareto n r = Ok (sets, r') ∧ sets_over n sets.
Proof.
  intros Hn. unfold pattern_pareto, _avg_size, mbind, Py_mbind.
  rewrite (decide_False (P := n < 0)) by lia. unfold py_bind at 1. simpl py_lift. cbv beta iota.
  match goal with |- context [repeatM _ ?body] =>
    destruct (repeatM_total (λ s : gset Z, ∀ k, k ∈ s → 1 ≤ k ≤ n) (Z.to_nat n) body)
      with (s := r) as (sets & r' & Hrun & Hlen & Hall)
  end.
  - intros s. unfold mbind, Py_mbind, mret, Py_ret, py_bind, paretovariate, py_ret.
    destruct (rng_paretovariate F_two s) as [val s1].
    set (size := Z.max 1 _).
    destruct (decide (n ≤ size)) as [|Hsize].
    + eexists _, _. split; [done|]. intros k Hk.
      apply elem_of_list_to_set, elem_of_seqZ in Hk. lia.
    + unfold sample. rewrite decide_True by (rewrite length_seqZ; lia).
      destruct (rng_sample (seqZ 1 n) (Z.to_nat size) s1) as [ks s2] eqn:Hks.
      eexists _, _. split; [done|]. intros k Hk. apply elem_of_list_to_set in Hk.
      assert (k ∈ seqZ 1 n) as Hin.
      { apply (sample_in_population (seqZ 1 n) (Z.to_nat size) s1). by rewrite Hks. }
      apply elem_of_seqZ in Hin. lia.
  - by exists sets, r'.
Qed.

(** [nonempty_fix] leaves no set empty and takes nothing away. *)
Lemma nonempty_fix_total (sets : list (gset Z)) (n : Z) (r : R) :
  1 ≤ n →
  ∃ sets' r', nonempty_fix sets n r = Ok (sets', r') ∧
              Forall2 (λ s s' : gset Z, s ⊆ s' ∧ s' ≠ ∅) sets sets'.
Proof.
  intros Hn. unfold nonempty_fix. apply forM_total. intros s r0 _.
  destruct (decide (s = ∅)) as [->|Hne].
  - unfold mbind, Py_mbind, mret, Py_ret, py_bind, randrange, py_ret.
    rewrite decide_True by lia. destruct (rng_randrange 1 (n + 1) r0) as [k r1].
    eexists _, _. split; [done|]. split; set_solver.
  - unfold mret, Py_ret, py_ret. eexists _, _. split; [done|]. by split.
Qed.
End Patterns.

(** C2. For every [n >= 1], each of the three patterns and every state of
    the random source, [build_sets] returns [n] covering sets: every
    element of [1..n] belongs to one of them, and none of them is empty. *)
Theorem build_sets_invariants {F R : Type} `{!PyFloat F} `{!RandomSource F R}
    `{!RandomSourceLaws F R} `{!SetIteration} `{!SetIterationLaw}
    (n : Z) (pattern : string) (rng : R) :
  1 ≤ n → pattern ∈ ["uniform"; "interval"; "pareto"] →
  ∃ sets rng',
    build_sets n pattern rng = Ok (sets, rng') ∧
    length sets = Z.to_nat n ∧
    (∀ k, 1 ≤ k ≤ n → ∃ s, s ∈ sets ∧ k ∈ s) ∧
    Forall (λ s : gset Z, s ≠ ∅) sets.
Proof.
  intros Hn Hpat.
  assert (∃ sets0 r0,
            (if decide (pattern = "uniform") then pattern_uniform n
             else if decide (pattern = "interval") then pattern_interval n
             else if decide (pattern = "pareto") then pattern_pareto n
             else py_raise (ValueError (msg_pattern pattern))) rng
            = Ok (sets0, r0) ∧ sets_over n sets0) as (sets0 & r0 & Hpattern & Hlen0 & Hrange0).
  { rewrite !elem_of_cons in Hpat. destruct Hpat as [->|[->|[->|Hnil]]];
      [| | |by apply elem_of_nil in Hnil]; simpl.
    - by apply pattern_uniform_total.
    - by apply pattern_interval_total.
    - by apply pattern_pareto_total. }
  destruct (enforce_coverage_repaired sets0 n) as (sets1 & Hrepair & Hrep); [|done|].
  { intros ->. simpl in Hlen0. lia. }
  destruct (repaired_grows _ _ _ Hrep) as (Hlen1 & _ & _ & _).
  pose proof (repaired_covers _ _ _ Hrep) as Hcov1.
  destruct (nonempty_fix_total sets1 n r0 Hn) as (sets2 & r2 & Hfix & Hall).
  exists sets2, r2. split_and!.
  - unfold build_sets, mbind, Py_mbind. unfold py_bind at 1. rewrite Hpattern.
    unfold py_bind at 1. unfold py_lift. by rewrite Hrepair.
  - apply Forall2_length in Hall. lia.
  - intros k Hk. destruct (Hcov1 k Hk) as (s1 & Hs1 & Hks1).
    apply list_elem_of_lookup in Hs1 as [i Hi].
    destruct (Forall2_lookup_l _ _ _ _ _ Hall Hi) as (s2 & Hs2 & Hsub & _).
    exists s2. split; [by eapply list_elem_of_lookup_2 | by apply Hsub].
  - eapply Forall2_Forall_r; [exact Hall|]. apply Forall_true. by intros s s' [_ ?].
Qed.

(** ** The order in which sets are iterated *)

Lemma py_index_length (len : nat) (k : Z) (i : nat) :
  py_index len k = Ok i → (i < len)%nat.
Proof.
  unfold py_index. repeat case_decide; intros [=]; lia.
Qed.

Lemma list_alter_swap {X} (f : X → X) (i j : nat) (l : list X) :
  alter f i (alter f j l) = alter f j (alter f i l).
Proof.
  apply list_eq. intros t. rewrite !list_lookup_alter.
  repeat case_decide; subst; rewrite ?list_lookup_alter_eq, ?list_lookup_alter_ne by done;
    done.
Qed.

(** Counting two elements in either order gives the same list, or the
    same [IndexError]. *)
Lemma count_elem_swap (cov : list nat) (x y : Z) :
  result_bind (λ c, count_elem c y) (count_elem cov x)
  = result_bind (λ c, count_elem c x) (count_elem cov y).
Proof.
  unfold count_elem, mbind, result_mbind.
  destruct (py_index (length cov) x) as [i|e1] eqn:Hx,
           (py_index (length cov) y) as [j|e2] eqn:Hy; simpl;
    rewrite ?length_alter, ?Hx, ?Hy; simpl; try done.
  - by rewrite list_alter_swap.
  - unfold py_index in Hx, Hy. repeat case_decide; congruence.
Qed.

Lemma foldR_count_perm (l1 l2 : list Z) :
  l1 ≡ₚ l2 → ∀ cov, foldR count_elem cov l1 = foldR count_elem cov l2.
Proof.
  induction 1 as [|x l1 l2 _ IH|x y l|l1 l2 l3 _ IH1 _ IH2]; intros cov; simpl.
  - done.
  - destruct (count_elem cov x); simpl; [apply IH | done].
  - pose proof (count_elem_swap cov y x) as Hswap.
    destruct (count_elem cov y) as [c1|e1], (count_elem cov x) as [c2|e2]; simpl in *.
    + destruct (count_elem c1 x), (count_elem c2 y); simpl; congruence.
    + destruct (count_elem c1 x); simpl; congruence.
    + destruct (count_elem c2 y); simpl; congruence.
    + done.
  - by rewrite IH1, IH2.
Qed.

Section IterationOrder.
Context (order1 order2 : SetIteration).
Context (law1 : @SetIterationLaw order1) (law2 : @SetIterationLaw order2).

Lemma set_iter_orders (s : gset Z) : @set_iter order1 s ≡ₚ @set_iter order2 s.
Proof. by rewrite (law1 s), (law2 s). Qed.

Lemma enforce_coverage_order (sets : list (gset Z)) (n : Z) :
  @enforce_coverage order1 sets n = @enforce_coverage order2 sets n.
Proof.
  unfold enforce_coverage.
  rewrite (foldR_ext (λ cov s, foldR count_elem cov (@set_iter order1 s))
                     (λ cov s, foldR count_elem cov (@set_iter order2 s))); [done|].
  intros cov s. apply foldR_count_perm, set_iter_orders.
Qed.

Lemma sorted_order (s : gset Z) : @sorted order1 s = @sorted order2 s.
Proof.
  unfold sorted. apply (Sorted_unique Z.le).
  - apply Sorted_merge_sort; apply _.
  - apply Sorted_merge_sort; apply _.
  - by rewrite !merge_sort_Permutation, set_iter_orders.
Qed.

Lemma write_instance_order (n : Z) (sets : list (gset Z)) (A_rows : list (list Z)) :
  @write_instance order1 n sets A_rows = @write_instance order2 n sets A_rows.
Proof.
  unfold write_instance.
  replace ((λ s : gset Z, join " " (py_str <$> @sorted order1 s) +:+ nl) <$> sets)
    with ((λ s : gset Z, join " " (py_str <$> @sorted order2 s) +:+ nl) <$> sets); [done|].
  apply list_fmap_ext. intros _ s _. by rewrite sorted_order.
Qed.
End IterationOrder.

Lemma py_bind_ext {St A B} (f g : A → Py St B) (m1 m2 : Py St A) (s : St) :
  m1 s = m2 s → (∀ a s', f a s' = g a s') → py_bind f m1 s = py_bind g m2 s.
Proof.
  intros Hm Hfg. unfold py_bind. rewrite Hm.
  destruct (m2 s) as [[a s']|e]; [apply Hfg | done].
Qed.

Lemma build_sets_order {F R : Type} `{!PyFloat F} `{!RandomSource F R}
    (order1 order2 : SetIteration) (n : Z) (pattern : string) (r : R) :
  @SetIterationLaw order1 → @SetIterationLaw order2 →
  @build_sets F R _ _ order1 n pattern r = @build_sets F R _ _ order2 n pattern r.
Proof.
  intros law1 law2. unfold build_sets, mbind, Py_mbind.
  apply py_bind_ext; [done|]. intros sets r'.
  by rewrite (enforce_coverage_order order1 order2 law1 law2).
Qed.

(** C9. The covering sets, the matrix and the text of the file that
    [main] produces are a function of [n], the pattern, the seed and the
    density: the random source is built from the seed alone, and the one
    thing the language leaves open between two runs, the order in which a
    set is iterated, does not reach the output (the counts of
    [enforce_coverage] do not depend on it, and [write_instance] sorts). *)
Theorem generation_deterministic {F R : Type} `{!PyFloat F} `{!RandomSource F R}
    (order1 order2 : SetIteration) (n : Z) (pattern : string) (seed : Z) (rho : F) :
  @SetIterationLaw order1 → @SetIterationLaw order2 →
  @main F R _ _ order1 n pattern seed rho = @main F R _ _ order2 n pattern seed rho.
Proof.
  intros law1 law2. unfold main, mbind, Py_mbind.
  match goal with |- match ?a with _ => _ end = match ?b with _ => _ end =>
    assert (a = b) as ->; [|done] end.
  apply py_bind_ext; [by apply build_sets_order|]. intros sets r.
  apply py_bind_ext; [done|]. intros A_rows r'.
  by rewrite (write_instance_order order1 order2 law1 law2).
Qed.

(** * Further properties *)

(** ** The parser: tokens, sets and degenerate sizes *)

Lemma size_list_to_set_le (l : list Z) :
  (size (list_to_set l : gset Z) ≤ length l)%nat.
Proof.
  induction l as [|x l IH]; [by rewrite list_to_set_nil, size_empty|].
  rewrite list_to_set_cons. cbn [length].
  rewrite size_union_alt, size_singleton.
  pose proof (subseteq_size (list_to_set l ∖ {[x]}) (list_to_set l : gset Z)
                ltac:(set_solver)). lia.
Qed.

Lemma size_list_to_set_NoDup (l : list Z) :
  size (list_to_set l : gset Z) = length l ↔ NoDup l.
Proof.
  split; [|apply size_list_to_set].
  induction l as [|x l IH]; [constructor|]. rewrite list_to_set_cons.
  cbn [length]. intros Hsize.
  pose proof (size_list_to_set_le l) as Hle.
  destruct (decide (x ∈ l)) as [Hin|Hnin].
  - exfalso.
    assert (({[x]} ∪ list_to_set l : gset Z) = list_to_set l) as Heq by set_solver.
    rewrite Heq in Hsize. lia.
  - constructor; [done|]. apply IH.
    rewrite size_union, size_singleton in Hsize by set_solver. lia.
Qed.

Lemma size_internal_set (ks : list Z) :
  (size (internal_set ks) ≤ length ks)%nat ∧
  (size (internal_set ks) = length ks ↔ NoDup ks).
Proof.
  unfold internal_set. split.
  - etransitivity; [apply size_list_to_set_le|]. by rewrite length_fmap.
  - rewrite <- (length_fmap (λ k, k - 1) ks), size_list_to_set_NoDup.
    split; [apply NoDup_fmap_1 | apply NoDup_fmap_2]; intros ???; lia.
Qed.

Section ParsedSets.
Context {F : Type} `{!PyFloat F}.

Lemma parsed_sets (toks : list string) (n : Z) (subsets : list (gset Z))
    (A : gmap (nat * nat) F) :
  parse_tokens toks = Ok (n, subsets, A) →
  ∃ sizes elems coeffs extra,
    instance_layout toks n sizes elems coeffs extra ∧
    subsets = internal_set <$> elems ∧
    length subsets = Z.to_nat n ∧
    Forall (λ s : gset Z, ∀ k, k ∈ s → 0 ≤ k < n) subsets ∧
    Forall2 (λ need ks, length ks = Z.to_nat need) sizes elems.
Proof.
  intros Hparse. apply parse_tokens_Ok in Hparse
    as (sizes & elems & coeffs & extra & Hlay & Hsub & HA).
  exists sizes, elems, coeffs, extra.
  destruct (parsed_shape _ _ _ _ _ _ _ _ Hlay Hsub HA) as (Hlen & _ & _ & _).
  split_and!; [done..| |].
  - destruct Hlay as (tok_n & size_toks & chunks & coeff_toks & _ & _ & _ & _
                      & Hchunks & _).
    subst subsets. apply Forall_fmap, Forall_forall. intros ks Hks k Hk.
    apply list_elem_of_lookup in Hks as [i Hi].
    destruct (Forall2_lookup_r _ _ _ _ _ Hchunks Hi) as (chunk & _ & Hchunk).
    unfold internal_set in Hk. apply elem_of_list_to_set, list_elem_of_fmap in Hk
      as (k' & -> & Hk').
    apply list_elem_of_lookup in Hk' as [t Ht].
    destruct (Forall2_lookup_r _ _ _ _ _ Hchunk Ht) as (tok & _ & _ & Hrange). lia.
  - by destruct Hlay as (? & ? & ? & ? & _ & _ & _ & _ & _ & ? & _).
Qed.

Lemma build_A_empty (n : Z) (coeffs : list F) (A : gmap (nat * nat) F) :
  n ≤ 0 → build_A n coeffs = Ok A → A = ∅.
Proof.
  intros Hn. unfold build_A. replace (Z.to_nat n) with 0%nat by lia. simpl.
  by intros [= <-].
Qed.
End ParsedSets.

(** X1. The parser reads a file as one stream of blank-separated tokens:
    two texts with the same tokens parse alike, to the same result or the
    same error, wherever their line breaks and blanks fall. *)
Theorem parse_reads_tokens {F : Type} `{!PyFloat F} (text1 text2 : string) :
  split text1 = split text2 →
  parse_instance (F:=F) text1 = parse_instance text2.
Proof.
  intros Htoks. unfold parse_instance. by rewrite !token_stream_readlines, Htoks.
Qed.

(** X2. A parsed instance has one covering set per item, each within
    [0..n-1]. The declared size [s_i] counts the tokens read for [S_i], not
    its elements: the set has at most [s_i] elements, and exactly [s_i]
    when no element is listed twice. *)
Theorem parsed_sets_sizes {F : Type} `{!PyFloat F} (toks : list string) (n : Z)
    (subsets : list (gset Z)) (A : gmap (nat * nat) F) :
  parse_tokens toks = Ok (n, subsets, A) →
  ∃ sizes elems coeffs extra,
    instance_layout toks n sizes elems coeffs extra ∧
    length subsets = Z.to_nat n ∧
    Forall (λ s : gset Z, ∀ k, k ∈ s → 0 ≤ k < n) subsets ∧
    ∀ i need ks s,
      sizes !! i = Some need → elems !! i = Some ks → subsets !! i = Some s →
      (size s ≤ Z.to_nat need)%nat ∧ (size s = Z.to_nat need ↔ NoDup ks).
Proof.
  intros Hparse.
  destruct (parsed_sets toks n subsets A Hparse)
    as (sizes & elems & coeffs & extra & Hlay & Hsub & Hlen & Hrange & Hneed).
  exists sizes, elems, coeffs, extra. split_and!; [done..|].
  intros i need ks s Hi Hks Hs.
  destruct (Forall2_lookup_l _ _ _ _ _ Hneed Hi) as (ks' & Hks' & Hlenks).
  assert (ks' = ks) as -> by congruence.
  subst subsets. rewrite list_lookup_fmap, Hks in Hs. injection Hs as <-.
  rewrite <- Hlenks. apply size_internal_set.
Qed.

(** X3. The parser does not check the sign of [n]: a first token that
    spells an [n <= 0] is accepted, with no covering set and an empty
    dictionary, as soon as [n(n+1)/2] coefficient tokens follow it (none for
    0 and -1, three for -3). *)
Theorem nonpositive_n_accepted {F : Type} `{!PyFloat F} (tok : string) (n : Z)
    (coeff_toks : list string) (coeffs : list F) (more : list string) :
  int_literal tok = Some n → n ≤ 0 →
  float_tokens coeff_toks coeffs →
  length coeffs = Z.to_nat ((n * (n + 1)) `div` 2) →
  parse_tokens (tok :: coeff_toks ++ more) = Ok (n, [], ∅).
Proof.
  intros Htok Hn Hcoeffs Hlen.
  destruct (build_A_needed n coeffs Hlen) as (A & HA & _).
  pose proof (build_A_empty n coeffs A Hn HA) as ->.
  apply parse_tokens_Ok. exists [], [], coeffs, more. split_and!; [|done..].
  exists tok, [], [], coeff_toks. split_and!; try done; try constructor.
  simpl. lia.
Qed.

(** ** The model: feasibility, objective and size *)

Section ModelFacts.
Context {F : Type}.

Lemma model_x_binary (n : Z) (subsets : list (gset Z)) (A : gmap (nat * nat) F) m σ i :
  build_model n subsets A = Ok m → feasible σ m →
  (i < Z.to_nat n)%nat → binary (σ (X i)).
Proof.
  intros Hm [Hdom _] Hi. apply build_model_inv in Hm as (_ & _ & ->).
  destruct (Hdom (VarDecl (X i) 0 1 BINARY)) as (_ & _ & Hbin); [|done].
  simpl. apply elem_of_app. left. apply list_elem_of_fmap. exists i.
  split; [done|]. apply elem_of_seq. lia.
Qed.

Lemma model_y_product (n : Z) (subsets : list (gset Z)) (A : gmap (nat * nat) F) m σ i j :
  build_model n subsets A = Ok m → feasible σ m → is_Some (A !! (i, j)) →
  (σ (Y i j) == σ (X i) * σ (X j))%Q.
Proof.
  intros Hm Hfeas Hkey. pose proof Hm as Hinv.
  apply build_model_inv in Hinv as (_ & Hkeys & _).
  destruct (Hkeys i j Hkey) as [Hi Hj].
  apply linearization_holds.
  - by eapply model_x_binary.
  - by eapply model_x_binary.
  - destruct Hfeas as [Hdom Hcon].
    destruct (Hdom (VarDecl (Y i j) 0 1 CONTINUOUS)) as (H0 & H1 & _).
    { by apply (decls_of_Y n subsets A m i j). }
    split_and!; [done..|]. intros c Hc. apply Hcon.
    by apply (constrs_mentioning_Y n subsets A m i j c Hm).
Qed.

Lemma cover_constr_holds (n : Z) (subsets : list (gset Z)) (σ : var → Q) k :
  (∀ i, (i < Z.to_nat n)%nat → binary (σ (X i))) →
  holds σ (cover_constr n subsets k) ↔
  ∃ i, (i < Z.to_nat n)%nat ∧ (σ (X i) == 1)%Q ∧ Z.of_nat k ∈ subsets !!! i.
Proof.
  intros Hbin. unfold holds, cover_constr. simpl. rewrite eval_quicksum.
  set (vs := X <$> filter _ _).
  destruct (sumQ_binary σ vs) as [_ Hone].
  { intros v Hv. apply list_elem_of_fmap in Hv as (i & -> & Hi).
    apply list_elem_of_filter in Hi as [_ Hi]. apply elem_of_seq in Hi.
    apply Hbin. lia. }
  rewrite Hone. split.
  - intros (v & Hv & Hv1). apply list_elem_of_fmap in Hv as (i & -> & Hi).
    apply list_elem_of_filter in Hi as [Hk Hi]. apply elem_of_seq in Hi.
    exists i. split_and!; [lia | done..].
  - intros (i & Hi & Hi1 & Hk). exists (X i). split; [|done].
    apply list_elem_of_fmap. exists i. split; [done|].
    apply list_elem_of_filter. split; [done|]. apply elem_of_seq. lia.
Qed.

Lemma model_all_ones (n : Z) (subsets : list (gset Z)) (A : gmap (nat * nat) F) m :
  build_model n subsets A = Ok m →
  (∀ k, (k < Z.to_nat n)%nat →
     ∃ i, (i < Z.to_nat n)%nat ∧ Z.of_nat k ∈ subsets !!! i) →
  feasible (λ _, 1%Q) m.
Proof.
  intros Hm Hcov. apply build_model_inv in Hm as (_ & _ & ->). split; simpl.
  - intros d [Hd|Hd]%elem_of_app.
    + apply list_elem_of_fmap in Hd as (i & -> & _).
      unfold in_domain, binary. simpl. split_and!; [lra | lra | right; lra].
    + apply list_elem_of_fmap in Hd as ([i j] & -> & _).
      unfold in_domain. simpl. split_and!; [lra | lra | done].
  - intros c [Hc|Hc]%elem_of_app.
    + apply list_elem_of_fmap in Hc as (k & -> & Hk). apply elem_of_seq in Hk.
      apply cover_constr_holds; [intros; right; lra|].
      destruct (Hcov k) as (i & Hi & Hki); [lia|]. exists i. split_and!; [done| lra |done].
    + apply elem_of_concat in Hc as (l & Hc & Hl).
      apply list_elem_of_fmap in Hl as ([i j] & -> & _).
      assert (((λ _ : var, 1%Q) (Y i j) == (λ _ : var, 1%Q) (X i) * (λ _ : var, 1%Q) (X j))%Q)
        as Hprod by (simpl; lra).
      apply (linearization_holds (λ _, 1%Q) i j) in Hprod as (_ & _ & Hall);
        [by apply Hall | right; simpl; lra | right; simpl; lra].
Qed.

Lemma model_feasible_covered (n : Z) (subsets : list (gset Z)) (A : gmap (nat * nat) F) m σ :
  build_model n subsets A = Ok m → feasible σ m →
  ∀ k, (k < Z.to_nat n)%nat →
    ∃ i, (i < Z.to_nat n)%nat ∧ (σ (X i) == 1)%Q ∧ Z.of_nat k ∈ subsets !!! i.
Proof.
  intros Hm Hfeas k Hk.
  apply (cover_constr_holds n subsets σ k).
  - intros i Hi. by eapply model_x_binary.
  - pose proof Hm as Hinv. apply build_model_inv in Hinv as (_ & _ & ->).
    destruct Hfeas as [_ Hcon]. apply Hcon. simpl. apply elem_of_app. left.
    apply list_elem_of_fmap. exists k. split; [done|]. apply elem_of_seq. lia.
Qed.
End ModelFacts.

(** X4. The model is feasible exactly when the covering sets jointly cover
    the items [0..n-1]; and then selecting every item, with every product
    variable at 1, is a feasible point. *)
Theorem model_feasible_iff_covered {F : Type} (n : Z) (subsets : list (gset Z))
    (A : gmap (nat * nat) F) (m : Model F) :
  build_model n subsets A = Ok m →
  let covered := ∀ k, (k < Z.to_nat n)%nat →
                   ∃ i, (i < Z.to_nat n)%nat ∧ Z.of_nat k ∈ subsets !!! i in
  ((∃ σ, feasible σ m) ↔ covered) ∧ (feasible (λ _, 1%Q) m ↔ covered).
Proof.
  intros Hm covered.
  assert (∀ σ, feasible σ m → covered) as Hnec.
  { intros σ Hfeas k Hk.
    destruct (model_feasible_covered n subsets A m σ Hm Hfeas k Hk) as (i & ? & _ & ?).
    eauto. }
  split; split.
  - intros [σ Hfeas]. by eapply Hnec.
  - intros Hcov. exists (λ _, 1%Q). by eapply model_all_ones.
  - apply Hnec.
  - intros Hcov. by eapply model_all_ones.
Qed.

(** X5. At every feasible point of the model the linear objective, the sum
    of [a_ij * y_ij] over the keys of [A], is the quadratic form, the sum
    of [a_ij * x_i * x_j]. *)
Theorem objective_is_quadratic {F : Type} (val : F → Q) (n : Z)
    (subsets : list (gset Z)) (A : gmap (nat * nat) F) (m : Model F) (σ : var → Q) :
  build_model n subsets A = Ok m → feasible σ m →
  (objective_value val σ m == quadratic val A (λ i, σ (X i)))%Q.
Proof.
  intros Hm Hfeas.
  assert (∀ i j, is_Some (A !! (i, j)) → (σ (Y i j) == σ (X i) * σ (X j))%Q) as Hprod.
  { intros i j. by apply (model_y_product n subsets A m σ i j). }
  apply build_model_inv in Hm as (_ & _ & ->).
  unfold objective_value, quadratic. simpl.
  assert (∀ i j a, (i, j, a) ∈ map_to_list A → is_Some (A !! (i, j))) as Hin.
  { intros i j a Hija. apply elem_of_map_to_list in Hija. by eexists. }
  clear Hfeas. revert Hin. generalize (map_to_list A). intros l.
  induction l as [|[[i j] a] l IH]; intros Hin; [reflexivity|].
  rewrite fmap_cons. cbn [foldr].
  assert (foldr (λ '(a0, v) acc, val a0 * σ v + acc) 0
                ((λ '(i0, j0, aij), (aij, Y i0 j0)) <$> l)
          == foldr (λ '(i0, j0, a0) acc, val a0 * (σ (X i0) * σ (X j0)) + acc) 0 l)%Q
    as IH' by (apply IH; intros; eapply Hin; by right).
  assert (σ (Y i j) == σ (X i) * σ (X j))%Q as Hp by (apply Hprod; eapply Hin; by left).
  cbv beta iota. rewrite IH', Hp. reflexivity.
Qed.

Lemma forR_Raise_inv {X B} (f : X → result B) xs e :
  forR f xs = Raise e → ∃ x, x ∈ xs ∧ f x = Raise e.
Proof.
  induction xs as [|x xs IH]; simpl; [done|].
  destruct (f x) as [b|e'] eqn:Hx; simpl.
  - destruct (forR f xs) as [bs|e'']; simpl; [done|]. intros [= ->].
    destruct IH as (y & Hy & Hfy); [done|]. exists y. split; [by right | done].
  - intros [= ->]. exists x. split; [by left | done].
Qed.

Section ModelErrors.
Context {F : Type}.

Lemma cover_constrs_Raise (n : Z) (subsets : list (gset Z)) :
  (length subsets < Z.to_nat n)%nat → cover_constrs n subsets = Raise IndexError.
Proof.
  intros Hlt. unfold cover_constrs.
  destruct (Z.to_nat n) as [|N] eqn:HN; [lia|]. simpl.
  assert (coverers n subsets 0 = Raise IndexError) as ->; [|done].
  unfold coverers. apply (foldR_Raise_at _ _ _ (length subsets)).
  - apply elem_of_seq. lia.
  - intros a. unfold index. by rewrite (lookup_ge_None_2 subsets (length subsets)).
  - intros a y. unfold index. destruct (subsets !! y); simpl; eauto.
Qed.

Lemma lin_constrs_Raise (n : Z) (ij : nat * nat) e :
  lin_constrs n ij = Raise e → e = KeyError.
Proof.
  destruct ij as [i j]. unfold lin_constrs, x_var.
  repeat case_decide; simpl; congruence.
Qed.

Lemma build_model_Raise (n : Z) (subsets : list (gset Z)) (A : gmap (nat * nat) F) e :
  build_model n subsets A = Raise e →
  (e = IndexError ∧ (length subsets < Z.to_nat n)%nat) ∨
  (e = KeyError ∧ (Z.to_nat n ≤ length subsets)%nat ∧
   ∃ i j, is_Some (A !! (i, j)) ∧ ¬ ((i < Z.to_nat n)%nat ∧ (j < Z.to_nat n)%nat)).
Proof.
  intros Hm. destruct (decide (length subsets < Z.to_nat n)%nat) as [Hlt|Hge].
  - left. unfold build_model in Hm. rewrite cover_constrs_Raise in Hm by done.
    simpl in Hm. split; [congruence | done].
  - right. unfold build_model in Hm. rewrite cover_constrs_Ok in Hm by lia.
    simpl in Hm.
    destruct (forR (lin_constrs n) (map_to_list A).*1) as [lin|e'] eqn:Hlin;
      simpl in Hm; [done|]. injection Hm as ->.
    apply forR_Raise_inv in Hlin as ([i j] & Hin & Hij).
    split_and!; [by eapply lin_constrs_Raise | lia |].
    exists i, j. split.
    + apply list_elem_of_fmap in Hin as ([p a] & Hp & Hin). simpl in Hp. subst p.
      apply elem_of_map_to_list in Hin. by eexists.
    + intros [Hi Hj]. by rewrite lin_constrs_Ok in Hij.
Qed.
End ModelErrors.

(** X6. [build_and_solve] builds its model exactly when [subsets] has a set
    for each of the [n] items and every key of [A] is a pair of items. With
    fewer than [n] sets the cover constraints raise [IndexError]; otherwise
    a key with an index outside [0..n-1] raises [KeyError]; nothing else is
    raised. *)
Theorem build_model_errors {F : Type} (n : Z) (subsets : list (gset Z))
    (A : gmap (nat * nat) F) :
  let in_range := ∀ i j, is_Some (A !! (i, j)) →
                    (i < Z.to_nat n)%nat ∧ (j < Z.to_nat n)%nat in
  ((∃ m, build_model n subsets A = Ok m) ↔
   (Z.to_nat n ≤ length subsets)%nat ∧ in_range) ∧
  (build_model n subsets A = Raise IndexError ↔ (length subsets < Z.to_nat n)%nat) ∧
  (build_model n subsets A = Raise KeyError ↔
   (Z.to_nat n ≤ length subsets)%nat ∧ ¬ in_range) ∧
  (∀ e, build_model n subsets A = Raise e → e = IndexError ∨ e = KeyError).
Proof.
  intros in_range.
  assert ((∃ m, build_model n subsets A = Ok m) ↔
          (Z.to_nat n ≤ length subsets)%nat ∧ in_range) as Hok.
  { split.
    - intros [m Hm]. apply build_model_inv in Hm as (? & ? & _). by split.
    - intros [Hlen Hkeys]. eexists. by apply build_model_Ok. }
  split_and!; [done| | |].
  - split.
    + intros Hm. apply build_model_Raise in Hm as [[_ ?]|[[=] _]]. done.
    + intros Hlt. unfold build_model. by rewrite cover_constrs_Raise.
  - split.
    + intros Hm. apply build_model_Raise in Hm as [[[=] _]|(_ & Hlen & i & j & Hkey & Hout)].
      split; [done|]. intros Hall. apply Hout. by apply Hall.
    + intros [Hlen Hout].
      destruct (build_model n subsets A) as [m|e] eqn:Hm.
      * exfalso. apply Hout. apply Hok. by exists m.
      * apply build_model_Raise in Hm as [[_ ?]|[-> _]]; [lia | done].
  - intros e Hm. apply build_model_Raise in Hm as [[-> _]|[-> _]]; auto.
Qed.

Section ModelSize.
Context {F : Type}.

Lemma map_to_list_filter_perm (P : nat * nat * F → Prop) `{!∀ kv, Decision (P kv)}
    (A : gmap (nat * nat) F) :
  map_to_list (filter P A) ≡ₚ filter P (map_to_list A).
Proof.
  apply NoDup_Permutation.
  - apply NoDup_map_to_list.
  - apply NoDup_filter, NoDup_map_to_list.
  - intros [k a]. rewrite elem_of_map_to_list, map_lookup_filter_Some,
      list_elem_of_filter, elem_of_map_to_list. naive_solver.
Qed.

Lemma length_linearizations (l : list (nat * nat * F)) :
  length (concat (linearization <$> l.*1))
  = (length l + 2 * length (filter (λ kv, kv.1.1 ≠ kv.1.2) l))%nat.
Proof.
  induction l as [|[[i j] a] l IH]; [done|].
  rewrite !fmap_cons, filter_cons. cbn [concat]. rewrite length_app, IH.
  unfold linearization. simpl.
  destruct (decide (i = j)), (decide (i ≠ j)); simpl; try done; lia.
Qed.

(** The key a constraint of the linearisation is named after. *)
Lemma linearization_names (ij : nat * nat) c :
  c ∈ linearization ij →
  match c_name c with
  | cover _ => False
  | diag i => ij = (i, i)
  | mc1 i j | mc2 i j | mc3 i j => ij = (i, j)
  end.
Proof.
  destruct ij as [i j]. unfold linearization. destruct (decide (i = j)) as [->|].
  - by intros ->%list_elem_of_singleton.
  - rewrite !elem_of_cons. intros [->|[->|[->|Hnil]]]; try done.
    by apply elem_of_nil in Hnil.
Qed.

Lemma NoDup_linearization_names (ij : nat * nat) :
  NoDup (c_name <$> linearization ij).
Proof.
  destruct ij as [i j]. unfold linearization. destruct (decide (i = j)); simpl.
  - apply NoDup_singleton.
  - repeat (constructor; [set_solver|]). constructor.
Qed.

Lemma NoDup_linearizations_names (keys : list (nat * nat)) :
  NoDup keys → NoDup (c_name <$> concat (linearization <$> keys)).
Proof.
  induction 1 as [|ij keys Hnin Hnd IH]; [constructor|].
  rewrite fmap_cons. cbn [concat]. rewrite fmap_app. apply NoDup_app.
  split_and!; [apply NoDup_linearization_names| |done].
  intros name Hin1 Hin2.
  apply list_elem_of_fmap in Hin1 as (c1 & -> & Hc1).
  apply list_elem_of_fmap in Hin2 as (c2 & Hname & Hc2).
  apply elem_of_concat in Hc2 as (l & Hc2 & Hl).
  apply list_elem_of_fmap in Hl as (ij' & -> & Hij').
  apply linearization_names in Hc1, Hc2. rewrite Hname in Hc1.
  destruct (c_name c2); try done; congruence.
Qed.

End ModelSize.

(** X7. The model has [n] binary variables and one product variable per
    key of [A]; one cover constraint per item, one constraint per diagonal
    key and three per key off the diagonal; and no two constraints share a
    name. *)
Theorem model_counts {F : Type} (n : Z) (subsets : list (gset Z))
    (A : gmap (nat * nat) F) (m : Model F) :
  build_model n subsets A = Ok m →
  length (m_vars m) = (Z.to_nat n + size A)%nat ∧
  length (m_constrs m) = (Z.to_nat n + size A + 2 * size (off_diagonal A))%nat ∧
  NoDup (c_name <$> m_constrs m).
Proof.
  intros Hm. apply build_model_inv in Hm as (_ & _ & ->). simpl. split_and!.
  - by rewrite length_app, !length_fmap, length_seq, length_map_to_list.
  - rewrite length_app, length_fmap, length_seq, length_linearizations.
    rewrite length_map_to_list. unfold off_diagonal.
    rewrite <- (length_map_to_list (filter _ A)).
    rewrite (map_to_list_filter_perm (λ kv, kv.1.1 ≠ kv.1.2)). lia.
  - rewrite fmap_app. apply NoDup_app. split_and!.
    + rewrite <- list_fmap_compose. apply NoDup_fmap_2; [|apply NoDup_seq].
      by intros k1 k2 [=].
    + intros name Hin1 Hin2.
      apply list_elem_of_fmap in Hin1 as (c1 & -> & Hc1).
      apply list_elem_of_fmap in Hc1 as (k & -> & _).
      apply list_elem_of_fmap in Hin2 as (c2 & Hname & Hc2).
      apply elem_of_concat in Hc2 as (l & Hc2 & Hl).
      apply list_elem_of_fmap in Hl as (ij & -> & _).
      apply linearization_names in Hc2. by rewrite <- Hname in Hc2.
    + apply NoDup_linearizations_names, NoDup_fst_map_to_list.
Qed.

(** ** The dictionary [build_and_solve] returns *)

Lemma StronglySorted_filter_seq (P : nat → Prop) `{!∀ i, Decision (P i)} (a k : nat) :
  StronglySorted lt (filter P (seq a k)).
Proof.
  revert a. induction k as [|k IH]; intros a; [constructor|].
  cbn [seq]. rewrite filter_cons. destruct (decide (P a)); [|apply IH].
  constructor; [apply IH|]. apply Forall_forall. intros i Hi.
  apply list_elem_of_filter in Hi as [_ Hi]. apply elem_of_seq in Hi. lia.
Qed.

Lemma sum_from (acc : Z) (xv : list Z) :
  foldl Z.add acc xv = acc + build_and_solve.sum xv.
Proof.
  unfold build_and_solve.sum. revert acc.
  induction xv as [|v xv IH]; intros acc; cbn [foldl]; [lia|].
  rewrite (IH (acc + v)), (IH (0 + v)). lia.
Qed.

Lemma sum_binary (g : nat → Z) (l : list nat) :
  Forall (λ i, g i = 0 ∨ g i = 1) l →
  build_and_solve.sum (g <$> l) = Z.of_nat (length (filter (λ i, g i = 1) l)).
Proof.
  induction 1 as [|i l Hi _ IH]; [done|].
  rewrite fmap_cons, filter_cons. unfold build_and_solve.sum. cbn [foldl].
  rewrite sum_from, IH. destruct (decide (g i = 1)); simpl; lia.
Qed.

Section Result.
Context {F : Type} `{!PyFloat F}.

Lemma rounded_lookup (n : Z) (m : build_and_solve.outcome F) (i : nat) :
  (i < Z.to_nat n)%nat →
  build_and_solve.rounded n m !! i = Some (F_round (build_and_solve.x_X m i)).
Proof.
  intros Hi. unfold build_and_solve.rounded.
  by rewrite list_lookup_fmap, lookup_seq_lt.
Qed.

Lemma selected_filter (n : Z) (m : build_and_solve.outcome F) :
  filter (λ i, build_and_solve.rounded n m !!! i = 1) (seq 0 (Z.to_nat n))
  = filter (λ i, F_round (build_and_solve.x_X m i) = 1) (seq 0 (Z.to_nat n)).
Proof.
  apply filter_ext_in. intros i Hi. apply elem_of_seq in Hi.
  pose proof (rounded_lookup n m i ltac:(lia)) as Hx.
  by rewrite (list_lookup_total_correct _ _ _ Hx).
Qed.

Lemma result_solution (n : Z) (m : build_and_solve.outcome F) :
  0 < build_and_solve.SolCount m →
  let r := build_and_solve.result n m in
  let xv := build_and_solve.rounded n m in
  ∃ sel,
    build_and_solve.obj_val r = Some (build_and_solve.ObjVal m) ∧
    build_and_solve.x r = Some xv ∧ length xv = Z.to_nat n ∧
    build_and_solve.selected_sets r = Some sel ∧
    build_and_solve.n_selected r = Some (build_and_solve.sum xv) ∧
    StronglySorted lt sel ∧
    (∀ i, i ∈ sel ↔ xv !! i = Some 1) ∧
    (Forall (λ v, v = 0 ∨ v = 1) xv →
     build_and_solve.sum xv = Z.of_nat (length sel)).
Proof.
  intros Hsol r xv. unfold r, build_and_solve.result. rewrite decide_True by done.
  eexists. simpl. split_and!; try done.
  - unfold xv, build_and_solve.rounded. by rewrite length_fmap, length_seq.
  - apply StronglySorted_filter_seq.
  - intros i. rewrite list_elem_of_filter, elem_of_seq. split.
    + intros [Hi Hlt].
      pose proof (rounded_lookup n m i ltac:(lia)) as Hx.
      rewrite (list_lookup_total_correct _ _ _ Hx) in Hi. fold xv in Hx. congruence.
    + intros Hx. assert (i < Z.to_nat n)%nat as Hlt.
      { apply lookup_lt_Some in Hx. unfold xv, build_and_solve.rounded in Hx.
        by rewrite length_fmap, length_seq in Hx. }
      split; [|lia]. by rewrite (list_lookup_total_correct _ _ _ Hx).
  - intros Hbin. rewrite selected_filter. unfold xv, build_and_solve.rounded.
    apply sum_binary. apply Forall_forall. intros i Hi. apply elem_of_seq in Hi.
    rewrite Forall_forall in Hbin. apply Hbin.
    eapply list_elem_of_lookup_2. apply rounded_lookup. lia.
Qed.

End Result.

(** X8. When the solver reports a solution, the dictionary holds the
    objective value, the [n] rounded values of [x], the items whose rounded
    value is 1 in increasing order, and the sum of the rounded values; that
    sum is the number of selected items when every rounded value is 0 or 1.
    The status, the running time, the bound and the gap are reported as
    the solver gives them. *)
Theorem result_with_solution {F : Type} `{!PyFloat F} (n : Z)
    (m : build_and_solve.outcome F) :
  0 < build_and_solve.SolCount m →
  let r := build_and_solve.result n m in
  let xv := build_and_solve.rounded n m in
  (build_and_solve.status r = build_and_solve.Status m ∧
   build_and_solve.runtime r = build_and_solve.Runtime m ∧
   build_and_solve.best_bound r = build_and_solve.ObjBound m ∧
   build_and_solve.mip_gap r = build_and_solve.MIPGap m) ∧
  ∃ sel,
    build_and_solve.obj_val r = Some (build_and_solve.ObjVal m) ∧
    build_and_solve.x r = Some xv ∧ length xv = Z.to_nat n ∧
    build_and_solve.selected_sets r = Some sel ∧
    build_and_solve.n_selected r = Some (build_and_solve.sum xv) ∧
    StronglySorted lt sel ∧
    (∀ i, i ∈ sel ↔ xv !! i = Some 1) ∧
    (Forall (λ v, v = 0 ∨ v = 1) xv →
     build_and_solve.sum xv = Z.of_nat (length sel)).
Proof.
  intros Hsol r xv. split; [|by apply result_solution].
  unfold r, build_and_solve.result. by rewrite decide_True by done.
Qed.

(** ** Coverage repair: errors and fixed points *)

Section RepairFacts.
Context `{!SetIteration} `{!SetIterationLaw}.

Lemma py_index_Ok (len : nat) (k : Z) :
  - Z.of_nat len ≤ k < Z.of_nat len → ∃ i, py_index len k = Ok i ∧ (i < len)%nat.
Proof.
  intros Hk. unfold py_index. destruct (decide (0 ≤ k < Z.of_nat len)).
  - eexists. split; [done|]. lia.
  - rewrite decide_True by lia. eexists. split; [done|]. lia.
Qed.

Lemma py_index_Raise (len : nat) (k : Z) :
  ¬ (- Z.of_nat len ≤ k < Z.of_nat len) → py_index len k = Raise IndexError.
Proof. intros Hk. unfold py_index. by rewrite !decide_False by lia. Qed.

(** Counting elements returns a list of the same length when every
    element is a position of the list, from either end, and raises
    [IndexError] otherwise. *)
Lemma count_elems_result (ks : list Z) (cov : list nat) :
  let valid := λ k, - Z.of_nat (length cov) ≤ k < Z.of_nat (length cov) in
  (Forall valid ks → ∃ cov', foldR count_elem cov ks = Ok cov' ∧ length cov' = length cov) ∧
  (¬ Forall valid ks → foldR count_elem cov ks = Raise IndexError).
Proof.
  revert cov. induction ks as [|k ks IH]; intros cov valid.
  - split; [by exists cov|]. intros []. constructor.
  - cbn [foldR]. unfold valid.
    destruct (decide (- Z.of_nat (length cov) ≤ k < Z.of_nat (length cov))) as [Hk|Hk].
    + destruct (py_index_Ok _ _ Hk) as (i & Hidx & Hi).
      assert (count_elem cov k = Ok (alter S i cov)) as ->
        by (unfold count_elem; by rewrite Hidx).
      simpl. destruct (IH (alter S i cov)) as [IHok IHraise].
      rewrite length_alter in IHok, IHraise. split.
      * intros [_ Hks]%Forall_cons. by apply IHok.
      * intros Hnot. apply IHraise. intros Hks. apply Hnot. by constructor.
    + assert (count_elem cov k = Raise IndexError) as ->
        by (unfold count_elem; by rewrite py_index_Raise).
      simpl. split; [|done]. by intros [? _]%Forall_cons.
Qed.

Lemma count_sets_result (sets : list (gset Z)) (cov : list nat) :
  let valid := λ s : gset Z,
    ∀ k, k ∈ s → - Z.of_nat (length cov) ≤ k < Z.of_nat (length cov) in
  (Forall valid sets →
   ∃ cov', foldR (λ cov s, foldR count_elem cov (set_iter s)) cov sets = Ok cov' ∧
           length cov' = length cov) ∧
  (¬ Forall valid sets →
   foldR (λ cov s, foldR count_elem cov (set_iter s)) cov sets = Raise IndexError).
Proof.
  revert cov. induction sets as [|s sets IH]; intros cov valid.
  - split; [by exists cov|]. intros []. constructor.
  - cbn [foldR]. destruct (count_elems_result (set_iter s) cov) as [Hok Hraise].
    destruct (decide (Forall (λ k, - Z.of_nat (length cov) ≤ k < Z.of_nat (length cov))
                             (set_iter s))) as [Hs|Hs].
    + destruct (Hok Hs) as (cov1 & -> & Hlen1). simpl.
      destruct (IH cov1) as [IHok IHraise]. rewrite Hlen1 in IHok, IHraise. split.
      * intros [_ Hsets]%Forall_cons. by apply IHok.
      * intros Hnot. apply IHraise. intros Hsets. apply Hnot. constructor; [|done].
        intros k Hk. rewrite Forall_forall in Hs. apply Hs. by apply elem_of_set_iter.
    + rewrite (Hraise Hs). simpl. split; [|done].
      intros [Hv _]%Forall_cons. destruct Hs. apply Forall_forall.
      intros k Hk. apply Hv. by apply elem_of_set_iter.
Qed.

Lemma repair_loop_empty (ks : list Z) :
  foldR (λ (sets : list (gset Z)) k,
           idx ← py_min (λ i, size (sets !!! i)) (seq 0 (length sets));
           Ok (alter (λ s, s ∪ {[k]}) idx sets))
        [] ks
  = if decide (ks = []) then Ok [] else Raise (BuiltinValueError "min" "").
Proof. by destruct ks. Qed.

Lemma enforce_coverage_empty (n : Z) :
  enforce_coverage [] n
  = if decide (1 ≤ n) then Raise (BuiltinValueError "min" "") else Ok [].
Proof.
  unfold enforce_coverage. cbn [foldR mbind result_mbind result_bind].
  rewrite repair_loop_empty. destruct (decide (1 ≤ n)) as [Hn|Hn].
  - rewrite decide_False; [done|]. intros Hnil.
    assert (1 ∈ filter (λ k : Z, replicate (Z.to_nat (n + 1)) 0%nat !!! Z.to_nat k = 0%nat)
                       (seqZ 1 n)) as Hin; [|rewrite Hnil in Hin; by apply elem_of_nil in Hin].
    apply list_elem_of_filter. split; [|apply elem_of_seqZ; lia].
    rewrite lookup_total_replicate_2; [done|lia].
  - rewrite decide_True; [done|]. by rewrite seqZ_nil by lia.
Qed.

Lemma enforce_coverage_result (sets : list (gset Z)) (n : Z) :
  let valid := Forall (λ s : gset Z, ∀ k, k ∈ s → - (n + 1) ≤ k ≤ n) sets in
  (¬ valid → enforce_coverage sets n = Raise IndexError) ∧
  (valid → sets ≠ [] → ∃ sets', enforce_coverage sets n = Ok sets') ∧
  (sets = [] → 1 ≤ n → enforce_coverage sets n = Raise (BuiltinValueError "min" "")) ∧
  (sets = [] → n < 1 → enforce_coverage sets n = Ok []).
Proof.
  intros valid.
  destruct (count_sets_result sets (replicate (Z.to_nat (n + 1)) 0%nat)) as [Hok Hraise].
  rewrite length_replicate in Hok, Hraise.
  assert (valid ↔ Forall (λ s : gset Z, ∀ k, k ∈ s →
            - Z.of_nat (Z.to_nat (n + 1)) ≤ k < Z.of_nat (Z.to_nat (n + 1))) sets) as Hvalid.
  { unfold valid. apply Forall_proper; [|done]. intros s. split; intros Hs k Hk;
      specialize (Hs k Hk); lia. }
  split_and!.
  - intros Hnot. unfold enforce_coverage. rewrite Hraise; [done|]. by rewrite <- Hvalid.
  - intros Hv Hne. unfold enforce_coverage.
    destruct Hok as (cov & -> & _); [by apply Hvalid|]. simpl.
    destruct (repair_loop (filter (λ k, cov !!! Z.to_nat k = 0%nat) (seqZ 1 n)) sets Hne)
      as (sets' & Hloop & _).
    by exists sets'.
  - intros -> Hn. rewrite enforce_coverage_empty. by rewrite decide_True.
  - intros -> Hn. rewrite enforce_coverage_empty. by rewrite decide_False by lia.
Qed.

(** Nothing is uncovered: the list comes back as it is. *)
Lemma enforce_coverage_covered (sets : list (gset Z)) (n : Z) :
  Forall (λ s : gset Z, ∀ k, k ∈ s → 1 ≤ k ≤ n) sets →
  (∀ k, 1 ≤ k ≤ n → ∃ s, s ∈ sets ∧ k ∈ s) →
  enforce_coverage sets n = Ok sets.
Proof.
  intros Hrange Hcov. unfold enforce_coverage.
  destruct (count_sets sets (replicate (Z.to_nat (n + 1)) 0%nat))
    as (covered & -> & Hlen & Hzero).
  { rewrite length_replicate. eapply Forall_impl; [exact Hrange|].
    intros s Hs k Hk. apply Hs in Hk. lia. }
  simpl. rewrite length_replicate in Hlen.
  rewrite (missing_uncovered sets n covered Hlen).
  - assert (uncovered sets n = []) as ->; [|done].
    destruct (uncovered sets n) as [|k l] eqn:Hunc; [done|]. exfalso.
    assert (k ∈ uncovered sets n) as Hk by (rewrite Hunc; by left).
    apply list_elem_of_filter in Hk as [Hall Hk]. apply elem_of_seqZ in Hk.
    destruct (Hcov k ltac:(lia)) as (s & Hs & Hks).
    rewrite Forall_forall in Hall. by apply (Hall s).
  - intros j. rewrite Hzero. split; [naive_solver|]. intros Hall. split; [|done].
    destruct (decide (j < Z.to_nat (n + 1))%nat).
    + by rewrite lookup_total_replicate_2.
    + rewrite list_lookup_total_alt, (lookup_ge_None_2 _ j); [done|].
      rewrite length_replicate. lia.
Qed.

(** What [enforce_coverage] returns is over [1..n] and covers it. *)
Lemma enforce_coverage_Ok_inv (sets sets' : list (gset Z)) (n : Z) :
  Forall (λ s : gset Z, ∀ k, k ∈ s → 1 ≤ k ≤ n) sets →
  enforce_coverage sets n = Ok sets' →
  length sets' = length sets ∧
  Forall (λ s : gset Z, ∀ k, k ∈ s → 1 ≤ k ≤ n) sets' ∧
  (∀ k, 1 ≤ k ≤ n → ∃ s, s ∈ sets' ∧ k ∈ s) ∧
  ((∀ k, 1 ≤ k ≤ n → ∃ s, s ∈ sets ∧ k ∈ s) → sets' = sets).
Proof.
  intros Hrange Hrun. destruct (decide (sets = [])) as [->|Hne].
  - rewrite enforce_coverage_empty in Hrun. destruct (decide (1 ≤ n)); [done|].
    injection Hrun as <-. split_and!; [done | done | intros; lia | done].
  - destruct (enforce_coverage_repaired sets n Hne Hrange) as (sets1 & Hrun1 & Hrep).
    assert (sets1 = sets') as -> by congruence.
    destruct (repaired_grows _ _ _ Hrep) as (Hlen & _ & _ & Hold).
    split_and!; [done| | |].
    + apply Forall_forall. intros s' Hs' k Hk.
      apply list_elem_of_lookup in Hs' as [i Hi].
      destruct (Hold i s' k Hi Hk) as [Hunc|(s & Hs & Hks)].
      * apply list_elem_of_filter in Hunc as [_ Hunc]. apply elem_of_seqZ in Hunc. lia.
      * rewrite Forall_forall in Hrange. apply (Hrange s); [|done].
        by eapply list_elem_of_lookup_2.
    + by eapply repaired_covers.
    + intros Hcov. rewrite (enforce_coverage_covered sets n Hrange Hcov) in Hrun.
      congruence.
Qed.
End RepairFacts.

(** X9. [enforce_coverage] raises [IndexError] exactly when a set holds
    an element that is no position of [covered], that is outside
    [-(n+1)..n]; it raises the [ValueError] of [min] exactly on an empty
    list with [n >= 1]; and it returns in every other case. *)
Theorem enforce_coverage_errors `{!SetIteration} `{!SetIterationLaw}
    (sets : list (gset Z)) (n : Z) :
  let valid := Forall (λ s : gset Z, ∀ k, k ∈ s → - (n + 1) ≤ k ≤ n) sets in
  (enforce_coverage sets n = Raise IndexError ↔ ¬ valid) ∧
  (enforce_coverage sets n = Raise (BuiltinValueError "min" "") ↔ sets = [] ∧ 1 ≤ n) ∧
  ((∃ sets', enforce_coverage sets n = Ok sets') ↔ valid ∧ (sets = [] → n < 1)).
Proof.
  intros valid.
  destruct (enforce_coverage_result sets n) as (Hidx & Hok & Hmin & Hnil).
  fold valid in Hidx, Hok.
  destruct (decide valid) as [Hv|Hv].
  2:{ rewrite (Hidx Hv). split_and!; split; try done.
      - intros [-> _]. destruct Hv. constructor.
      - by intros [? ?].
      - by intros [? _]. }
  destruct (decide (sets = [])) as [Hs|Hs].
  - destruct (decide (1 ≤ n)) as [Hn|Hn].
    + rewrite (Hmin Hs Hn). split_and!; split; try done.
      * by intros [? ?].
      * intros [_ Hlt]. specialize (Hlt Hs). lia.
    + rewrite (Hnil Hs ltac:(lia)). split_and!; split; try done.
      * intros [_ ?]. lia.
      * intros _. split; [done|]. intros _. lia.
      * intros _. by eexists.
  - destruct (Hok Hv Hs) as (sets' & ->). split_and!; split; try done.
    + by intros [? _].
    + intros _. by eexists.
Qed.

(** X10. On sets over [1..n], [enforce_coverage] returns its argument
    unchanged exactly when every element of [1..n] is already covered, and
    a second pass changes nothing: what it returns is over [1..n], covers
    [1..n], and is returned as it is. *)
Theorem enforce_coverage_idempotent `{!SetIteration} `{!SetIterationLaw}
    (sets : list (gset Z)) (n : Z) :
  Forall (λ s : gset Z, ∀ k, k ∈ s → 1 ≤ k ≤ n) sets →
  (enforce_coverage sets n = Ok sets ↔ ∀ k, 1 ≤ k ≤ n → ∃ s, s ∈ sets ∧ k ∈ s) ∧
  (∀ sets', enforce_coverage sets n = Ok sets' →
     Forall (λ s : gset Z, ∀ k, k ∈ s → 1 ≤ k ≤ n) sets' ∧
     enforce_coverage sets' n = Ok sets').
Proof.
  intros Hrange. split.
  - split.
    + intros Hrun. by destruct (enforce_coverage_Ok_inv sets sets n Hrange Hrun) as (_ & _ & ? & _).
    + by apply enforce_coverage_covered.
  - intros sets' Hrun.
    destruct (enforce_coverage_Ok_inv sets sets' n Hrange Hrun) as (_ & Hrange' & Hcov' & _).
    split; [done|]. by apply enforce_coverage_covered.
Qed.

(** ** The covering sets of the generator *)

Section SetsFacts.
Context {F R : Type} `{!PyFloat F} `{!RandomSource F R}.

Lemma nonempty_fix_cons (s : gset Z) (sets : list (gset Z)) (n : Z) (r : R) :
  nonempty_fix (s :: sets) n r
  = py_bind (λ s', py_bind (λ rest, py_ret (s' :: rest)) (nonempty_fix sets n))
            (if decide (s = ∅) then k ← randrange 1 (n + 1); mret (s ∪ {[k]})
             else mret s) r.
Proof. done. Qed.

(** Without an empty set [nonempty_fix] returns the list as it is and
    draws nothing. *)
Lemma nonempty_fix_id (sets : list (gset Z)) (n : Z) (r : R) :
  Forall (λ s : gset Z, s ≠ ∅) sets → nonempty_fix sets n r = Ok (sets, r).
Proof.
  revert r. induction sets as [|s sets IH]; intros r Hall; [done|].
  apply Forall_cons in Hall as [Hs Hall]. rewrite nonempty_fix_cons.
  rewrite decide_False by done. unfold mret, Py_ret. unfold py_bind at 1, py_ret at 1.
  unfold py_bind at 1. by rewrite IH.
Qed.

Lemma nonempty_fix_Raise (sets : list (gset Z)) (n : Z) (r : R) :
  n < 1 → ¬ Forall (λ s : gset Z, s ≠ ∅) sets →
  nonempty_fix sets n r = Raise (BuiltinValueError "randrange" "").
Proof.
  intros Hn. revert r. induction sets as [|s sets IH]; intros r Hnot.
  - destruct Hnot. constructor.
  - rewrite nonempty_fix_cons. destruct (decide (s = ∅)) as [->|Hs].
    + unfold mbind, Py_mbind, randrange. rewrite decide_False by lia. done.
    + unfold mret, Py_ret. unfold py_bind at 1, py_ret at 1. unfold py_bind at 1.
      rewrite IH; [done|]. intros Hall. apply Hnot. by constructor.
Qed.

Context `{!RandomSourceLaws F R}.

Lemma nonempty_fix_Ok (sets : list (gset Z)) (n : Z) (r : R) :
  1 ≤ n →
  ∃ sets' r', nonempty_fix sets n r = Ok (sets', r') ∧
    Forall2 (λ s s' : gset Z,
               if decide (s = ∅) then ∃ k, 1 ≤ k ≤ n ∧ s' = {[k]} else s' = s)
            sets sets'.
Proof.
  intros Hn. unfold nonempty_fix. apply forM_total. intros s r0 _.
  destruct (decide (s = ∅)) as [->|Hne].
  - unfold mbind, Py_mbind, mret, Py_ret, py_bind, randrange, py_ret.
    rewrite decide_True by lia.
    pose proof (randrange_in_range 1 (n + 1) r0 ltac:(lia)) as Hk.
    destruct (rng_randrange 1 (n + 1) r0) as [k r1]. simpl in Hk.
    eexists _, _. split; [done|]. exists k. split; [lia|]. set_solver.
  - unfold mret, Py_ret, py_ret. eexists _, _. by split.
Qed.
End SetsFacts.

(** X11. [nonempty_fix] leaves every non-empty set as it is and makes
    every empty set a singleton of an element of [1..n], drawn by
    [randrange]. Without an empty set it returns the list unchanged and
    draws nothing, whatever [n]; with one, and [n < 1], [randrange] raises
    on its empty range. *)
Theorem nonempty_fix_singletons {F R : Type} `{!PyFloat F} `{!RandomSource F R}
    `{!RandomSourceLaws F R} (sets : list (gset Z)) (n : Z) (rng : R) :
  (1 ≤ n →
   ∃ sets' rng', nonempty_fix sets n rng = Ok (sets', rng') ∧
     Forall2 (λ s s' : gset Z,
                if decide (s = ∅) then ∃ k, 1 ≤ k ≤ n ∧ s' = {[k]} else s' = s)
             sets sets') ∧
  (Forall (λ s : gset Z, s ≠ ∅) sets → nonempty_fix sets n rng = Ok (sets, rng)) ∧
  (n < 1 → ¬ Forall (λ s : gset Z, s ≠ ∅) sets →
   nonempty_fix sets n rng = Raise (BuiltinValueError "randrange" "")).
Proof.
  split_and!.
  - apply nonempty_fix_Ok.
  - apply nonempty_fix_id.
  - apply nonempty_fix_Raise.
Qed.

Section IntervalFacts.
Context {F R : Type} `{!PyFloat F} `{!RandomSource F R}.

(** The set of item [i] is an interval that starts at [i]. *)
Lemma pattern_interval_centers (n : Z) (r : R) :
  1 ≤ n →
  ∃ sets r', pattern_interval n r = Ok (sets, r') ∧ sets_over n sets ∧
             ∀ i s, sets !! i = Some s → Z.of_nat i + 1 ∈ s.
Proof.
  intros Hn. unfold pattern_interval, _avg_size, mbind, Py_mbind.
  rewrite (decide_False (P := n < 0)) by lia. unfold py_bind at 1. simpl py_lift. cbv beta iota.
  match goal with |- context [forM ?body _] =>
    destruct (forM_total (λ (i : Z) (s : gset Z), (∀ k, k ∈ s → 1 ≤ k ≤ n) ∧ i ∈ s)
                body (seqZ 1 n)) with (s := r) as (sets & r' & Hrun & Hall)
  end.
  - intros i s Hi. apply elem_of_seqZ in Hi.
    unfold mbind, Py_mbind, mret, Py_ret, py_bind, random, py_ret.
    destruct (rng_random s) as [u s1]. eexists _, _. split; [done|]. split.
    + intros k Hk. apply elem_of_list_to_set, list_elem_of_fmap in Hk as (t & -> & _).
      pose proof (Z.mod_pos_bound (i - 1 + t) n ltac:(lia)). lia.
    + apply elem_of_list_to_set, list_elem_of_fmap. exists 0. split.
      * rewrite Z.add_0_r, Z.mod_small by lia. lia.
      * apply elem_of_seqZ. lia.
  - exists sets, r'. split; [done|]. split; [split|].
    + apply Forall2_length in Hall. by rewrite length_seqZ in Hall.
    + eapply Forall2_Forall_r; [exact Hall|]. apply Forall_true. by intros ?? [? _].
    + intros i s Hs. destruct (Forall2_lookup_r _ _ _ _ _ Hall Hs) as (z & Hz & _ & Hin).
      apply lookup_seqZ in Hz as [-> _]. by replace (Z.of_nat i + 1) with (1 + Z.of_nat i) by lia.
Qed.
End IntervalFacts.

(** X12. With the pattern [interval] the set of item [i] is a circular
    interval within [1..n] that starts at [i], so the sets cover [1..n] and
    none is empty as they are drawn: the two repairs change nothing and
    draw nothing, and [build_sets] returns what [pattern_interval] drew. *)
Theorem interval_needs_no_repair {F R : Type} `{!PyFloat F} `{!RandomSource F R}
    `{!SetIteration} `{!SetIterationLaw} (n : Z) (rng : R) :
  1 ≤ n →
  ∃ sets rng',
    pattern_interval n rng = Ok (sets, rng') ∧
    build_sets n "interval" rng = Ok (sets, rng') ∧
    length sets = Z.to_nat n ∧
    ∀ i s, sets !! i = Some s → Z.of_nat i + 1 ∈ s ∧ ∀ k, k ∈ s → 1 ≤ k ≤ n.
Proof.
  intros Hn.
  destruct (pattern_interval_centers n rng Hn) as (sets & rng' & Hrun & [Hlen Hrange] & Hcenter).
  exists sets, rng'. split_and!; [done| |done|].
  - unfold build_sets, mbind, Py_mbind. unfold py_bind at 1. simpl. rewrite Hrun.
    unfold py_bind at 1.
    rewrite (enforce_coverage_covered sets n Hrange).
    + simpl. apply nonempty_fix_id. apply Forall_forall. intros s Hs.
      apply list_elem_of_lookup in Hs as [i Hi]. specialize (Hcenter i s Hi). set_solver.
    + intros k Hk. destruct (lookup_lt_is_Some_2 sets (Z.to_nat (k - 1))) as [s Hs]; [lia|].
      exists s. split; [by eapply list_elem_of_lookup_2|].
      specialize (Hcenter _ _ Hs). by replace (Z.of_nat (Z.to_nat (k - 1)) + 1) with k in Hcenter by lia.
  - intros i s Hs. split; [by apply Hcenter|].
    rewrite Forall_forall in Hrange. apply Hrange. by eapply list_elem_of_lookup_2.
Qed.


(** ** The matrix of the generator and the text of an instance *)

Section MatrixRanges.
Context {F R : Type} `{!PyFloat F} `{!RandomSource F R} `{!RandomSourceLaws F R}.

Lemma draw_nonzero_range (range : Z * Z) (r : R) :
  range.1 ≤ -1 → 1 ≤ range.2 →
  ∃ a r', draw_nonzero range r = Ok (a, r') ∧ a ≠ 0 ∧ range.1 ≤ a ≤ range.2.
Proof.
  destruct range as [lo hi]. simpl. intros Hlo Hhi.
  assert ((lo, hi).1 ≤ (lo, hi).2) as Hle by (simpl; lia).
  destruct (draw_nonzero_total (lo, hi) r Hle) as (a & r' & Hdraw & Hnz).
  exists a, r'. split; [done|]. split; [done|].
  destruct (draw_nonzero_value (lo, hi) r a r' Hdraw) as [Hkeep Hrepl].
  pose proof (randint_in_range lo hi r Hle) as Hin. simpl in *.
  destruct (decide ((rng_randint lo hi r).1 = 0)) as [Hz|Hz].
  - destruct (Hrepl Hz) as [->| ->]; lia.
  - rewrite (Hkeep Hz). lia.
Qed.

Lemma off_diagonal_range (density : F) (range : Z * Z) (r : R) :
  range.1 ≤ -1 → 1 ≤ range.2 →
  ∃ a r', (u ← random; if F_ltb u density then draw_nonzero range else mret 0) r
          = Ok (a, r') ∧ range.1 ≤ a ≤ range.2.
Proof.
  intros Hlo Hhi.
  unfold mbind, Py_mbind, py_bind, random. destruct (rng_random r) as [u r1].
  destruct (F_ltb u density).
  - destruct (draw_nonzero_range range r1 Hlo Hhi) as (a & r2 & Ha & _ & Hin).
    by exists a, r2.
  - exists 0, r1. split; [done|]. destruct range. simpl in *. lia.
Qed.

Lemma gen_A_triangular_ranges (n : Z) (density : F) (diag_range off_range : Z * Z) (r : R) :
  diag_range.1 ≤ -1 → 1 ≤ diag_range.2 → off_range.1 ≤ -1 → 1 ≤ off_range.2 →
  ∃ rows r',
    gen_A_triangular n density diag_range off_range r = Ok (rows, r') ∧
    Forall2 (λ i row, length row = (Z.to_nat n - i)%nat ∧
                      ∃ aii rest, row = aii :: rest ∧ aii ≠ 0 ∧
                                  diag_range.1 ≤ aii ≤ diag_range.2 ∧
                                  Forall (λ a, off_range.1 ≤ a ≤ off_range.2) rest)
            (seq 0 (Z.to_nat n)) rows.
Proof.
  intros Hdlo Hdhi Holo Hohi.
  unfold gen_A_triangular. apply forM_total. intros i s Hi. apply elem_of_seq in Hi.
  unfold mbind, Py_mbind, mret, Py_ret. unfold py_bind at 1.
  destruct (draw_nonzero_range diag_range s Hdlo Hdhi) as (aii & s1 & Hdraw & Haii & Hin).
  rewrite Hdraw. unfold py_bind at 1.
  destruct (repeatM_total (λ a, off_range.1 ≤ a ≤ off_range.2) (Z.to_nat n - (i + 1))
              (py_bind (λ u, if F_ltb u density then draw_nonzero off_range else py_ret 0)
                       random)
              (λ s', off_diagonal_range density off_range s' Holo Hohi) s1)
    as (rest & s2 & -> & Hlen & Hrest).
  exists (aii :: rest), s2. split; [done|]. split; [simpl; lia|].
  by exists aii, rest.
Qed.
End MatrixRanges.

(** X14. When both ranges hold -1 and 1, as the default ranges do, every
    entry of the matrix is within its range: the first entry of a row
    within the diagonal range and not zero, the others within the range of
    the entries off the diagonal. *)
Theorem matrix_entries_in_range {F R : Type} `{!PyFloat F} `{!RandomSource F R}
    `{!RandomSourceLaws F R} (n : Z) (density : F) (diag_range off_range : Z * Z)
    (rng : R) :
  diag_range.1 ≤ -1 → 1 ≤ diag_range.2 → off_range.1 ≤ -1 → 1 ≤ off_range.2 →
  ∃ rows rng',
    gen_A_triangular n density diag_range off_range rng = Ok (rows, rng') ∧
    ∀ i row, rows !! i = Some row →
      ∃ aii rest, row = aii :: rest ∧ aii ≠ 0 ∧
                  diag_range.1 ≤ aii ≤ diag_range.2 ∧
                  Forall (λ a, off_range.1 ≤ a ≤ off_range.2) rest.
Proof.
  intros Hdlo Hdhi Holo Hohi.
  destruct (gen_A_triangular_ranges n density diag_range off_range rng Hdlo Hdhi Holo Hohi)
    as (rows & rng' & Hgen & Hrows).
  exists rows, rng'. split; [done|]. intros i row Hrow.
  by destruct (Forall2_lookup_r _ _ _ _ _ Hrows Hrow) as (i' & _ & _ & Hspec).
Qed.

Section WriteRows.
Context `{!SetIteration}.

Lemma write_instance_take (n : Z) (sets : list (gset Z)) (A_rows : list (list Z)) :
  (Z.to_nat n ≤ length A_rows)%nat →
  write_instance n sets A_rows
  = Ok (instance_text n sets (take (Z.to_nat n) A_rows)).
Proof.
  intros Hlen. unfold write_instance.
  rewrite (forR_index (λ row, join " " (py_str <$> row) +:+ nl)) by (simpl; lia).
  simpl. by rewrite drop_0.
Qed.

Lemma forR_index_short {X B} (f : X → B) (l : list X) (k : nat) :
  (length l < k)%nat →
  forR (λ i, x ← index l i; Ok (f x)) (seq 0 k) = Raise IndexError.
Proof.
  intros Hlt.
  replace k with (length l + S (k - S (length l)))%nat by lia.
  rewrite seq_app. generalize (k - S (length l))%nat. intros k'. simpl.
  assert (∀ a j, (a + j = length l)%nat →
            forR (λ i, x ← index l i; Ok (f x))
                 (seq a j ++ length l :: seq (S (length l)) k') = Raise IndexError) as Hgen.
  { intros a j. revert a. induction j as [|j IH]; intros a Haj.
    - simpl. replace a with (length l) by lia. unfold index.
      by rewrite (lookup_ge_None_2 l (length l)).
    - cbn [seq app forR]. destruct (l !! a) as [x|] eqn:Hx.
      2:{ apply lookup_ge_None in Hx. lia. }
      rewrite (index_Some _ _ _ Hx). cbn [mbind result_mbind result_bind].
      by rewrite IH by lia. }
  by apply Hgen.
Qed.

Lemma write_instance_short (n : Z) (sets : list (gset Z)) (A_rows : list (list Z)) :
  (length A_rows < Z.to_nat n)%nat → write_instance n sets A_rows = Raise IndexError.
Proof.
  intros Hlt. unfold write_instance.
  by rewrite (forR_index_short (λ row, join " " (py_str <$> row) +:+ nl)).
Qed.
End WriteRows.

(** X15. [write_instance] writes the first [n] rows of the matrix and
    ignores the rows beyond them; with fewer than [n] rows it raises
    [IndexError]. The number of sets is not compared with [n]. *)
Theorem write_instance_rows `{!SetIteration} (n : Z) (sets : list (gset Z))
    (A_rows : list (list Z)) :
  (write_instance n sets A_rows = Raise IndexError ↔ (length A_rows < Z.to_nat n)%nat) ∧
  (∀ text, write_instance n sets A_rows = Ok text ↔
     (Z.to_nat n ≤ length A_rows)%nat ∧
     text = instance_text n sets (take (Z.to_nat n) A_rows)) ∧
  (∀ more, (Z.to_nat n ≤ length A_rows)%nat →
     write_instance n sets (A_rows ++ more) = write_instance n sets A_rows).
Proof.
  destruct (decide (length A_rows < Z.to_nat n)%nat) as [Hlt|Hge].
  - rewrite write_instance_short by done. split_and!.
    + done.
    + intros text. split; [done | intros [? _]; lia].
    + intros more ?. lia.
  - rewrite write_instance_take by lia. split_and!.
    + split; [done | lia].
    + intros text. split; [intros [= <-]; split; [lia | done] | by intros [_ ->]].
    + intros more _. rewrite write_instance_take by (rewrite length_app; lia).
      by rewrite take_app_le by lia.
Qed.

(** ** File names *)

Lemma split_at_char (c : ascii) (d d' r r' : string) :
  char_free c d = true → char_free c d' = true →
  d +:+ String c r = d' +:+ String c r' → d = d' ∧ r = r'.
Proof.
  revert d'. induction d as [|x d IH]; intros [|x' d']; simpl.
  - intros _ _. rewrite !app_empty_l. by intros [= ->].
  - intros _ [Hx _]%andb_true_iff. rewrite app_empty_l, app_String. intros [= <- _].
    by rewrite (proj2 (Ascii.eqb_eq _ _) eq_refl) in Hx.
  - intros [Hx _]%andb_true_iff _. rewrite app_empty_l, app_String. intros [= -> _].
    by rewrite (proj2 (Ascii.eqb_eq _ _) eq_refl) in Hx.
  - intros [_ Hd]%andb_true_iff [_ Hd']%andb_true_iff. rewrite !app_String.
    intros [= -> Heq]. destruct (IH d' Hd Hd' Heq) as [-> ->]. done.
Qed.

Lemma digits_char_free (c : ascii) (d : string) :
  digit_val c = None → digits_only d = true → char_free c d = true.
Proof.
  intros Hc. induction d as [|x d IH]; [done|].
  intros [[v Hv] Hd]%digits_only_cons. cbn [char_free]. rewrite IH by done.
  rewrite andb_true_r. apply negb_true_iff, Ascii.eqb_neq. intros ->. congruence.
Qed.

Lemma py_str_char_free (c : ascii) (k : Z) :
  digit_val c = None → c ≠ "-"%char → char_free c (py_str k) = true.
Proof.
  intros Hc Hminus. unfold py_str. destruct k as [|p|p].
  - by apply (digits_char_free c "0").
  - destruct (pretty_pos_decimal p) as (d & -> & _ & Hdig & _).
    by apply digits_char_free.
  - destruct (pretty_pos_decimal p) as (d & Hd & _ & Hdig & _).
    change (pretty (Z.neg p)) with ("-" +:+ pretty (Z.pos p)).
    rewrite Hd, app_String, app_empty_l. cbn [char_free].
    rewrite digits_char_free by done.
    rewrite andb_true_r. apply negb_true_iff, Ascii.eqb_neq. by intros <-.
Qed.

Lemma py_str_inj (a b : Z) : py_str a = py_str b → a = b.
Proof.
  intros Heq. pose proof (int_literal_py_str a) as Ha.
  rewrite Heq, int_literal_py_str in Ha. congruence.
Qed.

Lemma file_name_inj (n n' : Z) (pat pat' : string) (seed seed' : Z) :
  pat ∈ ["uniform"; "interval"; "pareto"] → pat' ∈ ["uniform"; "interval"; "pareto"] →
  file_name n pat seed = file_name n' pat' seed' →
  n = n' ∧ pat = pat' ∧ seed = seed'.
Proof.
  intros Hpat Hpat'. unfold file_name. rewrite !app_String, !app_empty_l.
  intros [= Heq].
  apply split_at_char in Heq as [Hn Heq];
    [|by apply py_str_char_free..].
  apply py_str_inj in Hn as ->.
  assert (pat = pat' ∧ py_str seed +:+ ".txt" = py_str seed' +:+ ".txt") as [-> Hseed].
  { rewrite !elem_of_cons in Hpat, Hpat'.
    destruct Hpat as [->|[->|[->|Hnil]]]; [| | |by apply elem_of_nil in Hnil];
      destruct Hpat' as [->|[->|[->|Hnil]]]; try (by apply elem_of_nil in Hnil);
      rewrite !app_String, !app_empty_l in Heq; by simplify_eq. }
  change ".txt" with (String "."%char "txt") in Hseed.
  apply split_at_char in Hseed as [Hseed _]; [|by apply py_str_char_free..].
  by apply py_str_inj in Hseed as ->.
Qed.

Lemma path_join_inj (a b b' : string) :
  (∀ s, b ≠ String "/"%char s) → (∀ s, b' ≠ String "/"%char s) →
  path_join a b = path_join a b' → b = b'.
Proof.
  intros Hb Hb'. unfold path_join.
  assert (∀ b0 : string, (∀ s, b0 ≠ String "/"%char s) →
            match b0 with
            | String "/"%char _ => b0
            | _ => if decide (a = "") then b0
                   else if endswith_slash a then a +:+ b0 else a +:+ "/" +:+ b0
            end
            = if decide (a = "") then b0
              else if endswith_slash a then a +:+ b0 else a +:+ "/" +:+ b0) as Hgen.
  { intros [|c s] Hne; [done|].
    destruct (Ascii.eqb_spec c "/"%char) as [->|Hc]; [by destruct (Hne s)|].
    destruct c as [[] [] [] [] [] [] [] []]; try done. }
  rewrite !Hgen by done. clear Hgen.
  assert (∀ x y : string, a +:+ x = a +:+ y → x = y) as Hcancel.
  { induction a as [|c a IH]; intros x y; [by rewrite !app_empty_l|].
    rewrite !app_String. intros [= Heq]. by apply IH. }
  destruct (decide (a = "")); [done|]. destruct (endswith_slash a).
  - apply Hcancel.
  - intros Heq%Hcancel. rewrite !app_String, !app_empty_l in Heq. by injection Heq.
Qed.

(** X16. The names of the files tell the instances apart: for the three
    patterns, two file names are equal only when the sizes, the patterns
    and the seeds are. *)
Theorem file_name_injective (n n' : Z) (pat pat' : string) (seed seed' : Z) :
  pat ∈ ["uniform"; "interval"; "pareto"] → pat' ∈ ["uniform"; "interval"; "pareto"] →
  file_name n pat seed = file_name n' pat' seed' →
  n = n' ∧ pat = pat' ∧ seed = seed'.
Proof. apply file_name_inj. Qed.

(** ** From the generator to the solver *)

Section Pipeline.
Context {F R : Type} `{!PyFloat F} `{!RandomSource F R} `{!RandomSourceLaws F R}.
Context `{!SetIteration} `{!SetIterationLaw}.

(** [build_sets] returns [n] sets over [1..n] that cover [1..n], none of
    them empty. *)
Lemma build_sets_spec (n : Z) (pattern : string) (r : R) :
  1 ≤ n → pattern ∈ ["uniform"; "interval"; "pareto"] →
  ∃ sets r',
    build_sets n pattern r = Ok (sets, r') ∧ sets_over n sets ∧
    (∀ k, 1 ≤ k ≤ n → ∃ s, s ∈ sets ∧ k ∈ s) ∧
    Forall (λ s : gset Z, s ≠ ∅) sets.
Proof.
  intros Hn Hpat.
  assert (∃ sets0 r0,
            (if decide (pattern = "uniform") then pattern_uniform n
             else if decide (pattern = "interval") then pattern_interval n
             else if decide (pattern = "pareto") then pattern_pareto n
             else py_raise (ValueError (msg_pattern pattern))) r
            = Ok (sets0, r0) ∧ sets_over n sets0) as (sets0 & r0 & Hpattern & Hlen0 & Hrange0).
  { rewrite !elem_of_cons in Hpat. destruct Hpat as [->|[->|[->|Hnil]]];
      [| | |by apply elem_of_nil in Hnil]; simpl.
    - by apply pattern_uniform_total.
    - by apply pattern_interval_total.
    - by apply pattern_pareto_total. }
  destruct (enforce_coverage_repaired sets0 n) as (sets1 & Hrepair & _); [|done|].
  { intros ->. simpl in Hlen0. lia. }
  destruct (enforce_coverage_Ok_inv sets0 sets1 n Hrange0 Hrepair)
    as (Hlen1 & Hrange1 & Hcov1 & _).
  destruct (nonempty_fix_Ok sets1 n r0 Hn) as (sets2 & r2 & Hfix & Hall).
  exists sets2, r2. split_and!.
  - unfold build_sets, mbind, Py_mbind. unfold py_bind at 1. rewrite Hpattern.
    unfold py_bind at 1. unfold py_lift. by rewrite Hrepair.
  - split.
    + apply Forall2_length in Hall. lia.
    + apply Forall_forall. intros s2 Hs2. apply list_elem_of_lookup in Hs2 as [i Hi].
      destruct (Forall2_lookup_r _ _ _ _ _ Hall Hi) as (s1 & Hs1 & Hrel).
      destruct (decide (s1 = ∅)) as [->|Hne].
      * destruct Hrel as (k & Hk & ->). intros k' ->%elem_of_singleton. done.
      * subst s2. rewrite Forall_forall in Hrange1. apply Hrange1.
        by eapply list_elem_of_lookup_2.
  - intros k Hk. destruct (Hcov1 k Hk) as (s1 & Hs1 & Hks1).
    apply list_elem_of_lookup in Hs1 as [i Hi].
    destruct (Forall2_lookup_l _ _ _ _ _ Hall Hi) as (s2 & Hs2 & Hrel).
    exists s2. split; [by eapply list_elem_of_lookup_2|].
    destruct (decide (s1 = ∅)) as [->|Hne]; [set_solver | by subst s2].
  - apply Forall_forall. intros s2 Hs2. apply list_elem_of_lookup in Hs2 as [i Hi].
    destruct (Forall2_lookup_r _ _ _ _ _ Hall Hi) as (s1 & Hs1 & Hrel).
    destruct (decide (s1 = ∅)) as [->|Hne]; [|by subst s2].
    destruct Hrel as (k & _ & ->). set_solver.
Qed.

(** The matrix of [main]: [n] rows, row [i] with [n - i] entries, the
    first of them not zero. *)
Lemma gen_A_triangular_shape (n : Z) (density : F) (r : R) :
  ∃ rows r',
    gen_A_triangular n density (-10, 10) (-5, 5) r = Ok (rows, r') ∧
    length rows = Z.to_nat n ∧
    ∀ i row, rows !! i = Some row →
      length row = (Z.to_nat n - i)%nat ∧ ∃ aii rest, row = aii :: rest ∧ aii ≠ 0.
Proof.
  destruct (gen_A_triangular_total n density (-10, 10) (-5, 5) r)
    as (rows & r' & Hgen & Hrows); [done..|].
  exists rows, r'. split_and!; [done| |].
  - apply Forall2_length in Hrows. by rewrite length_seq in Hrows.
  - intros i row Hrow.
    destruct (Forall2_lookup_r _ _ _ _ _ Hrows Hrow)
      as (i' & Hi' & Hlen & aii & rest & s & s' & -> & Hdraw).
    apply lookup_seq in Hi' as [-> _]. split; [done|]. exists aii, rest. split; [done|].
    destruct (draw_nonzero_total (-10, 10) s) as (a & s1 & Ha & Hnz); [done|]. congruence.
Qed.

(** The text of an instance parses to the instance. *)
Lemma parse_written_instance (n : Z) (sets : list (gset Z)) (A_rows : list (list Z)) :
  n = Z.of_nat (length sets) →
  Forall (λ s : gset Z, ∀ k, k ∈ s → 1 ≤ k ≤ n) sets →
  length A_rows = length sets →
  (∀ i row, A_rows !! i = Some row → length row = (length sets - i)%nat) →
  Forall (Forall float_reads) A_rows →
  ∃ A : gmap (nat * nat) F,
    parse_instance (instance_text n sets A_rows)
    = Ok (n, set_map (λ k, k - 1) <$> sets, A) ∧
    ∀ i j a, A !! (i, j) = Some a ↔
      ∃ row v, A_rows !! i = Some row ∧ (i ≤ j)%nat ∧
               row !! (j - i)%nat = Some v ∧ v ≠ 0 ∧ a = F_of_Z v.
Proof.
  intros Hn Hrange Hrows Hshape Hreads.
  assert (Z.to_nat n = length sets) as HN by lia.
  assert (∀ r row, A_rows !! r = Some row → length row = (length sets - (0 + r))%nat)
    as Hshape0 by (intros; by apply Hshape).
  assert (length (F_of_Z <$> concat A_rows) = Z.to_nat ((n * (n + 1)) `div` 2)) as Hclen.
  { rewrite length_fmap, (length_concat_rows (length sets) 0) by done.
    rewrite needed_upper_pairs by lia. by rewrite HN, Hrows. }
  destruct (build_A_needed n (F_of_Z <$> concat A_rows) Hclen) as (A & HA & Hspec).
  exists A. split.
  - unfold parse_instance. rewrite token_stream_readlines, split_instance_text.
    apply parse_tokens_Ok.
    exists ((λ s : gset Z, Z.of_nat (size s)) <$> sets), (sorted <$> sets),
           (F_of_Z <$> concat A_rows), []. split_and!; [| |done].
    + exists (py_str n), ((λ s : gset Z, py_str (Z.of_nat (size s))) <$> sets),
             ((λ s : gset Z, py_str <$> sorted s) <$> sets),
             (concat ((λ row : list Z, py_str <$> row) <$> A_rows)).
      split_and!; [done | apply int_literal_py_str | | | | | | done].
      * apply Forall2_fmap, Forall_Forall2_diag, Forall_forall. intros s _.
        apply int_literal_py_str.
      * rewrite length_fmap. lia.
      * apply Forall2_fmap, Forall_Forall2_diag.
        eapply Forall_impl; [exact Hrange|]. intros s Hs.
        apply Forall2_fmap_l, Forall_Forall2_diag, Forall_forall. intros k Hk.
        split; [apply int_literal_py_str|]. apply Hs. by apply elem_of_sorted.
      * apply Forall2_fmap, Forall_Forall2_diag, Forall_forall. intros s _.
        rewrite length_sorted. lia.
      * unfold float_tokens.
        replace (concat ((λ row : list Z, py_str <$> row) <$> A_rows))
          with (py_str <$> concat A_rows).
        2:{ clear. induction A_rows as [|row rows IH]; [done|].
            simpl. by rewrite fmap_app, IH. }
        apply Forall2_fmap, Forall_Forall2_diag.
        clear -Hreads. induction Hreads as [|row rows Hrow _ IH]; [constructor|].
        simpl. apply Forall_app. split; [|done].
        eapply Forall_impl; [exact Hrow|]. by intros v [Hv _].
    + rewrite <- list_fmap_compose. apply list_fmap_ext. intros _ s _. simpl.
      symmetry. apply internal_set_sorted.
  - intros i j a. rewrite Hspec, elem_of_zip_fmap_r. unfold upper_pairs.
    rewrite HN. replace (seq 0 (length sets)) with (seq 0 (length A_rows))
      by (by rewrite Hrows).
    split.
    + intros [(v & -> & Hin) Hnz].
      apply (elem_of_zip_rows (length sets) 0 A_rows) in Hin
        as (_ & Hij & row & Hrow & Hv); [|done].
      rewrite Nat.sub_0_r in Hrow. exists row, v. split_and!; [done..| |done].
      intros ->. rewrite Forall_forall in Hreads.
      assert (float_reads (F:=F) 0) as [_ Hz].
      { assert (Forall float_reads row) as Hr.
        { apply Hreads. by eapply list_elem_of_lookup_2. }
        rewrite Forall_forall in Hr. apply Hr. by eapply list_elem_of_lookup_2. }
      rewrite (proj2 Hz eq_refl) in Hnz. done.
    + intros (row & v & Hrow & Hij & Hv & Hnz & ->). split.
      * exists v. split; [done|].
        apply (elem_of_zip_rows (length sets) 0 A_rows); [done|].
        split_and!; [lia | done |]. exists row. by rewrite Nat.sub_0_r.
      * rewrite Forall_forall in Hreads.
        assert (float_reads (F:=F) v) as [_ Hz].
        { assert (Forall float_reads row) as Hr.
          { apply Hreads. by eapply list_elem_of_lookup_2. }
          rewrite Forall_forall in Hr. apply Hr. by eapply list_elem_of_lookup_2. }
        destruct (F_eqb (F_of_Z v) F_zero); [|done]. by destruct Hnz; apply Hz.
Qed.

(** What [main] generates is read back by the parser, and the model of
    what was read is feasible. *)
Lemma main_pipeline (n : Z) (pattern : string) (seed : Z) (rho : F) :
  1 ≤ n → pattern ∈ ["uniform"; "interval"; "pareto"] →
  (∀ v, float_reads (F:=F) v) →
  ∃ sets A_rows text (A : gmap (nat * nat) F) m,
    main n pattern seed rho = Ok (sets, A_rows, text) ∧
    sets_over n sets ∧
    parse_instance text = Ok (n, set_map (λ k, k - 1) <$> sets, A) ∧
    (∀ i, (i < Z.to_nat n)%nat → is_Some (A !! (i, i))) ∧
    build_model n (set_map (λ k, k - 1) <$> sets) A = Ok m ∧
    feasible (λ _, 1%Q) m.
Proof.
  intros Hn Hpat Hreads.
  destruct (build_sets_spec n pattern (Random seed) Hn Hpat)
    as (sets & r1 & Hsets & [Hlen Hrange] & Hcov & _).
  destruct (gen_A_triangular_shape n rho r1) as (rows & r2 & Hgen & Hrows & Hshape).
  destruct (parse_written_instance n sets rows) as (A & Hparse & HA); [lia|done|lia| | |].
  { intros i row Hrow. destruct (Hshape i row Hrow) as [-> _]. by rewrite Hlen. }
  { apply Forall_forall. intros row _. apply Forall_forall. intros v _. apply Hreads. }
  destruct (build_model_parsed _ _ _ _ Hparse) as [m Hm].
  exists sets, rows, (instance_text n sets rows), A, m. split_and!; [|done..| |done|].
  - unfold main, mbind, Py_mbind. unfold py_bind at 1. rewrite Hsets.
    unfold py_bind at 1. rewrite Hgen. unfold py_bind at 1, py_lift.
    by rewrite write_instance_Ok by lia.
  - intros i Hi. destruct (lookup_lt_is_Some_2 rows i) as [row Hrow]; [lia|].
    destruct (Hshape i row Hrow) as (_ & aii & rest & -> & Hnz).
    exists (F_of_Z aii). apply HA. exists (aii :: rest), aii.
    split_and!; [done | lia | by rewrite Nat.sub_diag | done | done].
  - apply (model_all_ones n _ A m Hm). intros k Hk.
    destruct (Hcov (Z.of_nat k + 1) ltac:(lia)) as (s & Hs & Hks).
    apply list_elem_of_lookup in Hs as [i Hi].
    exists i. split; [apply lookup_lt_Some in Hi; lia|].
    assert ((set_map (λ k0 : Z, k0 - 1) <$> sets) !! i
            = Some (set_map (λ k0 : Z, k0 - 1) s : gset Z)) as Hi'
      by (by rewrite list_lookup_fmap, Hi).
    rewrite (list_lookup_total_correct _ _ _ Hi').
    apply elem_of_map. exists (Z.of_nat k + 1). split; [lia | done].
Qed.
End Pipeline.

(** X17. Every set [build_sets] returns is a subset of [1..n], and there
    are [n] of them. *)
Theorem build_sets_within_universe {F R : Type} `{!PyFloat F} `{!RandomSource F R}
    `{!RandomSourceLaws F R} `{!SetIteration} `{!SetIterationLaw}
    (n : Z) (pattern : string) (rng : R) :
  1 ≤ n → pattern ∈ ["uniform"; "interval"; "pareto"] →
  ∃ sets rng',
    build_sets n pattern rng = Ok (sets, rng') ∧
    length sets = Z.to_nat n ∧
    Forall (λ s : gset Z, ∀ k, k ∈ s → 1 ≤ k ≤ n) sets.
Proof.
  intros Hn Hpat.
  destruct (build_sets_spec n pattern rng Hn Hpat) as (sets & rng' & Hrun & [Hlen Hrange] & _).
  by exists sets, rng'.
Qed.

(** X18. What the generator writes, the solver program reads: for every
    [n >= 1], pattern, seed and density the text of the generated file
    parses to [n], the generated sets (0-based) and a dictionary with a
    coefficient for every diagonal pair; the model built from it exists
    and is feasible, selecting every item being a feasible point. *)
Theorem generated_instance_is_solvable {F R : Type} `{!PyFloat F}
    `{!RandomSource F R} `{!RandomSourceLaws F R} `{!SetIteration}
    `{!SetIterationLaw} (n : Z) (pattern : string) (seed : Z) (rho : F) :
  1 ≤ n → pattern ∈ ["uniform"; "interval"; "pareto"] →
  (∀ v, float_reads (F:=F) v) →
  ∃ sets A_rows text (A : gmap (nat * nat) F) m,
    main n pattern seed rho = Ok (sets, A_rows, text) ∧
    parse_instance text = Ok (n, set_map (λ k, k - 1) <$> sets, A) ∧
    (∀ i, (i < Z.to_nat n)%nat → is_Some (A !! (i, i))) ∧
    build_model n (set_map (λ k, k - 1) <$> sets) A = Ok m ∧
    feasible (λ _, 1%Q) m.
Proof.
  intros Hn Hpat Hreads.
  destruct (main_pipeline n pattern seed rho Hn Hpat Hreads)
    as (sets & A_rows & text & A & m & Hmain & _ & Hparse & Hdiag & Hm & Hfeas).
  by exists sets, A_rows, text, A, m.
Qed.

(** ** The fifteen instances of [--all] *)

Lemma forM_updates {St X B} (body : X → Py St B) (out : X → B) (upd : X → St → St)
    (xs : list X) :
  (∀ x s, x ∈ xs → body x s = Ok (out x, upd x s)) →
  ∀ s, forM body xs s = Ok (out <$> xs, foldl (λ s x, upd x s) s xs).
Proof.
  induction xs as [|x xs IH]; intros Hbody s; [done|].
  cbn [forM]. unfold py_bind at 1. rewrite Hbody by (by left).
  unfold py_bind at 1. rewrite IH by (intros; apply Hbody; by right). done.
Qed.

Lemma lookup_foldl_insert {X} (p : X → string) (t : X → string) (xs : list X)
    (fs : gmap string string) :
  (∀ x y, x ∈ xs → y ∈ xs → p x = p y → x = y) →
  (∀ x, x ∈ xs → foldl (λ fs x, <[p x := t x]> fs) fs xs !! p x = Some (t x)) ∧
  (∀ q, q ∉ p <$> xs → foldl (λ fs x, <[p x := t x]> fs) fs xs !! q = fs !! q).
Proof.
  revert fs. induction xs as [|y xs IH] using rev_ind; intros fs Hinj.
  - split; [by intros x ?%elem_of_nil | done].
  - rewrite foldl_app. cbn [foldl].
    destruct (IH fs) as [IHin IHout].
    { intros x1 x2 H1 H2. apply Hinj; apply elem_of_app; by left. }
    split.
    + intros x Hx. destruct (decide (p x = p y)) as [Hp|Hp].
      * assert (x = y) as -> by (apply Hinj; [done|apply elem_of_app; right; by left|done]).
        by rewrite lookup_insert_eq.
      * rewrite lookup_insert_ne by done. apply IHin.
        apply elem_of_app in Hx as [?|Hx]; [done|].
        apply list_elem_of_singleton in Hx. congruence.
    + intros q Hq. rewrite fmap_app, not_elem_of_app in Hq. destruct Hq as [Hq1 Hq2].
      rewrite lookup_insert_ne by set_solver. by apply IHout.
Qed.

Lemma elem_of_all_instances (n pi : Z) (pat : string) :
  (n, pi, pat) ∈ all_instances ↔ n ∈ Ns ∧ (pi, pat) ∈ patterns.
Proof.
  unfold all_instances. rewrite list_elem_of_In, in_flat_map.
  setoid_rewrite <- list_elem_of_In. setoid_rewrite list_elem_of_fmap. split.
  - intros (n' & Hn' & [pi' pat'] & [= -> -> ->] & Hp). done.
  - intros [Hn Hp]. exists n. split; [done|]. by exists (pi, pat).
Qed.

Lemma instance_path_inj (outdir : string) (base : Z) (x y : Z * Z * string) :
  x ∈ all_instances → y ∈ all_instances →
  instance_path outdir base x = instance_path outdir base y → x = y.
Proof.
  destruct x as [[n pi] pat], y as [[n' pi'] pat'].
  rewrite !elem_of_all_instances. intros [_ Hp] [_ Hp'] Heq.
  unfold instance_path in Heq.
  apply path_join_inj in Heq; [|intros s; unfold file_name; by rewrite !app_String..].
  assert (pat ∈ ["uniform"; "interval"; "pareto"] ∧ pat' ∈ ["uniform"; "interval"; "pareto"])
    as [Hpat Hpat'].
  { unfold patterns in Hp, Hp'. set_unfold. naive_solver. }
  apply file_name_inj in Heq as (-> & -> & Hseed); [|done..].
  assert (pi = pi') as ->; [|done]. lia.
Qed.

Section AllMode.
Context {F R : Type} `{!PyFloat F} `{!RandomSource F R} `{!RandomSourceLaws F R}.
Context `{!SetIteration} `{!SetIterationLaw}.

Lemma main_Ok (n : Z) (pattern : string) (seed : Z) (rho : F) :
  1 ≤ n → pattern ∈ ["uniform"; "interval"; "pareto"] →
  ∃ sets A_rows text, main n pattern seed rho = Ok (sets, A_rows, text).
Proof.
  intros Hn Hpat.
  destruct (build_sets_spec n pattern (Random seed) Hn Hpat)
    as (sets & r1 & Hsets & [Hlen Hrange] & _).
  destruct (gen_A_triangular_shape n rho r1) as (rows & r2 & Hgen & Hrows & _).
  exists sets, rows, (instance_text n sets rows).
  unfold main, mbind, Py_mbind. unfold py_bind at 1. rewrite Hsets.
  unfold py_bind at 1. rewrite Hgen. unfold py_bind at 1, py_lift.
  by rewrite write_instance_Ok by lia.
Qed.

(** The text [main] writes, for stating what a file holds. *)
Lemma generate_one_Ok (outdir : string) (base : Z) (rho : F) (n pi : Z) (pat : string) :
  (n, pi, pat) ∈ all_instances →
  ∃ sets A_rows text,
    main n pat (base + 1000 * pi + n) rho = Ok (sets, A_rows, text) ∧
    ∀ fs, generate_one outdir base rho n pi pat fs
          = Ok (instance_path outdir base (n, pi, pat),
                <[instance_path outdir base (n, pi, pat) := text]> fs).
Proof.
  intros [Hn Hp]%elem_of_all_instances.
  destruct (main_Ok n pat (base + 1000 * pi + n) rho) as (sets & A_rows & text & Hmain).
  { unfold Ns in Hn. set_unfold. lia. }
  { unfold patterns in Hp. set_unfold. naive_solver. }
  exists sets, A_rows, text. split; [done|]. intros fs.
  unfold generate_one, py_bind, py_lift. by rewrite Hmain.
Qed.

Lemma main_all_spec (outdir : string) (seed : option Z) (rho : F)
    (fs : gmap string string) :
  let base := default 20250819 seed in
  ∃ fs',
    main_all outdir seed rho fs = Ok (instance_path outdir base <$> all_instances, fs') ∧
    NoDup (instance_path outdir base <$> all_instances) ∧
    (∀ n pi pat, (n, pi, pat) ∈ all_instances →
       ∃ sets A_rows text,
         main n pat (base + 1000 * pi + n) rho = Ok (sets, A_rows, text) ∧
         fs' !! instance_path outdir base (n, pi, pat) = Some text) ∧
    (∀ p, p ∉ instance_path outdir base <$> all_instances → fs' !! p = fs !! p).
Proof.
  intros base.
  set (text_of := λ x : Z * Z * string,
         match main (F:=F) (R:=R) x.1.1 x.2 (base + 1000 * x.1.2 + x.1.1) rho with
         | Ok (_, _, t) => t
         | Raise _ => ""
         end).
  assert (∀ n pi pat fs0, (n, pi, pat) ∈ all_instances →
            generate_one outdir base rho n pi pat fs0
            = Ok (instance_path outdir base (n, pi, pat),
                  <[instance_path outdir base (n, pi, pat) := text_of (n, pi, pat)]> fs0))
    as Hone.
  { intros n pi pat fs0 Hin.
    destruct (generate_one_Ok outdir base rho n pi pat Hin)
      as (sets & A_rows & text & Hmain & Hgen).
    rewrite Hgen. unfold text_of. simpl. by rewrite Hmain. }
  exists (foldl (λ fs0 x, <[instance_path outdir base x := text_of x]> fs0) fs all_instances).
  destruct (lookup_foldl_insert (instance_path outdir base) text_of all_instances fs)
    as [Hin Hout]; [apply instance_path_inj|].
  split_and!.
  - unfold main_all, mbind, Py_mbind. unfold py_bind at 1.
    rewrite (forM_updates _
               (λ n, (λ '(pi, pat), instance_path outdir base (n, pi, pat)) <$> patterns)
               (λ n fs0, foldl (λ fs1 '(pi, pat),
                                  <[instance_path outdir base (n, pi, pat)
                                    := text_of (n, pi, pat)]> fs1) fs0 patterns)).
    + done.
    + intros n fs0 Hn.
      rewrite (forM_updates _
                 (λ '(pi, pat), instance_path outdir base (n, pi, pat))
                 (λ '(pi, pat) fs1, <[instance_path outdir base (n, pi, pat)
                                      := text_of (n, pi, pat)]> fs1)).
      * done.
      * intros [pi pat] fs1 Hp. apply Hone. by apply elem_of_all_instances.
  - apply NoDup_fmap_2_strong; [intros x y; apply instance_path_inj|].
    apply (@bool_decide_unpack _ (NoDup_dec all_instances)). by vm_compute.
  - intros n pi pat Hx.
    destruct (generate_one_Ok outdir base rho n pi pat Hx)
      as (sets & A_rows & text & Hmain & _).
    exists sets, A_rows, text. split; [done|]. rewrite (Hin _ Hx).
    unfold text_of. simpl. by rewrite Hmain.
  - apply Hout.
Qed.
End AllMode.

(** X19. With [--all] the generator writes fifteen files, one for each of
    the five sizes with each of the three patterns, at fifteen different
    paths: each holds the instance that a single run generates for that
    size and pattern with the seed [base_seed + 1000 * pi + n], and no other
    file is touched. *)
Theorem all_mode_files {F R : Type} `{!PyFloat F} `{!RandomSource F R}
    `{!RandomSourceLaws F R} `{!SetIteration} `{!SetIterationLaw}
    (outdir : string) (seed : option Z) (rho : F) (fs : gmap string string) :
  let base := default 20250819 seed in
  ∃ fs',
    main_all outdir seed rho fs = Ok (instance_path outdir base <$> all_instances, fs') ∧
    length all_instances = 15%nat ∧
    NoDup (instance_path outdir base <$> all_instances) ∧
    (∀ n pi pat, (n, pi, pat) ∈ all_instances →
       ∃ sets A_rows text,
         main n pat (base + 1000 * pi + n) rho = Ok (sets, A_rows, text) ∧
         fs' !! instance_path outdir base (n, pi, pat) = Some text) ∧
    (∀ p, p ∉ instance_path outdir base <$> all_instances → fs' !! p = fs !! p).
Proof.
  intros base.
  destruct (main_all_spec outdir seed rho fs) as (fs' & Hrun & Hnd & Hin & Hout).
  exists fs'. by split_and!.
Qed.

(** ** More on the sets: the pattern [pareto], the repair, the text *)

Section ParetoFacts.
Context {F R : Type} `{!PyFloat F} `{!RandomSource F R} `{!SampleLaws F R}.

Lemma size_seqZ_set (n : Z) : 0 ≤ n → size (list_to_set (seqZ 1 n) : gset Z) = Z.to_nat n.
Proof.
  intros Hn. rewrite size_list_to_set by apply NoDup_seqZ. rewrite length_seqZ. lia.
Qed.

End ParetoFacts.

(** X20. With the pattern [pareto] every set is drawn with at least one
    and at most [min(n, 3 * avg)] elements, [avg] being the target size
    [max(2, round(sqrt n))]. *)
Theorem pareto_set_sizes {F R : Type} `{!PyFloat F} `{!RandomSource F R}
    `{!SampleLaws F R} (n : Z) (rng : R) :
  1 ≤ n →
  ∃ sets rng' avg,
    pattern_pareto n rng = Ok (sets, rng') ∧ _avg_size n = Ok avg ∧ 2 ≤ avg ∧
    length sets = Z.to_nat n ∧
    Forall (λ s : gset Z, 1 ≤ Z.of_nat (size s) ≤ Z.min n (3 * avg)) sets.
Proof.
  intros Hn. unfold pattern_pareto, _avg_size, mbind, Py_mbind.
  rewrite (decide_False (P := n < 0)) by lia. unfold py_bind at 1. simpl py_lift. cbv beta iota.
  set (avg := Z.max 2 _).
  match goal with |- context [repeatM _ ?body] =>
    destruct (repeatM_total
                (λ s : gset Z, 1 ≤ Z.of_nat (size s) ≤ Z.min n (3 * avg))
                (Z.to_nat n) body)
      with (s := rng) as (sets & r' & Hrun & Hlen & Hall)
  end.
  - intros s. unfold mbind, Py_mbind, mret, Py_ret, py_bind, paretovariate, py_ret.
    destruct (rng_paretovariate F_two s) as [val s1].
    set (size := Z.max 1 _).
    assert (1 ≤ size ≤ 3 * avg) as Hsize by (unfold size, avg; lia).
    destruct (decide (n ≤ size)) as [Hle|Hlt].
    + eexists _, _. split; [done|]. rewrite size_seqZ_set by lia. lia.
    + unfold sample. rewrite decide_True by (rewrite length_seqZ; lia).
      pose proof (sample_length (seqZ 1 n) (Z.to_nat size) s1
                    ltac:(rewrite length_seqZ; lia)) as Hl.
      pose proof (sample_NoDup (seqZ 1 n) (Z.to_nat size) s1 (NoDup_seqZ _ _)) as Hnd.
      destruct (rng_sample (seqZ 1 n) (Z.to_nat size) s1) as [ks s2]. simpl in Hl, Hnd.
      eexists _, _. split; [done|]. rewrite size_list_to_set by done. lia.
  - exists sets, r', avg. split_and!; [done | done | unfold avg; lia | done | done].
Qed.

(** Each repaired element is in one set only. *)
Lemma repaired_once (sets : list (gset Z)) (ks : list Z) (sets' : list (gset Z)) :
  repaired sets ks sets' → NoDup ks →
  (∀ k, k ∈ ks → Forall (λ s : gset Z, k ∉ s) sets) →
  ∀ k i j si sj, k ∈ ks →
    sets' !! i = Some si → k ∈ si → sets' !! j = Some sj → k ∈ sj → i = j.
Proof.
  induction 1 as [sets|sets k0 ks idx sets' (s0 & Hs0 & _) Hrep IH];
    intros Hnd Hunc k i j si sj Hk Hi Hki Hj Hkj.
  - by apply elem_of_nil in Hk.
  - apply NoDup_cons in Hnd as [Hk0 Hnd].
    destruct (repaired_grows _ _ _ Hrep) as (_ & _ & _ & Hold).
    apply elem_of_cons in Hk as [->|Hk].
    + assert (∀ t st, sets' !! t = Some st → k0 ∈ st → t = idx) as Honly.
      { intros t st Ht Hkt. destruct (Hold t st k0 Ht Hkt) as [?|(s & Hs & Hks)]; [done|].
        destruct (decide (idx = t)) as [->|Hne]; [done|].
        rewrite list_lookup_alter_ne in Hs by done.
        specialize (Hunc k0 ltac:(by left)). rewrite Forall_forall in Hunc.
        destruct (Hunc s); [by eapply list_elem_of_lookup_2 | done]. }
      rewrite (Honly i si Hi Hki), (Honly j sj Hj Hkj). done.
    + apply (IH Hnd) with (k := k) (si := si) (sj := sj); try done.
      intros k' Hk'. apply Forall_forall. intros s Hs Hks.
      apply list_elem_of_lookup in Hs as [t Ht].
      specialize (Hunc k' ltac:(by right)). rewrite Forall_forall in Hunc.
      destruct (decide (idx = t)) as [->|Hne].
      * rewrite list_lookup_alter_eq, Hs0 in Ht. simpl in Ht. injection Ht as <-.
        apply elem_of_union in Hks as [Hks|Hks].
        -- destruct (Hunc s0); [by eapply list_elem_of_lookup_2 | done].
        -- apply elem_of_singleton in Hks as ->. done.
      * rewrite list_lookup_alter_ne in Ht by done.
        destruct (Hunc s); [by eapply list_elem_of_lookup_2 | done].
Qed.

Lemma NoDup_uncovered (sets : list (gset Z)) (n : Z) : NoDup (uncovered sets n).
Proof. unfold uncovered. apply NoDup_filter, NoDup_seqZ. Qed.

(** X21. [enforce_coverage] adds an uncovered element to one set only:
    after the pass each element that was uncovered belongs to exactly one
    set. *)
Theorem enforce_coverage_adds_once `{!SetIteration} `{!SetIterationLaw}
    (sets : list (gset Z)) (n : Z) :
  sets ≠ [] →
  Forall (λ s : gset Z, ∀ k, k ∈ s → 1 ≤ k ≤ n) sets →
  ∃ sets',
    enforce_coverage sets n = Ok sets' ∧
    ∀ k, k ∈ uncovered sets n →
      ∃ i si, sets' !! i = Some si ∧ k ∈ si ∧
              ∀ j sj, sets' !! j = Some sj → k ∈ sj → j = i.
Proof.
  intros Hne Hrange.
  destruct (enforce_coverage_repaired sets n Hne Hrange) as (sets' & Hrun & Hrep).
  exists sets'. split; [done|]. intros k Hk.
  destruct (repaired_grows _ _ _ Hrep) as (_ & _ & Hin & _).
  destruct (Hin k Hk) as (si & Hsi & Hki). apply list_elem_of_lookup in Hsi as [i Hi].
  exists i, si. split_and!; [done..|]. intros j sj Hj Hkj.
  apply (repaired_once _ _ _ Hrep (NoDup_uncovered sets n)) with (k := k) (si := sj) (sj := si);
    try done.
  intros k' Hk'. by apply list_elem_of_filter in Hk' as [? _].
Qed.

Section SortedText.
Context `{!SetIteration} `{!SetIterationLaw}.

Lemma sorted_increasing (s : gset Z) : StronglySorted Z.lt (sorted s).
Proof.
  assert (StronglySorted Z.le (sorted s)) as Hle.
  { apply Sorted_StronglySorted; [intros ???; lia|].
    unfold sorted. apply Sorted_merge_sort. intros x y. lia. }
  assert (NoDup (sorted s)) as Hnd.
  { rewrite sorted_perm. apply NoDup_elements. }
  induction Hle as [|x l _ IH Hall]; [constructor|].
  apply NoDup_cons in Hnd as [Hx Hnd]. constructor; [by apply IH|].
  apply Forall_forall. intros y Hy. rewrite Forall_forall in Hall.
  specialize (Hall y Hy). assert (x ≠ y) by (by intros ->). lia.
Qed.
End SortedText.

(** X22. The file [write_instance] writes reads, token by token, as [n],
    the sizes of the sets, the elements of each set in increasing order,
    each once, and the first [n] rows of the matrix. *)
Theorem written_tokens `{!SetIteration} `{!SetIterationLaw} (n : Z)
    (sets : list (gset Z)) (A_rows : list (list Z)) (text : string) :
  write_instance n sets A_rows = Ok text →
  token_stream (readlines text)
  = py_str n
    :: ((λ s : gset Z, py_str (Z.of_nat (size s))) <$> sets)
    ++ concat ((λ s : gset Z, py_str <$> sorted s) <$> sets)
    ++ concat ((λ row : list Z, py_str <$> row) <$> take (Z.to_nat n) A_rows) ∧
  Forall (λ s : gset Z, StronglySorted Z.lt (sorted s) ∧ ∀ k, k ∈ sorted s ↔ k ∈ s) sets.
Proof.
  intros Hwrite. split.
  - destruct (decide (length A_rows < Z.to_nat n)%nat) as [Hlt|Hge].
    { by rewrite write_instance_short in Hwrite. }
    rewrite write_instance_take in Hwrite by lia. injection Hwrite as <-.
    by rewrite token_stream_readlines, split_instance_text, app_nil_r.
  - apply Forall_forall. intros s _. split; [apply sorted_increasing|].
    intros k. apply elem_of_sorted.
Qed.

(** * Examples *)

#[global] Instance lcg_order_law : @SetIterationLaw lcg.order.
Proof. by intros s. Qed.

Lemma mccormick_exact_witness :
  ∃ m : Model Z,
    build_model 2 [{[0]}; {[1]}] {[ (0%nat, 1%nat) := 3 ]} = Ok m ∧
    (((∀ d, d ∈ m_vars m → v_var d = Y 0 1 → in_domain (λ _, 1%Q) d) ∧
      (∀ c, c ∈ m_constrs m → constr_mentions (Y 0 1) c = true → holds (λ _, 1%Q) c))
     ↔ (1 == 1 * 1)%Q).
Proof.
  eexists. split; [vm_compute; reflexivity|].
  apply (mccormick_exact 2 [{[0]}; {[1]}] {[ (0%nat, 1%nat) := 3 ]} _ 0 1 (λ _, 1%Q)).
  - vm_compute; reflexivity.
  - by eexists.
  - by right.
  - by right.
Defined.

Lemma cover_constraints_witness :
  parse_tokens example_tokens = Ok (2, [{[0]}; {[1]}], example_A) ∧
  ∃ m, build_model 2 [{[0]}; {[1]}] example_A = Ok m ∧
       ∀ σ, (∀ i, (i < 2)%nat → binary (σ (X i))) →
         (∀ c k, c ∈ m_constrs m → c_name c = cover k → holds σ c) →
         ∀ e, 1 ≤ e ≤ 2 → ∃ i, (i < 2)%nat ∧ (σ (X i) == 1)%Q.
Proof.
  assert (parse_tokens example_tokens = Ok (2, [{[0]}; {[1]}], example_A)) as Hparse
    by (vm_compute; reflexivity).
  split; [done|].
  destruct (cover_constraints example_tokens 2 [{[0]}; {[1]}] example_A Hparse)
    as (sizes & elems & coeffs & extra & m & _ & Hm & _ & Hcov).
  exists m. split; [done|]. intros σ Hbin Hall e He.
  destruct (proj1 (Hcov σ Hbin) Hall e He) as (i & Hi & Hone & _). eauto.
Defined.

Lemma product_variables_witness :
  parse_tokens example_tokens = Ok (2, [{[0]}; {[1]}], example_A) ∧
  ∃ m, build_model 2 [{[0]}; {[1]}] example_A = Ok m ∧
       ∀ d i j, d ∈ m_vars m ∧ v_var d = Y i j ↔
                is_Some (example_A !! (i, j)) ∧ d = VarDecl (Y i j) 0 1 CONTINUOUS.
Proof.
  assert (parse_tokens example_tokens = Ok (2, [{[0]}; {[1]}], example_A)) as Hparse
    by (vm_compute; reflexivity).
  split; [done|].
  destruct (product_variables example_tokens 2 [{[0]}; {[1]}] example_A Hparse)
    as (sizes & elems & coeffs & extra & m & _ & Hm & _ & _ & Hvars & _).
  by exists m.
Defined.

Lemma surplus_tokens_ignored_witness :
  parse_instance example_text = Ok (2, [{[0]}; {[1]}], example_A) ∧
  parse_instance (example_text +:+ nl +:+ "7 x") = Ok (2, [{[0]}; {[1]}], example_A).
Proof.
  assert (parse_instance example_text = Ok (2, [{[0]}; {[1]}], example_A)) as Hparse
    by (vm_compute; reflexivity).
  split; [done|].
  apply (surplus_tokens_ignored example_text 2 [{[0]}; {[1]}] example_A Hparse).
Defined.

(** A token that is no number, where a coefficient is expected: the stream
    has its [n], its size, its element and its one matrix token, and the
    error is [float]'s, which names no section. *)
Lemma literal_failure_counterexample :
  parse_tokens (F:=spec_float) ["1"; "1"; "1"; "abc"]
  = Raise (BuiltinValueError "float" "abc") ∧
  ¬ section_error (BuiltinValueError "float" "abc").
Proof.
  split; [vm_compute; reflexivity|].
  intros [H|[H|[[i H]|[(k & n & H)|H]]]]; discriminate.
Qed.

Lemma write_parse_roundtrip_witness :
  ∃ text (A : gmap (nat * nat) spec_float),
    write_instance 2 [{[1]}; {[1; 2]}] [[3; 0]; [-4]] = Ok text ∧
    parse_instance text = Ok (2, [{[0]}; {[0; 1]}], A) ∧
    A !! (1%nat, 1%nat) = Some (binary64.of_Z (-4)) ∧ A !! (0%nat, 1%nat) = None.
Proof.
  destruct (write_parse_roundtrip (F:=spec_float) 2 [{[1]}; {[1; 2]}] [[3; 0]; [-4]])
    as (text & A & Hwrite & Hparse & HA).
  - done.
  - rewrite !Forall_cons. split_and!; [intros k Hk; set_unfold; lia..|constructor].
  - done.
  - intros [|[|i]] row [=]; by subst.
  - apply Forall_forall. intros row _. apply Forall_forall. intros v _.
    apply binary64_float_reads.
  - exists text, A. split_and!; [done | | |].
    + rewrite Hparse. reflexivity.
    + apply HA. exists [-4], (-4). by split_and!.
    + destruct (A !! (0%nat, 1%nat)) as [a|] eqn:Ha; [|done].
      apply HA in Ha as (row & v & [= <-] & _ & [= <-] & Hnz & _). done.
Defined.

(** The set [{1}] written and read back is [{0}]. *)
Lemma roundtrip_counterexample :
  write_instance 1 [{[1]}] [[1]] = Ok ("1" +:+ nl +:+ "1" +:+ nl +:+ "1" +:+ nl +:+ "1" +:+ nl) ∧
  parse_instance (F:=spec_float) ("1" +:+ nl +:+ "1" +:+ nl +:+ "1" +:+ nl +:+ "1" +:+ nl)
  = Ok (1, [{[0]}], {[ (0%nat, 0%nat) := binary64.of_Z 1 ]}) ∧
  ([{[0]}] : list (gset Z)) ≠ [{[1]}].
Proof.
  split; [vm_compute; reflexivity | split; [vm_compute; reflexivity|]].
  by intros [=].
Qed.

(** The source of [lcg] keeps the contract of [random.Random]. *)
Lemma lcg_draw_in_population (pop : list Z) (k : nat) (r : Z) (x : Z) :
  x ∈ (lcg.draw pop k r).1 → x ∈ pop.
Proof.
  revert pop r. induction k as [|k IH]; intros pop r; simpl.
  - by intros ?%elem_of_nil.
  - destruct (pop !! _) as [y|] eqn:Hy; [|by intros ?%elem_of_nil].
    destruct (lcg.draw (delete _ pop) k (lcg.step r)) as [xs r''] eqn:Hdraw. simpl.
    intros [->|Hx]%elem_of_cons; [by eapply list_elem_of_lookup_2|].
    assert (x ∈ delete (Z.to_nat (lcg.step r `mod` Z.of_nat (length pop))) pop) as Hin.
    { apply IH with (r := lcg.step r). by rewrite Hdraw. }
    by eapply list_elem_of_delete_inv.
Qed.

#[global] Instance lcg_laws : RandomSourceLaws spec_float Z.
Proof.
  split.
  - apply lcg_draw_in_population.
  - intros a b r Hab. simpl.
    pose proof (Z.mod_pos_bound (lcg.step r) (b - a) ltac:(lia)). lia.
  - intros a b r Hab. simpl.
    pose proof (Z.mod_pos_bound (lcg.step r) (b - a + 1) ltac:(lia)). lia.
Qed.

Lemma reversed_order_law : @SetIterationLaw reversed_order.
Proof. intros s. apply reverse_Permutation. Qed.

Lemma build_sets_invariants_witness :
  ∃ sets rng',
    build_sets (F:=spec_float) (R:=Z) 3 "pareto" (Random 7) = Ok (sets, rng') ∧
    length sets = Z.to_nat 3 ∧
    (∀ k, 1 ≤ k ≤ 3 → ∃ s, s ∈ sets ∧ k ∈ s) ∧
    Forall (λ s : gset Z, s ≠ ∅) sets.
Proof.
  apply (build_sets_invariants (F:=spec_float) (R:=Z) 3 "pareto" (Random 7)).
  - lia.
  - set_solver.
Defined.

Lemma enforce_coverage_repairs_witness :
  ∃ sets',
    enforce_coverage [{[1]}; ∅] 3 = Ok sets' ∧
    length sets' = 2%nat ∧
    ∀ k, 1 ≤ k ≤ 3 → ∃ s', s' ∈ sets' ∧ k ∈ s'.
Proof.
  destruct (enforce_coverage_repairs [{[1]}; ∅] 3)
    as (sets' & Hrun & _ & Hlen & _ & _ & Hcov).
  - done.
  - rewrite !Forall_cons. split_and!; [intros k Hk; set_unfold; lia.. | constructor].
  - by exists sets'.
Defined.

Lemma diagonal_nonzero_witness :
  ∃ rows rng',
    gen_A_triangular (F:=spec_float) (R:=Z) 3 (binary64.truediv 1 5)
                     (-10, 10) (-5, 5) (Random 7) = Ok (rows, rng') ∧
    length rows = 3%nat ∧
    ∀ i row, rows !! i = Some row → ∃ aii rest, row = aii :: rest ∧ aii ≠ 0.
Proof.
  destruct (diagonal_nonzero (F:=spec_float) (R:=Z) 3 (binary64.truediv 1 5)
              (-10, 10) (-5, 5) (Random 7))
    as (rows & rng' & Hgen & Hlen & Hrows); [simpl; lia..|].
  exists rows, rng'. split_and!; [done..|]. intros i row Hrow.
  destruct (Hrows i row Hrow) as (_ & aii & rest & -> & Hnz & _). eauto.
Defined.

Lemma generation_deterministic_witness :
  @main spec_float Z _ _ lcg.order 4 "pareto" 7 (binary64.of_Z 1)
  = @main spec_float Z _ _ reversed_order 4 "pareto" 7 (binary64.of_Z 1).
Proof.
  apply generation_deterministic.
  - apply lcg_order_law.
  - apply reversed_order_law.
Defined.

(** The five format errors, each with the message of its section. *)
Example parse_empty :
  parse_tokens (F:=spec_float) [] = Raise (ValueError "Arquivo vazio ou n ausente.").
Proof. reflexivity. Qed.

Example parse_sizes_short :
  parse_tokens (F:=spec_float) ["2"; "1"]
  = Raise (ValueError "Linha de tamanhos s_i incompleta.").
Proof. vm_compute. reflexivity. Qed.

Example parse_cover_short :
  parse_tokens (F:=spec_float) ["1"; "2"; "1"]
  = Raise (ValueError "Lista de cobertura de S1 incompleta.").
Proof. vm_compute. reflexivity. Qed.

Example parse_element_outside :
  parse_tokens (F:=spec_float) ["1"; "1"; "5"]
  = Raise (ValueError "Elemento 5 fora do universo 1..1.").
Proof. vm_compute. reflexivity. Qed.

Example parse_matrix_short :
  parse_tokens (F:=spec_float) ["1"; "1"; "1"]
  = Raise (ValueError "Matriz A (triangular superior) incompleta.").
Proof. vm_compute. reflexivity. Qed.

(** Elements 2 and 3 are uncovered: 2 goes to the empty set, and 3, the
    two sets being equal in size by then, to the first. *)
Example enforce_coverage_ties :
  enforce_coverage [{[1]}; ∅] 3 = Ok [{[1; 3]}; {[2]}].
Proof. vm_compute. reflexivity. Qed.

(** Without a set to add to, the repair raises. *)
Example enforce_coverage_no_sets :
  enforce_coverage [] 1 = Raise (BuiltinValueError "min" "").
Proof. vm_compute. reflexivity. Qed.

(** A matrix of the generator, with density one half. *)
Example gen_A_triangular_run :
  ∃ rng', gen_A_triangular (F:=spec_float) (R:=Z) 3 (binary64.truediv 1 2)
                           (-10, 10) (-5, 5) (Random 7)
          = Ok ([[7; 0; 0]; [-8; 4]; [-10]], rng').
Proof. eexists. vm_compute. reflexivity. Qed.

(** [randint] on an empty range raises. *)
Example gen_A_triangular_empty_range :
  gen_A_triangular (F:=spec_float) (R:=Z) 1 (binary64.truediv 1 2)
                   (1, 0) (-5, 5) (Random 7)
  = Raise (BuiltinValueError "randint" "").
Proof. vm_compute. reflexivity. Qed.

(** The whole pipeline on [n = 3]: the text of the file. *)
Example main_run :
  ∃ sets A_rows,
    main (F:=spec_float) (R:=Z) 3 "interval" 7 (binary64.truediv 1 2)
    = Ok (sets, A_rows,
          "3" +:+ nl +:+ "2 3 3" +:+ nl +:+ "1 2" +:+ nl +:+ "1 2 3" +:+ nl
          +:+ "1 2 3" +:+ nl +:+ "-8 4 -1" +:+ nl +:+ "9 2" +:+ nl +:+ "-1" +:+ nl).
Proof. do 2 eexists. vm_compute. reflexivity. Qed.

(** ** Further examples *)

(** The same tokens on one line. *)
Lemma parse_reads_tokens_witness :
  parse_instance (F:=spec_float) example_text
  = parse_instance "2 1 1 1 2 3 0 -4".
Proof. apply parse_reads_tokens. vm_compute. reflexivity. Defined.

(** The element 1 listed three times: one element for a declared size
    of three. *)
Lemma parsed_sets_sizes_witness :
  parse_tokens (F:=spec_float) ["1"; "3"; "1"; "1"; "1"; "5"]
  = Ok (1, [{[0]}], {[ (0%nat, 0%nat) := binary64.of_Z 5 ]}) ∧
  Forall (λ s : gset Z, ∀ k, k ∈ s → 0 ≤ k < 1) [{[0]}].
Proof.
  assert (parse_tokens (F:=spec_float) ["1"; "3"; "1"; "1"; "1"; "5"]
          = Ok (1, [{[0]}], {[ (0%nat, 0%nat) := binary64.of_Z 5 ]})) as Hparse
    by (vm_compute; reflexivity).
  split; [done|].
  by destruct (parsed_sets_sizes _ _ _ _ Hparse)
    as (sizes & elems & coeffs & extra & _ & _ & Hrange & _).
Defined.

Lemma nonpositive_n_accepted_witness :
  parse_tokens (F:=spec_float) ("-3" :: ["1"; "2"; "3"] ++ ["x"]) = Ok (-3, [], ∅).
Proof.
  apply (nonpositive_n_accepted "-3" (-3) ["1"; "2"; "3"]
           [binary64.of_Z 1; binary64.of_Z 2; binary64.of_Z 3] ["x"]).
  - vm_compute. reflexivity.
  - lia.
  - repeat constructor.
  - reflexivity.
Defined.

Lemma model_feasible_iff_covered_witness :
  ∃ m : Model Z,
    build_model 2 [{[0]}; {[1]}] {[ (0%nat, 1%nat) := 3 ]} = Ok m ∧
    (feasible (λ _, 1%Q) m ↔
     ∀ k, (k < Z.to_nat 2)%nat →
       ∃ i, (i < Z.to_nat 2)%nat ∧ Z.of_nat k ∈ ([{[0]}; {[1]}] : list (gset Z)) !!! i).
Proof.
  eexists. split; [vm_compute; reflexivity|].
  apply (model_feasible_iff_covered 2 [{[0]}; {[1]}] {[ (0%nat, 1%nat) := 3 ]}).
  vm_compute. reflexivity.
Defined.

Lemma objective_is_quadratic_witness :
  ∃ m : Model Z,
    build_model 2 [{[0]}; {[1]}] {[ (0%nat, 1%nat) := 3 ]} = Ok m ∧
    (objective_value inject_Z (λ _, 1%Q) m
     == quadratic inject_Z ({[ (0%nat, 1%nat) := 3%Z ]} : gmap (nat * nat) Z)
                  (λ _, 1%Q))%Q.
Proof.
  eexists. split; [vm_compute; reflexivity|].
  apply (objective_is_quadratic inject_Z 2 [{[0]}; {[1]}] {[ (0%nat, 1%nat) := 3 ]}).
  - vm_compute. reflexivity.
  - apply (model_all_ones 2 [{[0]}; {[1]}] {[ (0%nat, 1%nat) := 3 ]});
      [vm_compute; reflexivity|].
    intros [|[|k]] Hk; [exists 0%nat | exists 1%nat | simpl in Hk; lia];
      (split; [simpl; lia | set_solver]).
Defined.

Lemma model_counts_witness :
  ∃ m : Model Z,
    build_model 2 [{[0]}; {[1]}] {[ (0%nat, 1%nat) := 3 ]} = Ok m ∧
    length (m_vars m) = 3%nat ∧ length (m_constrs m) = 5%nat.
Proof.
  assert (∃ m : Model Z,
            build_model 2 [{[0]}; {[1]}] {[ (0%nat, 1%nat) := 3 ]} = Ok m) as [m Hm]
    by (eexists; vm_compute; reflexivity).
  exists m. split; [done|].
  destruct (model_counts 2 [{[0]}; {[1]}] {[ (0%nat, 1%nat) := 3 ]} m Hm) as (Hv & Hc & _).
  split; [rewrite Hv | rewrite Hc]; by vm_compute.
Defined.

Lemma result_with_solution_witness :
  ∃ sel,
    build_and_solve.selected_sets (build_and_solve.result 2 example_outcome) = Some sel ∧
    build_and_solve.n_selected (build_and_solve.result 2 example_outcome)
    = Some (Z.of_nat (length sel)).
Proof.
  destruct (result_with_solution 2 example_outcome)
    as (_ & sel & _ & _ & _ & Hsel & Hn & _ & _ & Hsum); [done|].
  exists sel. split; [done|]. rewrite Hn, Hsum; [done|].
  assert (build_and_solve.rounded 2 example_outcome = [1; 1]) as ->
    by (vm_compute; reflexivity).
  repeat constructor; by right.
Defined.

Lemma NoDup_delete_lookup {X} (l : list X) (i : nat) (x : X) :
  NoDup l → l !! i = Some x → NoDup (delete i l) ∧ x ∉ delete i l.
Proof.
  intros Hnd Hx. rewrite delete_take_drop.
  rewrite <- (take_drop_middle l i x Hx) in Hnd.
  apply NoDup_app in Hnd as (Htake & Hdisj & Hdrop).
  apply NoDup_cons in Hdrop as [Hx' Hdrop]. split.
  - apply NoDup_app. split_and!; [done| |done].
    intros y Hy1 Hy2. apply (Hdisj y Hy1). by right.
  - rewrite not_elem_of_app. split; [|done]. intros Hin. apply (Hdisj x Hin). by left.
Qed.

Lemma lcg_draw_length (pop : list Z) (k : nat) (r : Z) :
  (k ≤ length pop)%nat → length (lcg.draw pop k r).1 = k.
Proof.
  revert pop r. induction k as [|k IH]; intros pop r Hk; [done|]. simpl.
  assert (Z.to_nat (lcg.step r `mod` Z.of_nat (length pop)) < length pop)%nat as Hi.
  { pose proof (Z.mod_pos_bound (lcg.step r) (Z.of_nat (length pop)) ltac:(lia)). lia. }
  destruct (lookup_lt_is_Some_2 _ _ Hi) as [x Hx]. rewrite Hx.
  specialize (IH (delete (Z.to_nat (lcg.step r `mod` Z.of_nat (length pop))) pop)
                 (lcg.step r)).
  destruct (lcg.draw _ k (lcg.step r)) as [xs r'']. simpl in *. f_equal. apply IH.
  rewrite length_delete by eauto. lia.
Qed.

Lemma lcg_draw_NoDup (pop : list Z) (k : nat) (r : Z) :
  NoDup pop → NoDup (lcg.draw pop k r).1.
Proof.
  revert pop r. induction k as [|k IH]; intros pop r Hnd; [constructor|]. simpl.
  destruct (pop !! _) as [x|] eqn:Hx; [|constructor].
  destruct (NoDup_delete_lookup pop _ x Hnd Hx) as [Hnd' Hnin].
  pose proof (IH _ (lcg.step r) Hnd') as IH'.
  pose proof (lcg_draw_in_population
                (delete (Z.to_nat (lcg.step r `mod` Z.of_nat (length pop))) pop)
                k (lcg.step r) x) as Hin.
  destruct (lcg.draw _ k (lcg.step r)) as [xs r'']. simpl in *.
  constructor; [|done]. intros Hxs. by apply Hnin, Hin.
Qed.

#[global] Instance lcg_sample_laws : SampleLaws spec_float Z.
Proof. split; [apply lcg_draw_length | apply lcg_draw_NoDup]. Qed.

Lemma enforce_coverage_errors_witness :
  enforce_coverage [{[5]}] 2 = Raise IndexError.
Proof.
  apply (enforce_coverage_errors [{[5]}] 2).
  intros Hvalid. apply Forall_cons in Hvalid as [Hv _].
  specialize (Hv 5 ltac:(set_solver)). lia.
Defined.

Lemma enforce_coverage_idempotent_witness :
  enforce_coverage [{[1]}; ∅] 3 = Ok [{[1; 3]}; {[2]}] ∧
  enforce_coverage [{[1; 3]}; {[2]}] 3 = Ok [{[1; 3]}; {[2]}].
Proof.
  assert (enforce_coverage [{[1]}; ∅] 3 = Ok [{[1; 3]}; {[2]}]) as Hrun
    by (vm_compute; reflexivity).
  split; [done|].
  apply (enforce_coverage_idempotent [{[1]}; ∅] 3); [|done].
  rewrite !Forall_cons. split_and!; [intros k Hk; set_unfold; lia.. | constructor].
Defined.

Lemma nonempty_fix_singletons_witness :
  ∃ sets' rng',
    nonempty_fix (F:=spec_float) (R:=Z) [∅; {[2]}] 3 (Random 7) = Ok (sets', rng') ∧
    Forall2 (λ s s' : gset Z,
               if decide (s = ∅) then ∃ k, 1 ≤ k ≤ 3 ∧ s' = {[k]} else s' = s)
            [∅; {[2]}] sets'.
Proof. apply (nonempty_fix_singletons (F:=spec_float) (R:=Z) [∅; {[2]}] 3 (Random 7)). lia. Defined.

Lemma interval_needs_no_repair_witness :
  ∃ sets rng',
    pattern_interval (F:=spec_float) (R:=Z) 3 (Random 7) = Ok (sets, rng') ∧
    build_sets 3 "interval" (Random 7) = Ok (sets, rng').
Proof.
  destruct (interval_needs_no_repair (F:=spec_float) (R:=Z) 3 (Random 7))
    as (sets & rng' & Hpat & Hbuild & _); [lia|].
  exists sets, rng'. split; [exact Hpat | exact Hbuild].
Defined.

Lemma matrix_entries_in_range_witness :
  ∃ rows rng',
    gen_A_triangular (F:=spec_float) (R:=Z) 3 (binary64.truediv 1 5)
                     (-10, 10) (-5, 5) (Random 7) = Ok (rows, rng') ∧
    ∀ i row, rows !! i = Some row →
      ∃ aii rest, row = aii :: rest ∧ aii ≠ 0 ∧ -10 ≤ aii ≤ 10 ∧
                  Forall (λ a, -5 ≤ a ≤ 5) rest.
Proof.
  apply (matrix_entries_in_range (F:=spec_float) (R:=Z) 3 (binary64.truediv 1 5)
           (-10, 10) (-5, 5) (Random 7)); simpl; lia.
Defined.

Lemma file_name_injective_witness :
  file_name 25 "uniform" 20250844 = "maxscqbf_n25_uniform_seed20250844.txt" ∧
  (25 = 25 ∧ "uniform" = "uniform" ∧ 20250844 = 20250844).
Proof.
  split; [vm_compute; reflexivity|].
  apply (file_name_injective 25 25 "uniform" "uniform" 20250844 20250844);
    [set_solver | set_solver | reflexivity].
Defined.

Lemma build_sets_within_universe_witness :
  ∃ sets rng',
    build_sets (F:=spec_float) (R:=Z) 3 "uniform" (Random 7) = Ok (sets, rng') ∧
    length sets = Z.to_nat 3 ∧
    Forall (λ s : gset Z, ∀ k, k ∈ s → 1 ≤ k ≤ 3) sets.
Proof.
  apply (build_sets_within_universe (F:=spec_float) (R:=Z) 3 "uniform" (Random 7)).
  - lia.
  - set_solver.
Defined.

Lemma generated_instance_is_solvable_witness :
  ∃ sets A_rows text (A : gmap (nat * nat) spec_float) m,
    main (F:=spec_float) (R:=Z) 3 "interval" 7 (binary64.truediv 1 2)
    = Ok (sets, A_rows, text) ∧
    parse_instance text = Ok (3, set_map (λ k, k - 1) <$> sets, A) ∧
    (∀ i, (i < Z.to_nat 3)%nat → is_Some (A !! (i, i))) ∧
    build_model 3 (set_map (λ k, k - 1) <$> sets) A = Ok m ∧
    feasible (λ _, 1%Q) m.
Proof.
  apply (generated_instance_is_solvable (F:=spec_float) (R:=Z) 3 "interval" 7
           (binary64.truediv 1 2)).
  - lia.
  - set_solver.
  - apply binary64_float_reads.
Defined.

Lemma all_mode_files_witness :
  ∃ fs',
    main_all (F:=spec_float) (R:=Z) "out" None (binary64.truediv 1 5) ∅
    = Ok (instance_path "out" 20250819 <$> all_instances, fs') ∧
    NoDup (instance_path "out" 20250819 <$> all_instances).
Proof.
  destruct (all_mode_files (F:=spec_float) (R:=Z) "out" None (binary64.truediv 1 5) ∅)
    as (fs' & Hrun & _ & Hnd & _).
  exists fs'. split; [exact Hrun | exact Hnd].
Defined.

Lemma pareto_set_sizes_witness :
  ∃ sets rng' avg,
    pattern_pareto (F:=spec_float) (R:=Z) 4 (Random 7) = Ok (sets, rng') ∧
    _avg_size (F:=spec_float) 4 = Ok avg ∧
    Forall (λ s : gset Z, 1 ≤ Z.of_nat (size s) ≤ Z.min 4 (3 * avg)) sets.
Proof.
  destruct (pareto_set_sizes (F:=spec_float) (R:=Z) 4 (Random 7))
    as (sets & rng' & avg & Hrun & Havg & _ & _ & Hall); [lia|].
  exists sets, rng', avg. split; [exact Hrun|]. split; [exact Havg | exact Hall].
Defined.

Lemma enforce_coverage_adds_once_witness :
  ∃ sets',
    enforce_coverage [{[1]}; ∅] 3 = Ok sets' ∧
    ∀ k, k ∈ uncovered [{[1]}; ∅] 3 →
      ∃ i si, sets' !! i = Some si ∧ k ∈ si ∧
              ∀ j sj, sets' !! j = Some sj → k ∈ sj → j = i.
Proof.
  apply (enforce_coverage_adds_once [{[1]}; ∅] 3).
  - done.
  - rewrite !Forall_cons. split_and!; [intros k Hk; set_unfold; lia.. | constructor].
Defined.

Lemma written_tokens_witness :
  write_instance 2 [{[2; 1]}; {[2]}] [[3; 0]; [-4]]
  = Ok ("2" +:+ nl +:+ "2 1" +:+ nl +:+ "1 2" +:+ nl +:+ "2" +:+ nl
        +:+ "3 0" +:+ nl +:+ "-4" +:+ nl) ∧
  StronglySorted Z.lt (sorted {[2; 1]}).
Proof.
  assert (write_instance 2 [{[2; 1]}; {[2]}] [[3; 0]; [-4]]
          = Ok ("2" +:+ nl +:+ "2 1" +:+ nl +:+ "1 2" +:+ nl +:+ "2" +:+ nl
                +:+ "3 0" +:+ nl +:+ "-4" +:+ nl)) as Hwrite
    by (vm_compute; reflexivity).
  split; [done|].
  destruct (written_tokens 2 [{[2; 1]}; {[2]}] [[3; 0]; [-4]] _ Hwrite) as [_ Hsorted].
  by apply Forall_cons in Hsorted as [[? _] _].
Defined.
